(** * fastcache: a sharded in-memory cache with TTL and LRU eviction

    A shallow embedding of [cache.go], of the configuration ([Config], its
    presets, [CustomConfig] and [Validate]), of [errors.go] (the errors and
    their two classes) and of [stats.go] ([GetStats], [GetShardStats],
    [ResetStats], [GetMemoryInfo], [GetPerformanceMetrics], [formatBytes]),
    followed by the
    properties of the specification that were checked against it and by
    further properties of the code.

    Conventions of the embedding.
    - [int64], [int32] and [uint32] values are integers of [Z]; every
      arithmetic operation of the source is followed by its wrap-around
      ([wrap64], [wrap32u]).
    - [time.Now().UnixNano()] is an argument [now] of the operations that
      read the clock.
    - A Go map is a [gmap]; [container/list] is a Rocq list whose head is the
      front of the list.  A list element holds a [*Entry]: the pointer is
      represented by the key of the entry it points to (the field [key] is
      never reassigned, and a shard holds at most one entry per key), and it
      is dereferenced by looking the key up in the shard's map.
    - The fields of [Entry] and [Shard] carry the prefixes [e_] and [s_]
      (both structures have a field [size]).
    - A [sync.RWMutex] is a boolean: [true] while the write lock is held.
      Operations run one after the other; an operation that asks for a lock
      that is held can never proceed, and its outcome is [Blocked].
    - A run-time panic of the Go program is the outcome [Panicked].
    - A [float64] and a formatted string are not computed: they are kept as
      the expressions of the source that yield them. *)

From Stdlib Require Import ZArith Lia.
From stdpp Require Import gmap strings list fin_maps.

Local Open Scope Z_scope.

#[local] Set Warnings "-clear-no-such-hyp".
#[local] Set Warnings "-register-all".

(** ** Machine integers *)

Definition wrap64 (z : Z) : Z := (z + 2 ^ 63) mod 2 ^ 64 - 2 ^ 63.
Definition add64 (a b : Z) : Z := wrap64 (a + b).
Definition sub64 (a b : Z) : Z := wrap64 (a - b).
Definition neg64 (a : Z) : Z := wrap64 (- a).
Definition wrap32u (z : Z) : Z := z mod 2 ^ 32.

Definition int64_range (z : Z) : Prop := - 2 ^ 63 <= z < 2 ^ 63.

(** ** errors.go *)

Inductive error : Type :=
| ErrCacheClosed
| ErrKeyNotFound
| ErrInvalidKey
| ErrMemoryLimitExceeded
| ErrInvalidConfig (Field Message : string).

(** An [error] value of any of the types of [errors.go]: one of the values
    above, or one of the two structured errors; [ErrShardError] holds the
    error it wraps, which may be [nil]. *)
Inductive errorValue : Type :=
| Err (e : error)
| ErrOperationFailed (Operation Key Reason : string)
| ErrShardError (ShardID : Z) (wrapped : option errorValue).

(** [errors.As(err, &configErr)] with [configErr] of type
    [ErrInvalidConfig]: the chain of [Unwrap] is searched. *)
Fixpoint asInvalidConfig (e : errorValue) : bool :=
  match e with
  | Err (ErrInvalidConfig _ _) => true
  | ErrShardError _ (Some inner) => asInvalidConfig inner
  | _ => false
  end.

(** The argument is [None] for a [nil] error. *)
Definition IsTemporaryError (err : option errorValue) : bool :=
  match err with
  | Some (Err ErrMemoryLimitExceeded) => true
  | _ => false
  end.

Definition IsPermanentError (err : option errorValue) : bool :=
  match err with
  | Some (Err ErrCacheClosed) | Some (Err ErrInvalidKey) => true
  | Some e => asInvalidConfig e
  | None => false
  end.

(** ** Configuration: [Config], the presets, [Validate] *)

Record Config : Type := mkConfig {
  MaxMemoryBytes : Z;
  ShardCount : Z;
  DefaultTTL : Z;        (* time.Duration: nanoseconds *)
  CleanupInterval : Z    (* time.Duration: nanoseconds *)
}.

Definition Millisecond : Z := 1000000.
Definition Second : Z := 1000 * Millisecond.
Definition Minute : Z := 60 * Second.
Definition Hour : Z := 60 * Minute.

Definition DefaultConfig : Config :=
  {| MaxMemoryBytes := 512 * 1024 * 1024;
     ShardCount := 1024;
     DefaultTTL := Hour;
     CleanupInterval := Minute |}.

Definition HighConcurrencyConfig : Config :=
  {| MaxMemoryBytes := 1024 * 1024 * 1024;
     ShardCount := 2048;
     DefaultTTL := 30 * Minute;
     CleanupInterval := 30 * Second |}.

Definition LowMemoryConfig : Config :=
  {| MaxMemoryBytes := 64 * 1024 * 1024;
     ShardCount := 256;
     DefaultTTL := 15 * Minute;
     CleanupInterval := 30 * Second |}.

(** [int64(maxMemoryMB) * 1024 * 1024]: both products are taken in
    [int64]. *)
Definition CustomConfig (maxMemoryMB shardCount defaultTTL : Z) : Config :=
  {| MaxMemoryBytes := wrap64 (wrap64 (maxMemoryMB * 1024) * 1024);
     ShardCount := shardCount;
     DefaultTTL := defaultTTL;
     CleanupInterval := Minute |}.

(** [Validate] returns [None] for Go's [nil] error. *)
Definition Validate (c : Config) : option error :=
  if MaxMemoryBytes c <=? 0 then
    Some (ErrInvalidConfig "MaxMemoryBytes" "must be greater than 0")
  else if ShardCount c <=? 0 then
    Some (ErrInvalidConfig "ShardCount" "must be greater than 0")
  else if 65536 <? ShardCount c then
    Some (ErrInvalidConfig "ShardCount" "must be less than 65536")
  else if CleanupInterval c <=? 0 then
    Some (ErrInvalidConfig "CleanupInterval" "must be greater than 0")
  else None.

(** ** cache.go: data *)

(** The dynamic type of a stored [interface{}], as far as [calculateSize]
    tells values apart. *)
Inductive Value : Type :=
| VString (s : string)
| VBytes (b : list Byte.byte)
| VInteger (z : Z)          (* int, int32, int64, uint, uint32, uint64 *)
| VFloat (bits : Z)         (* float32, float64 *)
| VBool (b : bool)
| VOther (tag : nat).       (* any other dynamic type *)

Record Entry : Type := mkEntry {
  e_key : string;
  e_value : Value;
  e_size : Z;
  e_expiry : Z     (* Unix time in nanoseconds; at most 0 for no expiry *)
}.

Record Shard : Type := mkShard {
  s_mu : bool;
  s_data : gmap string Entry;
  s_lruList : list string;
  s_size : Z;
  s_hitCount : Z;
  s_missCount : Z
}.

Definition newShard : Shard :=
  {| s_mu := false; s_data := ∅; s_lruList := [];
     s_size := 0; s_hitCount := 0; s_missCount := 0 |}.

(** [stopCh] is [true] once the channel is closed; [goroutines] lists the
    keys of the [go c.Delete(key)] calls that were started and have not run
    yet. *)
Record Cache : Type := mkCache {
  config : Config;
  shards : list Shard;
  totalSize : Z;
  totalHits : Z;
  totalMiss : Z;
  closed : Z;
  stopCh : bool;
  goroutines : list string
}.

(** [New]: [None] stands for the panic of [make] on a negative length.  The
    cleanup goroutine that [New] starts is stepped by [cleanupRoutine]
    below. *)
Definition New (cfg : option Config) : option Cache :=
  let config := default DefaultConfig cfg in
  if ShardCount config <? 0 then None
  else Some {| config := config;
               shards := replicate (Z.to_nat (ShardCount config)) newShard;
               totalSize := 0; totalHits := 0; totalMiss := 0;
               closed := 0; stopCh := false; goroutines := [] |}.

(** ** hash: 32-bit FNV-1a over the bytes of the key *)

Definition offset32 : Z := 2166136261.
Definition prime32 : Z := 16777619.

Fixpoint fnv1a (h : Z) (s : string) : Z :=
  match s with
  | EmptyString => h
  | String b rest =>
      fnv1a (wrap32u (Z.lxor h (Z.of_N (Ascii.N_of_ascii b)) * prime32)) rest
  end.

Definition hash (key : string) : Z := fnv1a offset32 key.

(** ** calculateSize *)

(** [unsafe.Sizeof] of an interface value: two machine words. *)
Definition interfaceSize : Z := 16.

Definition calculateSize (key : string) (value : Value) : Z :=
  let size := Z.of_nat (String.length key) in
  let size :=
    match value with
    | VString v => add64 size (Z.of_nat (String.length v))
    | VBytes v => add64 size (Z.of_nat (length v))
    | VInteger _ => add64 size 8
    | VFloat _ => add64 size 8
    | VBool _ => add64 size 1
    | VOther _ => add64 size interfaceSize
    end in
  add64 size 64.

(** ** Outcomes of an operation and the monad that threads the cache *)

Inductive Outcome (A : Type) : Type :=
| Returned (a : A) (c : Cache)   (* the call returned [a] *)
| Blocked (c : Cache)            (* the caller waits for a lock for ever *)
| Panicked (c : Cache).          (* the call raised a run-time panic *)

Arguments Returned {A} a c.
Arguments Blocked {A} c.
Arguments Panicked {A} c.

Definition M (A : Type) : Type := Cache → Outcome A.

Definition ret {A} (a : A) : M A := λ c, Returned a c.

Definition bind {A B} (m : M A) (k : A → M B) : M B := λ c,
  match m c with
  | Returned a c' => k a c'
  | Blocked c' => Blocked c'
  | Panicked c' => Panicked c'
  end.

Notation "x <-- m ;; k" := (bind m (λ x, k))
  (at level 100, m at next level, right associativity, only parsing).
Notation "m ;; k" := (bind m (λ _, k))
  (at level 100, right associativity, only parsing).

Definition modify (f : Cache → Cache) : M unit := λ c, Returned tt (f c).
Definition panic {A} : M A := λ c, Panicked c.
Definition block {A} : M A := λ c, Blocked c.

(** [defer cleanup body]: [cleanup] runs when [body] returns and also while
    a panic of [body] unwinds; it does not run if [body] never returns. *)
Definition defer {A} (cleanup : M unit) (body : M A) : M A := λ c,
  match body c with
  | Returned a c' => (cleanup ;; ret a) c'
  | Blocked c' => Blocked c'
  | Panicked c' =>
      match cleanup c' with
      | Returned _ c'' => Panicked c''
      | Blocked c'' => Blocked c''
      | Panicked c'' => Panicked c''
      end
  end.

Fixpoint forM_ {A} (l : list A) (f : A → M unit) : M unit :=
  match l with
  | [] => ret tt
  | a :: rest => f a ;; forM_ rest f
  end.

(** *** Field updates *)

Definition withShards (f : list Shard → list Shard) (c : Cache) : Cache :=
  {| config := config c; shards := f (shards c); totalSize := totalSize c;
     totalHits := totalHits c; totalMiss := totalMiss c; closed := closed c;
     stopCh := stopCh c; goroutines := goroutines c |}.

Definition withTotalSize (f : Z → Z) (c : Cache) : Cache :=
  {| config := config c; shards := shards c; totalSize := f (totalSize c);
     totalHits := totalHits c; totalMiss := totalMiss c; closed := closed c;
     stopCh := stopCh c; goroutines := goroutines c |}.

Definition withTotalHits (f : Z → Z) (c : Cache) : Cache :=
  {| config := config c; shards := shards c; totalSize := totalSize c;
     totalHits := f (totalHits c); totalMiss := totalMiss c;
     closed := closed c; stopCh := stopCh c; goroutines := goroutines c |}.

Definition withTotalMiss (f : Z → Z) (c : Cache) : Cache :=
  {| config := config c; shards := shards c; totalSize := totalSize c;
     totalHits := totalHits c; totalMiss := f (totalMiss c);
     closed := closed c; stopCh := stopCh c; goroutines := goroutines c |}.

Definition withClosed (v : Z) (stop : bool) (c : Cache) : Cache :=
  {| config := config c; shards := shards c; totalSize := totalSize c;
     totalHits := totalHits c; totalMiss := totalMiss c; closed := v;
     stopCh := stop; goroutines := goroutines c |}.

Definition withGoroutines (f : list string → list string) (c : Cache) : Cache :=
  {| config := config c; shards := shards c; totalSize := totalSize c;
     totalHits := totalHits c; totalMiss := totalMiss c; closed := closed c;
     stopCh := stopCh c; goroutines := f (goroutines c) |}.

Definition withMu (b : bool) (s : Shard) : Shard :=
  {| s_mu := b; s_data := s_data s; s_lruList := s_lruList s;
     s_size := s_size s; s_hitCount := s_hitCount s;
     s_missCount := s_missCount s |}.

Definition withData (f : gmap string Entry → gmap string Entry) (s : Shard) : Shard :=
  {| s_mu := s_mu s; s_data := f (s_data s); s_lruList := s_lruList s;
     s_size := s_size s; s_hitCount := s_hitCount s;
     s_missCount := s_missCount s |}.

Definition withLruList (f : list string → list string) (s : Shard) : Shard :=
  {| s_mu := s_mu s; s_data := s_data s; s_lruList := f (s_lruList s);
     s_size := s_size s; s_hitCount := s_hitCount s;
     s_missCount := s_missCount s |}.

Definition withSize (f : Z → Z) (s : Shard) : Shard :=
  {| s_mu := s_mu s; s_data := s_data s; s_lruList := s_lruList s;
     s_size := f (s_size s); s_hitCount := s_hitCount s;
     s_missCount := s_missCount s |}.

Definition withHitCount (f : Z → Z) (s : Shard) : Shard :=
  {| s_mu := s_mu s; s_data := s_data s; s_lruList := s_lruList s;
     s_size := s_size s; s_hitCount := f (s_hitCount s);
     s_missCount := s_missCount s |}.

Definition withMissCount (f : Z → Z) (s : Shard) : Shard :=
  {| s_mu := s_mu s; s_data := s_data s; s_lruList := s_lruList s;
     s_size := s_size s; s_hitCount := s_hitCount s;
     s_missCount := f (s_missCount s) |}.

(** *** Shards, locks and atomics *)

(** [c.shards[i]]: an index out of range panics. *)
Definition shardAt (i : nat) : M Shard := λ c,
  match shards c !! i with
  | Some s => Returned s c
  | None => Panicked c
  end.

Definition updShard (i : nat) (f : Shard → Shard) : M unit :=
  modify (withShards (alter f i)).

Definition Lock (i : nat) : M unit :=
  s <-- shardAt i ;;
  if s_mu s then block else updShard i (withMu true).

Definition Unlock (i : nat) : M unit := updShard i (withMu false).

(** A read lock is taken and released within one step of an operation, so
    readers are not counted: [RLock] only waits for the writer. *)
Definition RLock (i : nat) : M unit :=
  s <-- shardAt i ;;
  if s_mu s then block else ret tt.

Definition RUnlock (i : nat) : M unit := ret tt.

(** ** container/list on keys *)

Definition PushFront (k : string) (l : list string) : list string := k :: l.

(** [Remove] of the element of the entry with key [k]; a well-formed list
    holds a key once. *)
Definition Remove (k : string) (l : list string) : list string :=
  filter (λ x, x ≠ k) l.

(** [MoveToFront] does nothing for an element that is not in the list. *)
Definition MoveToFront (k : string) (l : list string) : list string :=
  if decide (k ∈ l) then k :: Remove k l else l.

(** [Back] and the removal of the back element. *)
Definition Back (l : list string) : option string := last l.
Definition RemoveBack (l : list string) : list string := removelast l.

(** ** cache.go: operations *)

Definition isExpired (e : Entry) (now : Z) : bool :=
  (0 <? e_expiry e) && (e_expiry e <? now).

(** [c.hash(key) % uint32(c.config.ShardCount)], then [c.shards[...]]. *)
Definition getShard (key : string) : M nat := λ c,
  let n := wrap32u (ShardCount (config c)) in
  if n =? 0 then Panicked c
  else
    let i := Z.to_nat (hash key mod n) in
    match shards c !! i with
    | Some _ => Returned i c
    | None => Panicked c
    end.

(** The expiry computed at the head of [Set]; [time.Now().Add(d).UnixNano()]
    is [add64 now d]. *)
Definition expiryFor (cfg : Config) (ttl : list Z) (now : Z) : Z :=
  if bool_decide (0 < length ttl)%nat && (0 <? hd 0 ttl) then
    add64 now (hd 0 ttl)
  else if 0 <? DefaultTTL cfg then
    add64 now (DefaultTTL cfg)
  else 0.

(** The body of the loop of [evictFromShard], run at most [count] times.
    The entry that [oldest.Value] points to is the one filed under the key
    of the back element; the branch where there is none stands for a dangling pointer and
    is never taken in a well-formed shard (lemma [shard_wf_back_ok]). *)
Fixpoint evictLoop (i : nat) (count : nat) : M unit :=
  match count with
  | O => ret tt
  | S count' =>
      s <-- shardAt i ;;
      match Back (s_lruList s) with
      | None => ret tt
      | Some oldest =>
          match s_data s !! oldest with
          | None => panic
          | Some entry =>
              updShard i (withData (delete (e_key entry))) ;;
              updShard i (withLruList RemoveBack) ;;
              modify (withTotalSize (λ t, add64 t (neg64 (e_size entry)))) ;;
              updShard i (withSize (λ t, add64 t (neg64 (e_size entry)))) ;;
              evictLoop i count'
          end
      end
  end.

Definition evictFromShard (i : nat) (count : nat) : M unit :=
  Lock i ;;
  defer (Unlock i) (evictLoop i count).

Definition evictIfNeeded : M unit := λ c,
  if totalSize c <=? MaxMemoryBytes (config c) then Returned tt c
  else
    let shardsToEvict := ShardCount (config c) ÷ 4 in
    let shardsToEvict := if shardsToEvict <? 1 then 1 else shardsToEvict in
    forM_ (seq 0 (Z.to_nat shardsToEvict))
          (λ i, _ <-- shardAt i ;; evictFromShard i 1) c.

(** [Set] ([Set] itself is a reserved word of Rocq).  [ttl] is the variadic
    parameter. *)
Definition Set_ (key : string) (value : Value) (ttl : list Z) (now : Z)
  : M (option error) := λ c,
  if closed c =? 1 then Returned (Some ErrCacheClosed) c
  else
    (i <-- getShard key ;;
     let size := calculateSize key value in
     let expiry := expiryFor (config c) ttl now in
     Lock i ;;
     defer (Unlock i)
       (s <-- shardAt i ;;
        match s_data s !! key with
        | Some existing =>
            modify (withTotalSize (λ t, add64 t (sub64 size (e_size existing)))) ;;
            updShard i (withSize (λ t, add64 t (sub64 size (e_size existing)))) ;;
            updShard i (withData (insert key
              {| e_key := e_key existing; e_value := value;
                 e_size := size; e_expiry := expiry |})) ;;
            updShard i (withLruList (MoveToFront key)) ;;
            evictIfNeeded ;;
            ret None
        | None =>
            let entry := {| e_key := key; e_value := value;
                            e_size := size; e_expiry := expiry |} in
            updShard i (withLruList (PushFront key)) ;;
            updShard i (withData (insert key entry)) ;;
            modify (withTotalSize (λ t, add64 t size)) ;;
            updShard i (withSize (λ t, add64 t size)) ;;
            evictIfNeeded ;;
            ret None
        end)) c.

Definition Get (key : string) (now : Z) : M (option Value * bool) := λ c,
  if closed c =? 1 then Returned (None, false) c
  else
    (i <-- getShard key ;;
     RLock i ;;
     s <-- shardAt i ;;
     RUnlock i ;;
     match s_data s !! key with
     | None =>
         updShard i (withMissCount (λ n, add64 n 1)) ;;
         modify (withTotalMiss (λ n, add64 n 1)) ;;
         ret (None, false)
     | Some entry =>
         if isExpired entry now then
           modify (withGoroutines (λ g, g ++ [key])) ;;
           updShard i (withMissCount (λ n, add64 n 1)) ;;
           modify (withTotalMiss (λ n, add64 n 1)) ;;
           ret (None, false)
         else
           Lock i ;;
           updShard i (withLruList (MoveToFront key)) ;;
           Unlock i ;;
           updShard i (withHitCount (λ n, add64 n 1)) ;;
           modify (withTotalHits (λ n, add64 n 1)) ;;
           ret (Some (e_value entry), true)
     end) c.

(** The removal shared by [Delete] and [cleanupExpired]: the entry leaves
    the map and the list and its size leaves both counters. *)
Definition removeEntry (i : nat) (key : string) (entry : Entry) : M unit :=
  updShard i (withData (delete key)) ;;
  updShard i (withLruList (Remove key)) ;;
  modify (withTotalSize (λ t, add64 t (neg64 (e_size entry)))) ;;
  updShard i (withSize (λ t, add64 t (neg64 (e_size entry)))).

Definition Delete (key : string) : M bool := λ c,
  if closed c =? 1 then Returned false c
  else
    (i <-- getShard key ;;
     Lock i ;;
     defer (Unlock i)
       (s <-- shardAt i ;;
        match s_data s !! key with
        | None => ret false
        | Some entry => removeEntry i key entry ;; ret true
        end)) c.

(** One shard of [cleanupExpired].  The order in which Go ranges over the
    map is not fixed; here it is the order of [map_to_list]. *)
Definition expiredKeys (now : Z) (data : gmap string Entry) : list string :=
  (map_to_list (filter (λ kv, isExpired kv.2 now = true) data)).*1.

Definition cleanupShard (now : Z) (i : nat) : M unit :=
  Lock i ;;
  s <-- shardAt i ;;
  forM_ (expiredKeys now (s_data s))
        (λ key,
           s' <-- shardAt i ;;
           match s_data s' !! key with
           | None => panic
           | Some entry => removeEntry i key entry
           end) ;;
  Unlock i.

Definition cleanupExpired (now : Z) : M unit := λ c,
  forM_ (seq 0 (length (shards c))) (cleanupShard now) c.

(** One tick of the goroutine started by [New].  [time.NewTicker], the first
    thing the goroutine calls, panics on an interval that is not positive;
    after [stopCh] is closed the goroutine has left its loop. *)
Definition cleanupRoutine (now : Z) : M unit := λ c,
  if CleanupInterval (config c) <=? 0 then Panicked c
  else if stopCh c then Returned tt c
  else cleanupExpired now c.

Definition clearShard (s : Shard) : Shard :=
  {| s_mu := s_mu s; s_data := ∅; s_lruList := []; s_size := 0;
     s_hitCount := s_hitCount s; s_missCount := s_missCount s |}.

Definition Clear : M unit := λ c,
  (forM_ (seq 0 (length (shards c)))
         (λ i, Lock i ;; updShard i clearShard ;; Unlock i) ;;
   modify (withTotalSize (λ _, 0))) c.

(** [Close]: the compare-and-swap of [closed] from 0 to 1, then the stop
    signal; the cleanup goroutine, parked between two ticks, leaves its loop
    and [wg.Wait] returns. *)
Definition Close : M (option error) := λ c,
  if closed c =? 0 then Returned None (withClosed 1 true c)
  else Returned (Some ErrCacheClosed) c.

(** The pending [go c.Delete(key)] number [n] runs; the scheduler picks
    [n]. *)
Definition runGoroutine (n : nat) : M unit := λ c,
  match goroutines c !! n with
  | None => Returned tt c
  | Some key =>
      (modify (withGoroutines (delete n)) ;; _ <-- Delete key ;; ret tt) c
  end.

(** ** stats.go: ResetStats *)

Definition ResetStats : M unit :=
  modify (withTotalHits (λ _, 0)) ;;
  modify (withTotalMiss (λ _, 0)) ;;
  modify (withShards (fmap (λ s, withMissCount (λ _, 0) (withHitCount (λ _, 0) s)))).

(** ** stats.go: the reports *)

(** [float64] values are not computed: a value is the expression of the
    source that yields it. *)
Inductive float64 : Type :=
| F64 (z : Z)                  (* float64(z) *)
| Fadd (a b : float64)
| Fsub (a b : float64)
| Fmul (a b : float64)
| Fdiv (a b : float64).

(** The two strings that [formatBytes] builds, likewise. *)
Inductive Formatted : Type :=
| SprintfB (bytes : Z)                            (* Sprintf("%d B", bytes) *)
| SprintfUnit (x : float64) (unit : Ascii.ascii). (* Sprintf("%.1f %cB", x, unit) *)

(** An atomic load, and a loop that carries a local variable. *)
Definition gets {A} (f : Cache → A) : M A := λ c, Returned (f c) c.

Fixpoint foldM {A B} (l : list A) (f : B → A → M B) (b : B) : M B :=
  match l with
  | [] => ret b
  | a :: rest => b' <-- f b a ;; foldM rest f b'
  end.

(** The loop of [formatBytes]: [n], [div] and [exp] when it is left, or when
    [fuel] rounds have been run. *)
Fixpoint formatLoop (fuel : nat) (n div : Z) (exp : nat) : Z * Z * nat :=
  match fuel with
  | O => (n, div, exp)
  | S fuel' =>
      if 1024 <=? n then
        formatLoop fuel' (n ÷ 1024) (wrap64 (div * 1024)) (S exp)
      else (n, div, exp)
  end.

(** [None] stands for the panic of an index outside the string [KMGTPE].
    The loop divides [n] by 1024 in each round, so it is left within
    [log2 bytes] rounds (lemma [formatLoop_ends]). *)
Definition formatBytes (bytes : Z) : option Formatted :=
  if bytes <? 1024 then Some (SprintfB bytes)
  else
    let '(_, div, exp) :=
      formatLoop (Z.to_nat (Z.log2 bytes)) (bytes ÷ 1024) 1024 0 in
    match String.get exp "KMGTPE" with
    | Some unit => Some (SprintfUnit (Fdiv (F64 bytes) (F64 div)) unit)
    | None => None
    end.

Definition formatBytesM (bytes : Z) : M Formatted := λ c,
  match formatBytes bytes with
  | Some text => Returned text c
  | None => Panicked c
  end.

(** The fields of [Stats], [ShardStats] and [MemoryInfo] carry the prefixes
    [st_], [ss_] and [mi_]. *)
Record Stats : Type := mkStats {
  st_TotalSize : Z;
  st_TotalEntries : Z;
  st_HitCount : Z;
  st_MissCount : Z;
  st_HitRatio : float64;
  st_MemoryUsage : Formatted;
  st_ShardCount : Z;
  st_MaxMemory : Z;
  st_MemoryPercent : float64
}.

(** [hits / (hits + misses)], or the zero value when [hits + misses] is not
    positive; [GetStats] and [GetShardStats] compute it in the same way. *)
Definition hitRatio (hits misses : Z) : float64 :=
  let total := add64 hits misses in
  if 0 <? total then Fdiv (F64 hits) (F64 total) else F64 0.

Definition memoryPercent (size max : Z) : float64 :=
  Fmul (Fdiv (F64 size) (F64 max)) (F64 100).

Definition GetStats : M Stats := λ c,
  (totalEntries <--
     foldM (seq 0 (length (shards c)))
       (λ totalEntries i,
          RLock i ;;
          s <-- shardAt i ;;
          RUnlock i ;;
          ret (add64 totalEntries (Z.of_nat (size (s_data s))))) 0 ;;
   hits <-- gets totalHits ;;
   misses <-- gets totalMiss ;;
   size <-- gets totalSize ;;
   cfg <-- gets config ;;
   usage <-- formatBytesM size ;;
   ret {| st_TotalSize := size;
          st_TotalEntries := totalEntries;
          st_HitCount := hits;
          st_MissCount := misses;
          st_HitRatio := hitRatio hits misses;
          st_MemoryUsage := usage;
          st_ShardCount := ShardCount cfg;
          st_MaxMemory := MaxMemoryBytes cfg;
          st_MemoryPercent := memoryPercent size (MaxMemoryBytes cfg) |}) c.

Record ShardStats : Type := mkShardStats {
  ss_ShardID : Z;
  ss_EntryCount : Z;
  ss_Size : Z;
  ss_HitCount : Z;
  ss_MissCount : Z;
  ss_HitRatio : float64;
  ss_MemoryUsage : Formatted
}.

Definition shardStats (i : nat) (s : Shard) (usage : Formatted) : ShardStats :=
  {| ss_ShardID := Z.of_nat i;
     ss_EntryCount := Z.of_nat (size (s_data s));
     ss_Size := s_size s;
     ss_HitCount := s_hitCount s;
     ss_MissCount := s_missCount s;
     ss_HitRatio := hitRatio (s_hitCount s) (s_missCount s);
     ss_MemoryUsage := usage |}.

(** The slice [stats] is filled in the order of its indices: it is built
    here by appending the element that each round assigns. *)
Definition GetShardStats : M (list ShardStats) := λ c,
  foldM (seq 0 (length (shards c)))
    (λ stats i,
       RLock i ;;
       s <-- shardAt i ;;
       RUnlock i ;;
       usage <-- formatBytesM (s_size s) ;;
       ret (stats ++ [shardStats i s usage])) [] c.

Record MemoryInfo : Type := mkMemoryInfo {
  mi_Used : Z;
  mi_UsedFormatted : Formatted;
  mi_Max : Z;
  mi_MaxFormatted : Formatted;
  mi_Available : Z;
  mi_AvailableFormatted : Formatted;
  mi_Percent : float64;
  mi_ShardSizes : list Z
}.

(** [GetMemoryInfo] takes no lock. *)
Definition GetMemoryInfo : M MemoryInfo :=
  used <-- gets totalSize ;;
  cfg <-- gets config ;;
  let available := sub64 (MaxMemoryBytes cfg) used in
  let available := if available <? 0 then 0 else available in
  shardSizes <-- gets (λ c, s_size <$> shards c) ;;
  usedFormatted <-- formatBytesM used ;;
  maxFormatted <-- formatBytesM (MaxMemoryBytes cfg) ;;
  availableFormatted <-- formatBytesM available ;;
  ret {| mi_Used := used;
         mi_UsedFormatted := usedFormatted;
         mi_Max := MaxMemoryBytes cfg;
         mi_MaxFormatted := maxFormatted;
         mi_Available := available;
         mi_AvailableFormatted := availableFormatted;
         mi_Percent := memoryPercent used (MaxMemoryBytes cfg);
         mi_ShardSizes := shardSizes |}.

(** The fields of [PerformanceMetrics] carry the prefix [pm_]. *)
Record PerformanceMetrics : Type := mkPerformanceMetrics {
  pm_TotalOperations : Z;
  pm_HitRate : float64;
  pm_MissRate : float64;
  pm_AvgShardLoad : float64;
  pm_MaxShardLoad : Z;
  pm_MinShardLoad : Z;
  pm_LoadBalance : float64
}.

(** One round of the loop of [GetPerformanceMetrics] over the shards; the
    loop carries [totalEntries], [maxLoad], [minLoad] and the slice [loads],
    which is filled in the order of its indices. *)
Definition loadRound (vars : Z * Z * Z * list Z) (i : nat)
  : M (Z * Z * Z * list Z) :=
  let '(totalEntries, maxLoad, minLoad, loads) := vars in
  RLock i ;;
  s <-- shardAt i ;;
  let load := Z.of_nat (size (s_data s)) in
  let maxLoad := if (i =? 0)%nat || (maxLoad <? load) then load else maxLoad in
  let minLoad := if (i =? 0)%nat || (load <? minLoad) then load else minLoad in
  RUnlock i ;;
  ret (add64 totalEntries load, maxLoad, minLoad, loads ++ [load]).

Definition loadLoop : M (Z * Z * Z * list Z) := λ c,
  foldM (seq 0 (length (shards c))) loadRound (0, 0, 0, []) c.

Definition GetPerformanceMetrics : M PerformanceMetrics :=
  (hits <-- gets totalHits ;;
   misses <-- gets totalMiss ;;
   let total := add64 hits misses in
   let hitRate := if 0 <? total then Fdiv (F64 hits) (F64 total) else F64 0 in
   let missRate := if 0 <? total then Fdiv (F64 misses) (F64 total) else F64 0 in
   vars <-- loadLoop ;;
   let '(totalEntries, maxLoad, minLoad, loads) := vars in
   n <-- gets (λ c, Z.of_nat (length (shards c))) ;;
   let avgLoad := Fdiv (F64 totalEntries) (F64 n) in
   let variance :=
     foldl (λ variance load,
              let diff := Fsub (F64 load) avgLoad in
              Fadd variance (Fmul diff diff)) (F64 0) loads in
   let variance := Fdiv variance (F64 (Z.of_nat (length loads))) in
   ret {| pm_TotalOperations := total;
          pm_HitRate := hitRate;
          pm_MissRate := missRate;
          pm_AvgShardLoad := avgLoad;
          pm_MaxShardLoad := maxLoad;
          pm_MinShardLoad := minLoad;
          pm_LoadBalance := variance |}).

(** * Vocabulary of the specification

    Predicates, closed forms and sample data used to state the properties. *)

(** ** Configuration *)

(** The constraints that [Validate] enforces. *)
Definition config_ok (cfg : Config) : Prop :=
  0 < MaxMemoryBytes cfg ∧ 1 <= ShardCount cfg <= 65536 ∧
  0 < CleanupInterval cfg.

(** The four constraints of the specification's configuration table. *)
Definition spec_config_ok (cfg : Config) : Prop :=
  0 < MaxMemoryBytes cfg ∧ 1 <= ShardCount cfg <= 65536 ∧
  0 <= DefaultTTL cfg ∧ 0 < CleanupInterval cfg.

(** Field [f] of [cfg] breaks its constraint. *)
Definition field_violated (cfg : Config) (f : string) : Prop :=
  (f = "MaxMemoryBytes" ∧ MaxMemoryBytes cfg <= 0) ∨
  (f = "ShardCount" ∧ (ShardCount cfg < 1 ∨ 65536 < ShardCount cfg)) ∨
  (f = "CleanupInterval" ∧ CleanupInterval cfg <= 0).

Definition freshCache (cfg : Config) : Cache :=
  {| config := cfg;
     shards := replicate (Z.to_nat (ShardCount cfg)) newShard;
     totalSize := 0; totalHits := 0; totalMiss := 0;
     closed := 0; stopCh := false; goroutines := [] |}.

(** ** Operations as data, reachable states *)

Inductive Op : Type :=
| OpSet (key : string) (value : Value) (ttl : list Z) (now : Z)
| OpGet (key : string) (now : Z)
| OpDelete (key : string)
| OpClear
| OpClose
| OpResetStats
| OpEvict                 (* the eviction check on its own *)
| OpTick (now : Z)        (* a tick of the cleanup goroutine *)
| OpGo (n : nat).         (* a pending asynchronous delete runs *)

Inductive Res : Type :=
| RErr (e : option error)
| RGet (r : option Value * bool)
| RBool (b : bool)
| RUnit.

Definition step (op : Op) : M Res :=
  match op with
  | OpSet key value ttl now => r <-- Set_ key value ttl now ;; ret (RErr r)
  | OpGet key now => r <-- Get key now ;; ret (RGet r)
  | OpDelete key => r <-- Delete key ;; ret (RBool r)
  | OpClear => Clear ;; ret RUnit
  | OpClose => r <-- Close ;; ret (RErr r)
  | OpResetStats => ResetStats ;; ret RUnit
  | OpEvict => evictIfNeeded ;; ret RUnit
  | OpTick now => cleanupRoutine now ;; ret RUnit
  | OpGo n => runGoroutine n ;; ret RUnit
  end.

(** The states a program can be in between two operations: the run stops at
    the first operation that does not return. *)
Inductive reachable : Cache → Prop :=
| reachable_New cfg c : New cfg = Some c → reachable c
| reachable_step c op r c' :
    reachable c → step op c = Returned r c' → reachable c'.

(** [runs c c']: some operations, each of which returned, lead from [c] to
    [c']. *)
Inductive runs : Cache → Cache → Prop :=
| runs_refl c : runs c c
| runs_step c op r c' c'' :
    step op c = Returned r c' → runs c' c'' → runs c c''.

(** ** Frames *)

(** [frame R m]: whatever the outcome of [m], the state it leaves is related
    to the state it started from. *)
Definition frame (R : Cache → Cache → Prop) {A} (m : M A) : Prop :=
  ∀ c, match m c with
       | Returned _ c' | Blocked c' | Panicked c' => R c c'
       end.

(** The relations the frame rules are used with: preorders that every
    write to a shard, a counter or the list of pending deletes respects. *)
Class FrameRel (R : Cache → Cache → Prop) : Prop := {
  fr_refl : ∀ c, R c c;
  fr_trans : ∀ a b c, R a b → R b c → R a c;
  fr_shards : ∀ c i f, R c (withShards (alter f i) c);
  fr_totalSize : ∀ c f, R c (withTotalSize f c);
  fr_totalHits : ∀ c f, R c (withTotalHits f c);
  fr_totalMiss : ∀ c f, R c (withTotalMiss f c);
  fr_goroutines : ∀ c f, R c (withGoroutines f c)
}.

Definition same_control (c c' : Cache) : Prop :=
  config c' = config c ∧ closed c' = closed c ∧ stopCh c' = stopCh c ∧
  length (shards c') = length (shards c).

(** ** Invariants *)

(** No shard lock is held: no operation is in flight. *)
Definition quiescent (c : Cache) : Prop :=
  Forall (λ s, s_mu s = false) (shards c).

(** The sum of the sizes of the entries of a map, and of the sizes of the
    shards of a cache, as integers; the counters hold them as [int64]. *)
Definition entrySizes (m : gmap string Entry) : Z :=
  map_fold (λ _ e acc, acc + e_size e) 0 m.

Definition shardSizes (l : list Shard) : Z :=
  foldr (λ s acc, s_size s + acc) 0 l.

(** P3: the recency list holds every key of the map once, and an entry is
    filed under its own key. *)
Definition shard_wf (s : Shard) : Prop :=
  NoDup (s_lruList s) ∧
  (∀ k, k ∈ s_lruList s ↔ is_Some (s_data s !! k)) ∧
  (∀ k e, s_data s !! k = Some e → e_key e = k).

(** P1, in [int64] arithmetic. *)
Definition shard_sized (s : Shard) : Prop :=
  s_size s = wrap64 (entrySizes (s_data s)).

Definition shard_inv (s : Shard) : Prop := shard_wf s ∧ shard_sized s.

(** P1 for every shard and P2, in [int64] arithmetic. *)
Definition sizes_consistent (c : Cache) : Prop :=
  Forall shard_sized (shards c) ∧
  totalSize c = wrap64 (shardSizes (shards c)).

Definition cache_inv (c : Cache) : Prop :=
  Forall shard_inv (shards c) ∧
  totalSize c = wrap64 (shardSizes (shards c)).

(** The back of the list points to an entry of the map. *)
Definition back_ok (s : Shard) : Prop :=
  ∀ k, Back (s_lruList s) = Some k → is_Some (s_data s !! k).

(** ** The operations on one shard, in closed form *)

Definition putShard (i : nat) (s : Shard) (c : Cache) : Cache :=
  withShards (<[i:=s]>) c.

Definition evictShard (s : Shard) (entry : Entry) : Shard :=
  {| s_mu := s_mu s;
     s_data := delete (e_key entry) (s_data s);
     s_lruList := RemoveBack (s_lruList s);
     s_size := add64 (s_size s) (neg64 (e_size entry));
     s_hitCount := s_hitCount s;
     s_missCount := s_missCount s |}.

(** The entry at the back of the recency list of a shard. *)
Definition lruVictim (s : Shard) : option Entry :=
  k ← Back (s_lruList s); s_data s !! k.

Definition afterEvict (i : nat) (s : Shard) (c : Cache) : Cache :=
  match lruVictim s with
  | None => c
  | Some entry =>
      withTotalSize (λ t, add64 t (neg64 (e_size entry)))
                    (putShard i (evictShard s entry) c)
  end.

(** The number of shards the check visits. *)
Definition evictCount (cfg : Config) : nat :=
  Z.to_nat (Z.max 1 (ShardCount cfg ÷ 4)).

(** What one visit does to a shard and to the total size. *)
Definition evicted (s : Shard) : Shard :=
  match lruVictim s with
  | Some entry => evictShard s entry
  | None => s
  end.

Definition lessVictim (t : Z) (s : Shard) : Z :=
  match lruVictim s with
  | Some entry => add64 t (neg64 (e_size entry))
  | None => t
  end.

Definition evictRound (i : nat) : M unit :=
  _ <-- shardAt i ;; evictFromShard i 1.

Definition storeEntry (key : string) (value : Value) (expiry : Z) (s : Shard)
  : Shard :=
  let size := calculateSize key value in
  match s_data s !! key with
  | Some existing =>
      withLruList (MoveToFront key)
        (withData (insert key {| e_key := e_key existing; e_value := value;
                                 e_size := size; e_expiry := expiry |})
           (withSize (λ t, add64 t (sub64 size (e_size existing))) s))
  | None =>
      withSize (λ t, add64 t size)
        (withData (insert key {| e_key := key; e_value := value;
                                 e_size := size; e_expiry := expiry |})
           (withLruList (PushFront key) s))
  end.

Definition storeDelta (key : string) (value : Value) (s : Shard) : Z :=
  match s_data s !! key with
  | Some existing => sub64 (calculateSize key value) (e_size existing)
  | None => calculateSize key value
  end.

(** The cache when [Set] calls [evictIfNeeded]: the entry is stored and the
    lock of its shard is held. *)
Definition stored (i : nat) (s : Shard) (key : string) (value : Value)
    (expiry : Z) (c : Cache) : Cache :=
  withTotalSize (λ t, add64 t (storeDelta key value s))
    (putShard i (storeEntry key value expiry (withMu true s)) c).

(** ** The loops over the shards *)

(** The state of the loop of [Clear] after the shards below [j]. *)
Definition clearing (j : nat) (c : Cache) : Prop :=
  Forall shard_inv (shards c) ∧
  ∀ i s, (i < j)%nat → shards c !! i = Some s → s_size s = 0.

(** The state of the loop of [Clear] on the cache [c0] after the shards
    below [j]. *)
Definition cleared_below (c0 : Cache) (j : nat) (c : Cache) : Prop :=
  config c = config c0 ∧ totalSize c = totalSize c0 ∧
  totalHits c = totalHits c0 ∧ totalMiss c = totalMiss c0 ∧
  closed c = closed c0 ∧ stopCh c = stopCh c0 ∧
  goroutines c = goroutines c0 ∧
  length (shards c) = length (shards c0) ∧
  ∀ i s, shards c0 !! i = Some s →
         shards c !! i = Some (if decide (i < j)%nat then clearShard s else s).

(** The state of the loop of [evictIfNeeded] on the cache [c0] after the
    shards below [j]. *)
Definition evicted_below (c0 : Cache) (j : nat) (c : Cache) : Prop :=
  config c = config c0 ∧
  totalHits c = totalHits c0 ∧ totalMiss c = totalMiss c0 ∧
  closed c = closed c0 ∧ stopCh c = stopCh c0 ∧
  goroutines c = goroutines c0 ∧
  length (shards c) = length (shards c0) ∧
  totalSize c = foldl lessVictim (totalSize c0) (take j (shards c0)) ∧
  ∀ i s, shards c0 !! i = Some s →
         shards c !! i = Some (if decide (i < j)%nat then evicted s else s).

(** ** Expiry *)

(** The expiry of the specification: [now + ttl] for a supplied positive
    TTL, else [now + defaultTTL] for a positive default, else [never]. *)
Definition never : Z := 0.

Definition spec_expiry (now : Z) (ttl : option Z) (defaultTTL : Z) : Z :=
  match ttl with
  | Some t =>
      if decide (0 < t) then now + t
      else if decide (0 < defaultTTL) then now + defaultTTL else never
  | None => if decide (0 < defaultTTL) then now + defaultTTL else never
  end.

(** ** Sample caches and runs *)

Inductive Kind : Type := KReturned | KBlocked | KPanicked.

Definition kind {A} (o : Outcome A) : Kind :=
  match o with
  | Returned _ _ => KReturned
  | Blocked _ => KBlocked
  | Panicked _ => KPanicked
  end.

Definition stateOf {A} (o : Outcome A) : Cache :=
  match o with
  | Returned _ c | Blocked c | Panicked c => c
  end.

(** [Set] of each key in turn, with the same value and no TTL. *)
Definition setAll (keys : list string) (value : Value) (now : Z) : M unit :=
  forM_ keys (λ key, _ <-- Set_ key value [] now ;; ret tt).

Definition negativeTTLConfig : Config :=
  {| MaxMemoryBytes := 1024; ShardCount := 4;
     DefaultTTL := -1; CleanupInterval := Second |}.

Definition zeroMemoryConfig : Config :=
  {| MaxMemoryBytes := 0; ShardCount := 4;
     DefaultTTL := 0; CleanupInterval := Second |}.

Definition tinyConfig : Config :=
  {| MaxMemoryBytes := 1; ShardCount := 1;
     DefaultTTL := 0; CleanupInterval := Second |}.

(** A cache of four shards with a budget of 10 bytes. *)
Definition smallConfig : Config :=
  {| MaxMemoryBytes := 10; ShardCount := 4;
     DefaultTTL := 0; CleanupInterval := Second |}.

(** The configuration and the keys of [TestSimpleEviction] in
    [cache_test.go]. *)
Definition simpleEvictionConfig : Config :=
  {| MaxMemoryBytes := 2048; ShardCount := 4;
     DefaultTTL := 0; CleanupInterval := Second |}.

Definition simpleEvictionKeys : list string :=
  ["test_key_0"; "test_key_1"; "test_key_2"; "test_key_3"; "test_key_4";
   "test_key_5"; "test_key_6"].

Definition simpleEvictionValue : Value := VBytes (replicate 300 Byte.x00).

Definition ttlConfig : Config :=
  {| MaxMemoryBytes := 1024 * 1024; ShardCount := 16;
     DefaultTTL := 0; CleanupInterval := 50 * Millisecond |}.

(** An instant in 2026, in nanoseconds since 1970. *)
Definition sampleNow : Z := 1793000000 * Second.

Definition closedDefaultCache : Cache := withClosed 1 true (freshCache DefaultConfig).

Definition sampleEntry : Entry :=
  {| e_key := "a"; e_value := VString "b"; e_size := 66; e_expiry := 0 |}.

Definition sampleShard : Shard :=
  {| s_mu := false; s_data := {["a" := sampleEntry]}; s_lruList := ["a"];
     s_size := 66; s_hitCount := 3; s_missCount := 1 |}.

Definition sampleCache : Cache :=
  {| config := {| MaxMemoryBytes := 10; ShardCount := 4;
                  DefaultTTL := 0; CleanupInterval := Second |};
     shards := [sampleShard; newShard; newShard; newShard];
     totalSize := 66; totalHits := 3; totalMiss := 1;
     closed := 0; stopCh := false; goroutines := [] |}.

Definition afterOneSet : Cache :=
  stateOf (Set_ "test_key_0" (VString "v") [] 0 (freshCache smallConfig)).

Definition afterBasicSet : Cache :=
  stateOf (Set_ "key1" (VString "value1") [] sampleNow (freshCache DefaultConfig)).

Definition afterTTLSet : Cache :=
  stateOf (Set_ "ttl_key" (VString "ttl_value") [100 * Millisecond] sampleNow
             (freshCache ttlConfig)).

(** ** Further vocabulary: removal, sweeps, counters, locks, reports *)

(** A shard without the entry [e] filed under [key]. *)
Definition without (key : string) (e : Entry) (s : Shard) : Shard :=
  withSize (λ t, add64 t (neg64 (e_size e)))
    (withLruList (Remove key) (withData (delete key) s)).

(** What the sweep of [cleanupExpired] at time [now] makes of a shard. *)
Definition swept (now : Z) (s s' : Shard) : Prop :=
  s_data s' = filter (λ kv, isExpired kv.2 now = false) (s_data s) ∧
  s_lruList s' = filter (λ k, k ∉ expiredKeys now (s_data s)) (s_lruList s) ∧
  s_mu s' = false ∧
  s_hitCount s' = s_hitCount s ∧ s_missCount s' = s_missCount s.

(** The state of the loop of [cleanupExpired] on the cache [c0] after the
    shards below [j]. *)
Definition swept_below (c0 : Cache) (now : Z) (j : nat) (c : Cache) : Prop :=
  config c = config c0 ∧
  totalHits c = totalHits c0 ∧ totalMiss c = totalMiss c0 ∧
  closed c = closed c0 ∧ stopCh c = stopCh c0 ∧
  goroutines c = goroutines c0 ∧
  length (shards c) = length (shards c0) ∧
  ∀ i s, shards c0 !! i = Some s →
         ∃ s', shards c !! i = Some s' ∧
               if decide (i < j)%nat then swept now s s' else s' = s.

(** The configuration and the number of shards are the same. *)
Definition same_shape (c c' : Cache) : Prop :=
  config c' = config c ∧ length (shards c') = length (shards c).

(** The hit and miss counters of the cache and of every shard are the
    same. *)
Definition same_counters (c c' : Cache) : Prop :=
  totalHits c' = totalHits c ∧ totalMiss c' = totalMiss c ∧
  s_hitCount <$> shards c' = s_hitCount <$> shards c ∧
  s_missCount <$> shards c' = s_missCount <$> shards c.

(** [m] leaves the counters alone, whatever its outcome. *)
Definition quiet {A} (m : M A) : Prop := frame same_counters m.

Definition shardHits (l : list Shard) : Z :=
  foldr (λ s acc, s_hitCount s + acc) 0 l.

Definition shardMisses (l : list Shard) : Z :=
  foldr (λ s acc, s_missCount s + acc) 0 l.

(** The counters of the cache are the sums of those of the shards, in
    [int64] arithmetic. *)
Definition counters_consistent (c : Cache) : Prop :=
  totalHits c = wrap64 (shardHits (shards c)) ∧
  totalMiss c = wrap64 (shardMisses (shards c)).

(** The locks of the shards, in order. *)
Definition locks (c : Cache) : list bool := s_mu <$> shards c.

(** [m], when it returns, has released every lock it took. *)
Definition balanced {A} (m : M A) : Prop :=
  ∀ c r c', m c = Returned r c' → locks c' = locks c.

(** [m], when it returns, has released the lock of shard [i], which its
    caller took, and every lock it took itself. *)
Definition releases (i : nat) {A} (m : M A) : Prop :=
  ∀ c r c', m c = Returned r c' → locks c' = <[i:=false]> (locks c).

(** The number of entries of the shards, as an integer. *)
Definition entryCount (l : list Shard) : Z :=
  foldr (λ s acc, Z.of_nat (size (s_data s)) + acc) 0 l.

Definition sumZ (l : list Z) : Z := foldr Z.add 0 l.

(** [stats] holds the statistics of the shards [l], one by one. *)
Definition describes (l : list Shard) (stats : list ShardStats) : Prop :=
  length stats = length l ∧
  ∀ i s, l !! i = Some s →
    ∃ usage, formatBytes (s_size s) = Some usage ∧
             stats !! i = Some (shardStats i s usage).

(** The relations that the operations other than [Get] and [ResetStats]
    respect: preorders that are kept by the writes to a shard that satisfy
    [ok], among them the lock, the removal of a key, the recency list, the
    size and the reset of [Clear], and by the writes to the total size and
    to the list of pending deletes. *)
Class GentleRel (ok : (Shard → Shard) → Prop) (R : Cache → Cache → Prop)
  : Prop := {
  gr_refl : ∀ c, R c c;
  gr_trans : ∀ a b c, R a b → R b c → R a c;
  gr_shards : ∀ c i f, ok f → R c (withShards (alter f i) c);
  gr_totalSize : ∀ c f, R c (withTotalSize f c);
  gr_goroutines : ∀ c f, R c (withGoroutines f c);
  gr_closed : ∀ c v stop, R c (withClosed v stop c);
  ok_mu : ∀ b, ok (withMu b);
  ok_delete : ∀ k, ok (withData (delete k));
  ok_lru : ∀ f, ok (withLruList f);
  ok_size : ∀ f, ok (withSize f);
  ok_clear : ok clearShard
}.

(** Every entry of [c'] is an entry of [c], in the same shard and
    unchanged. *)
Definition entries_within (c c' : Cache) : Prop :=
  config c' = config c ∧ length (shards c') = length (shards c) ∧
  ∀ i s', shards c' !! i = Some s' →
    ∃ s, shards c !! i = Some s ∧ s_data s' ⊆ s_data s.

(** Every entry is filed under its own key, carries the size that
    [calculateSize] gives it, and sits in the shard of its key. *)
Definition entries_ok (c : Cache) : Prop :=
  ∀ i s k e, shards c !! i = Some s → s_data s !! k = Some e →
    e_key e = k ∧ e_size e = calculateSize k (e_value e) ∧
    getShard k c = Returned i c.

(** The number of entries of each shard. *)
Definition loadsOf (l : list Shard) : list Z :=
  (λ s, Z.of_nat (size (s_data s))) <$> l.

(** [mx] and [mn] are the largest and the smallest element of [l], or 0 for
    an empty [l]. *)
Definition extremes (l : list Z) (mx mn : Z) : Prop :=
  match l with
  | [] => mx = 0 ∧ mn = 0
  | _ => mx ∈ l ∧ mn ∈ l ∧ ∀ x, x ∈ l → mn <= x <= mx
  end.

(** Caches for the further properties: no shard at all; no cleanup interval;
    one shard holding
    the keys [a] and [b], [b] the more recent; [afterBasicSet] after a
    [Delete] and after a [Get] of its key; the cache that the blocked [Set]
    of [tinyConfig] leaves, shard 0 locked for good; the shard and the entry
    of [afterTTLSet]. *)
Definition zeroShardConfig : Config :=
  {| MaxMemoryBytes := 1024; ShardCount := 0;
     DefaultTTL := 0; CleanupInterval := Second |}.

Definition zeroIntervalConfig : Config :=
  {| MaxMemoryBytes := 1024; ShardCount := 4;
     DefaultTTL := 0; CleanupInterval := 0 |}.

Definition oneShardConfig : Config :=
  {| MaxMemoryBytes := 1024 * 1024; ShardCount := 1;
     DefaultTTL := 0; CleanupInterval := Second |}.

Definition oneKeyCache : Cache :=
  stateOf (Set_ "a" (VString "v") [] 0 (freshCache oneShardConfig)).

Definition twoKeyCache : Cache :=
  stateOf (Set_ "b" (VString "w") [] 0 oneKeyCache).

Definition entryA : Entry :=
  {| e_key := "a"; e_value := VString "v"; e_size := 66; e_expiry := 0 |}.

Definition twoKeyShard : Shard :=
  default newShard (shards twoKeyCache !! 0%nat).

Definition key1Shard : nat := Z.to_nat (hash "key1" mod 1024).

Definition afterDelete : Cache := stateOf (Delete "key1" afterBasicSet).

Definition afterGet : Cache :=
  stateOf (Get "key1" (sampleNow + Minute) afterBasicSet).

Definition deadlockedCache : Cache :=
  stateOf (Set_ "k" (VString "v") [] 0 (freshCache tinyConfig)).

Definition deadlockedShard : Shard :=
  default newShard (shards deadlockedCache !! 0%nat).

Definition ttlShardIndex : nat := Z.to_nat (hash "ttl_key" mod 16).

Definition ttlShard : Shard :=
  default newShard (shards afterTTLSet !! ttlShardIndex).

Definition ttlEntry : Entry :=
  default sampleEntry (s_data ttlShard !! "ttl_key").

(** * Properties *)

(** ** The hash on the test vectors of FNV-1a *)

Example hash_empty : hash "" = 0x811c9dc5.
Proof. reflexivity. Qed.

Example hash_a : hash "a" = 0xe40c292c.
Proof. reflexivity. Qed.

Example hash_foobar : hash "foobar" = 0xbf9cf968.
Proof. reflexivity. Qed.

(** ** Arithmetic of [int64] *)

Lemma wrap64_range z : int64_range (wrap64 z).
Proof.
  unfold int64_range, wrap64.
  pose proof (Z.mod_pos_bound (z + 2 ^ 63) (2 ^ 64)) as H. lia.
Qed.

Lemma wrap64_id z : int64_range z → wrap64 z = z.
Proof.
  unfold int64_range, wrap64. intros H.
  rewrite Z.mod_small by lia. lia.
Qed.

Lemma wrap64_shift z k : wrap64 (z + k * 2 ^ 64) = wrap64 z.
Proof.
  unfold wrap64.
  replace (z + k * 2 ^ 64 + 2 ^ 63) with (z + 2 ^ 63 + k * 2 ^ 64) by ring.
  by rewrite Z_mod_plus_full.
Qed.

Lemma wrap64_decomp z : ∃ k, wrap64 z = z + k * 2 ^ 64.
Proof.
  exists (- ((z + 2 ^ 63) / 2 ^ 64)). unfold wrap64.
  rewrite Z.mod_eq by lia. ring.
Qed.

Lemma wrap64_add_l a b : wrap64 (wrap64 a + b) = wrap64 (a + b).
Proof.
  destruct (wrap64_decomp a) as [k ->].
  replace (a + k * 2 ^ 64 + b) with (a + b + k * 2 ^ 64) by ring.
  apply wrap64_shift.
Qed.

Lemma wrap64_add_r a b : wrap64 (a + wrap64 b) = wrap64 (a + b).
Proof. rewrite (Z.add_comm a), wrap64_add_l. f_equal. ring. Qed.

Lemma wrap64_opp a : wrap64 (- wrap64 a) = wrap64 (- a).
Proof.
  destruct (wrap64_decomp a) as [k ->].
  replace (- (a + k * 2 ^ 64)) with (- a + (- k) * 2 ^ 64) by ring.
  apply wrap64_shift.
Qed.

Lemma add64_neg64 t x : add64 t (neg64 x) = wrap64 (t + - x).
Proof. unfold add64, neg64. by rewrite wrap64_add_r. Qed.

Lemma add64_sub64 t x y : add64 t (sub64 x y) = wrap64 (t + (x - y)).
Proof. unfold add64, sub64. by rewrite wrap64_add_r. Qed.

(** ** Configuration *)

(** C1, as amended.  [Validate] accepts a configuration exactly when
    max_memory_bytes > 0, 1 <= shard_count <= 65536 and cleanup_interval > 0
    hold; otherwise its error is an [ErrInvalidConfig] whose field names a
    violated constraint.  The default TTL is not constrained.  [New] does not
    validate: it builds an open cache with [ShardCount] empty shards for every
    configuration whose shard count is not negative, so in particular for
    every accepted one. *)
Theorem Validate_New_spec (cfg : Config) :
  (Validate cfg = None ↔ config_ok cfg) ∧
  (∀ e, Validate cfg = Some e →
        ∃ f m, e = ErrInvalidConfig f m ∧ field_violated cfg f) ∧
  (0 <= ShardCount cfg → New (Some cfg) = Some (freshCache cfg)).
Proof.
  unfold Validate, config_ok, field_violated, New, freshCache. simpl.
  destruct (Z.leb_spec (MaxMemoryBytes cfg) 0);
    destruct (Z.leb_spec (ShardCount cfg) 0);
    destruct (Z.ltb_spec 65536 (ShardCount cfg));
    destruct (Z.leb_spec (CleanupInterval cfg) 0);
    destruct (Z.ltb_spec (ShardCount cfg) 0);
    (split; [split; [intros; discriminate || lia | intros; reflexivity || lia]|]);
    (split; [intros e He; simplify_eq; try (do 2 eexists; split; [reflexivity|])
            | intros; reflexivity || lia]);
    try (left; split; [reflexivity | lia]);
    try (right; left; split; [reflexivity | lia]);
    try (right; right; split; [reflexivity | lia]).
Qed.

Lemma Validate_New_spec_witness :
  Validate DefaultConfig = None ∧
  New (Some DefaultConfig) = Some (freshCache DefaultConfig).
Proof.
  pose proof (Validate_New_spec DefaultConfig) as (Hv & _ & Hn).
  split.
  - apply Hv. unfold config_ok. repeat split; by vm_compute.
  - apply Hn. by vm_compute.
Defined.

(** C1 as stated fails at two concrete configurations: one with no memory
    budget is not rejected at construction, and a negative default TTL is not
    rejected even by [Validate]. *)
Lemma construction_accepts_invalid :
  ¬ spec_config_ok zeroMemoryConfig ∧
  New (Some zeroMemoryConfig) = Some (freshCache zeroMemoryConfig) ∧
  ¬ spec_config_ok negativeTTLConfig ∧
  Validate negativeTTLConfig = None ∧
  New (Some negativeTTLConfig) = Some (freshCache negativeTTLConfig).
Proof.
  unfold spec_config_ok. simpl. repeat split; try reflexivity; lia.
Qed.

(** ** Frame rules *)

Section Frame.
Context (R : Cache → Cache → Prop) `{!FrameRel R}.

Lemma frame_ret {A} (a : A) : frame R (ret a).
Proof. intros c. apply fr_refl. Qed.

Lemma frame_panic {A} : frame R (@panic A).
Proof. intros c. apply fr_refl. Qed.

Lemma frame_block {A} : frame R (@block A).
Proof. intros c. apply fr_refl. Qed.

Lemma frame_shardAt i : frame R (shardAt i).
Proof. intros c. unfold shardAt. destruct (shards c !! i); apply fr_refl. Qed.

Lemma frame_bind {A B} (m : M A) (k : A → M B) :
  frame R m → (∀ a, frame R (k a)) → frame R (bind m k).
Proof.
  intros Hm Hk c. unfold bind. specialize (Hm c).
  destruct (m c) as [a c'| |]; try done.
  specialize (Hk a c'). destruct (k a c'); eapply fr_trans; eauto.
Qed.

Lemma frame_defer {A} (cleanup : M unit) (body : M A) :
  frame R cleanup → frame R body → frame R (defer cleanup body).
Proof.
  intros Hc Hb c. unfold defer. specialize (Hb c).
  destruct (body c) as [a c'|c'|c']; try done.
  - pose proof (frame_bind cleanup (λ _, ret a) Hc (λ _, frame_ret a) c') as H.
    destruct (bind cleanup _ c'); eapply fr_trans; eauto.
  - specialize (Hc c'). destruct (cleanup c'); eapply fr_trans; eauto.
Qed.

Lemma frame_forM_ {A} (l : list A) (f : A → M unit) :
  (∀ a, frame R (f a)) → frame R (forM_ l f).
Proof.
  intros Hf. induction l as [|a l IH]; simpl.
  - apply frame_ret.
  - apply frame_bind; auto.
Qed.

Lemma frame_updShard i f : frame R (updShard i f).
Proof. intros c. apply fr_shards. Qed.

Lemma frame_totalSize f : frame R (modify (withTotalSize f)).
Proof. intros c. apply fr_totalSize. Qed.

Lemma frame_totalHits f : frame R (modify (withTotalHits f)).
Proof. intros c. apply fr_totalHits. Qed.

Lemma frame_totalMiss f : frame R (modify (withTotalMiss f)).
Proof. intros c. apply fr_totalMiss. Qed.

Lemma frame_goroutines f : frame R (modify (withGoroutines f)).
Proof. intros c. apply fr_goroutines. Qed.

Lemma frame_Lock i : frame R (Lock i).
Proof.
  apply frame_bind; [apply frame_shardAt|]. intros s.
  destruct (s_mu s); [apply frame_block | apply frame_updShard].
Qed.

Lemma frame_Unlock i : frame R (Unlock i).
Proof. apply frame_updShard. Qed.

Lemma frame_RLock i : frame R (RLock i).
Proof.
  apply frame_bind; [apply frame_shardAt|]. intros s.
  destruct (s_mu s); [apply frame_block | apply frame_ret].
Qed.

Lemma frame_getShard key : frame R (getShard key).
Proof.
  intros c. unfold getShard.
  destruct (_ =? 0); [apply fr_refl|].
  destruct (shards c !! _); apply fr_refl.
Qed.

(** One rule per syntactic form; the first four are tried before a
    compound definition is opened by [frame_bind]. *)
Ltac frame_step :=
  first
    [ apply frame_Lock | apply frame_Unlock | apply frame_RLock
    | apply frame_getShard | apply frame_shardAt | apply frame_updShard
    | apply frame_totalSize | apply frame_totalHits | apply frame_totalMiss
    | apply frame_goroutines
    | apply frame_ret | apply frame_panic | apply frame_block
    | apply frame_defer
    | apply frame_forM_; intros ?
    | apply frame_bind; [|intros ?]
    | match goal with
      | |- frame _ (match ?x with _ => _ end) => destruct x
      | |- frame _ (if ?x then _ else _) => destruct x
      end ].

Lemma frame_evictLoop i count : frame R (evictLoop i count).
Proof.
  induction count; simpl; [apply frame_ret|].
  repeat frame_step; exact IHcount.
Qed.

Lemma frame_evictFromShard i count : frame R (evictFromShard i count).
Proof.
  unfold evictFromShard.
  apply frame_bind; [apply frame_Lock|]. intros _.
  apply frame_defer; [apply frame_Unlock | apply frame_evictLoop].
Qed.

Lemma frame_evictIfNeeded : frame R evictIfNeeded.
Proof.
  intros c. unfold evictIfNeeded.
  destruct (_ <=? _); [apply fr_refl|].
  generalize (seq 0 (Z.to_nat (if ShardCount (config c) ÷ 4 <? 1 then 1
                               else ShardCount (config c) ÷ 4))).
  intros l. revert c.
  apply frame_forM_. intros i.
  apply frame_bind; [apply frame_shardAt|]. intros _.
  apply frame_evictFromShard.
Qed.

Lemma frame_Set key value ttl now : frame R (Set_ key value ttl now).
Proof.
  intros c. unfold Set_.
  destruct (_ =? _); [apply fr_refl|].
  generalize (expiryFor (config c) ttl now). intros expiry. revert c.
  apply frame_bind; [apply frame_getShard|]. intros i.
  apply frame_bind; [apply frame_Lock|]. intros _.
  apply frame_defer; [apply frame_Unlock|].
  apply frame_bind; [apply frame_shardAt|]. intros s.
  destruct (s_data s !! key).
  - do 4 (apply frame_bind; [frame_step|intros _]).
    apply frame_bind; [apply frame_evictIfNeeded|]. intros _. apply frame_ret.
  - do 4 (apply frame_bind; [frame_step|intros _]).
    apply frame_bind; [apply frame_evictIfNeeded|]. intros _. apply frame_ret.
Qed.

Lemma frame_Get key now : frame R (Get key now).
Proof.
  intros c. unfold Get, RUnlock.
  destruct (_ =? _); [apply fr_refl|]. revert c.
  repeat frame_step.
Qed.

Lemma frame_removeEntry i key entry : frame R (removeEntry i key entry).
Proof. unfold removeEntry. repeat frame_step. Qed.

Lemma frame_Delete key : frame R (Delete key).
Proof.
  intros c. unfold Delete.
  destruct (_ =? _); [apply fr_refl|]. revert c.
  apply frame_bind; [apply frame_getShard|]. intros i.
  apply frame_bind; [apply frame_Lock|]. intros _.
  apply frame_defer; [apply frame_Unlock|].
  apply frame_bind; [apply frame_shardAt|]. intros s.
  destruct (s_data s !! key).
  - apply frame_bind; [apply frame_removeEntry|]. intros _. apply frame_ret.
  - apply frame_ret.
Qed.

Lemma frame_cleanupShard now i : frame R (cleanupShard now i).
Proof.
  unfold cleanupShard.
  apply frame_bind; [apply frame_Lock|]. intros _.
  apply frame_bind; [apply frame_shardAt|]. intros s.
  apply frame_bind; [|intros _; apply frame_Unlock].
  apply frame_forM_. intros key.
  apply frame_bind; [apply frame_shardAt|]. intros s'.
  destruct (s_data s' !! key); [apply frame_removeEntry | apply frame_panic].
Qed.

Lemma frame_cleanupExpired now : frame R (cleanupExpired now).
Proof.
  intros c. unfold cleanupExpired.
  generalize (seq 0 (length (shards c))). intros l. revert c.
  apply frame_forM_. intros i. apply frame_cleanupShard.
Qed.

Lemma frame_cleanupRoutine now : frame R (cleanupRoutine now).
Proof.
  intros c. unfold cleanupRoutine.
  destruct (_ <=? _); [apply fr_refl|].
  destruct (stopCh c); [apply fr_refl|].
  apply frame_cleanupExpired.
Qed.

Lemma frame_runGoroutine n : frame R (runGoroutine n).
Proof.
  intros c. unfold runGoroutine.
  destruct (goroutines c !! n) as [key|]; [|apply fr_refl]. revert c.
  apply frame_bind; [apply frame_goroutines|]. intros _.
  apply frame_bind; [apply frame_Delete|]. intros _. apply frame_ret.
Qed.

Lemma frame_Clear : frame R Clear.
Proof.
  intros c. unfold Clear.
  generalize (seq 0 (length (shards c))). intros l. revert c.
  apply frame_bind; [|intros _; apply frame_totalSize].
  apply frame_forM_. intros i.
  apply frame_bind; [apply frame_Lock|]. intros _.
  apply frame_bind; [apply frame_updShard|]. intros _. apply frame_Unlock.
Qed.
End Frame.

#[export] Instance same_control_frame : FrameRel same_control.
Proof.
  split; unfold same_control; simpl; intros; try done.
  - destruct H as (?&?&?&?), H0 as (?&?&?&?). repeat split; congruence.
  - by rewrite length_alter.
Qed.


(** ** The closed flag *)



(** C10.  On a closed cache [Set], [Get] and [Delete] return at once
    ([ErrCacheClosed], a miss, [false]) and the cache they leave is the cache
    they found: no entry, size, hit or miss counter changes, and [Get]
    schedules no delete. *)
Theorem closed_operations_inert c key value ttl now :
  closed c = 1 →
  Set_ key value ttl now c = Returned (Some ErrCacheClosed) c ∧
  Get key now c = Returned (None, false) c ∧
  Delete key c = Returned false c.
Proof. intros H. unfold Set_, Get, Delete. by rewrite H. Qed.

Lemma closed_operations_inert_witness :
  Set_ "key" (VString "value") [] 0 closedDefaultCache
    = Returned (Some ErrCacheClosed) closedDefaultCache ∧
  Get "key" 0 closedDefaultCache = Returned (None, false) closedDefaultCache ∧
  Delete "key" closedDefaultCache = Returned false closedDefaultCache.
Proof. apply (closed_operations_inert closedDefaultCache). reflexivity. Defined.



(** ** Running the primitives on a known shard *)

Lemma alter_known {A} (f : A → A) (i : nat) (l : list A) x :
  l !! i = Some x → alter f i l = <[i:=f x]> l.
Proof.
  intros H. apply list_eq. intros j.
  destruct (decide (i = j)) as [->|Hne].
  - rewrite list_lookup_alter_eq, H.
    by rewrite list_lookup_insert_eq by (by eapply lookup_lt_Some).
  - by rewrite list_lookup_alter_ne, list_lookup_insert_ne.
Qed.

Lemma alter_insert_known {A} (f : A → A) (i : nat) (l : list A) x :
  (i < length l)%nat → alter f i (<[i:=x]> l) = <[i:=f x]> l.
Proof.
  intros H. rewrite (alter_known f i _ x).
  - apply list_insert_insert_eq.
  - by apply list_lookup_insert_eq.
Qed.

Lemma putShard_id c i s : shards c !! i = Some s → putShard i s c = c.
Proof.
  intros H. unfold putShard, withShards.
  rewrite list_insert_id by done. by destruct c.
Qed.

Lemma shardAt_Some c i s : shards c !! i = Some s → shardAt i c = Returned s c.
Proof. intros H. unfold shardAt. by rewrite H. Qed.

Lemma Lock_free c i s :
  shards c !! i = Some s → s_mu s = false →
  Lock i c = Returned tt (putShard i (withMu true s) c).
Proof.
  intros H Hmu. unfold Lock, bind, shardAt. rewrite H, Hmu.
  unfold updShard, modify, putShard, withShards.
  by rewrite (alter_known _ _ _ s).
Qed.

Lemma Lock_held c i s :
  shards c !! i = Some s → s_mu s = true → Lock i c = Blocked c.
Proof. intros H Hmu. unfold Lock, bind, shardAt. by rewrite H, Hmu. Qed.

Lemma updShard_known c i f s :
  shards c !! i = Some s → updShard i f c = Returned tt (putShard i (f s) c).
Proof.
  intros H. unfold updShard, modify, putShard, withShards.
  by rewrite (alter_known _ _ _ s).
Qed.

Lemma putShard_lookup c i s :
  (i < length (shards c))%nat → shards (putShard i s c) !! i = Some s.
Proof. intros H. simpl. by apply list_lookup_insert_eq. Qed.

Lemma putShard_putShard c i s s' :
  putShard i s (putShard i s' c) = putShard i s c.
Proof. unfold putShard, withShards. simpl. by rewrite list_insert_insert_eq. Qed.

Lemma evictFromShard_free c i s :
  shards c !! i = Some s → s_mu s = false → back_ok s →
  evictFromShard i 1 c = Returned tt (afterEvict i s c).
Proof.
  intros H Hmu Hback.
  assert (Hlen : (i < length (shards c))%nat) by (by eapply lookup_lt_Some).
  unfold evictFromShard, bind. rewrite (Lock_free c i s) by done.
  unfold defer, evictLoop, bind.
  rewrite (shardAt_Some _ i (withMu true s)) by (by apply putShard_lookup).
  unfold afterEvict, lruVictim. simpl.
  destruct (Back (s_lruList s)) as [k|] eqn:Hk; simpl.
  - destruct (Hback k Hk) as [e He]. rewrite He.
    unfold Unlock, updShard, modify, ret, putShard, withShards, withTotalSize.
    simpl. do 2 f_equal.
    rewrite !alter_insert_known by (by rewrite ?length_insert).
    f_equal. unfold evictShard. destruct s; simpl in *; by subst.
  - unfold Unlock, updShard, modify, ret, putShard, withShards. simpl.
    rewrite alter_insert_known by done. f_equal.
    rewrite list_insert_id; [by destruct c|].
    rewrite H. f_equal. destruct s; simpl in *; by subst.
Qed.

Lemma evictFromShard_held c i s :
  shards c !! i = Some s → s_mu s = true → evictFromShard i 1 c = Blocked c.
Proof.
  intros H Hmu. unfold evictFromShard, bind. by rewrite (Lock_held c i s).
Qed.

(** ** Shard invariants *)

Lemma entrySizes_empty : entrySizes ∅ = 0.
Proof. apply map_fold_empty. Qed.

Lemma entrySizes_insert_new m k e :
  m !! k = None → entrySizes (<[k:=e]> m) = entrySizes m + e_size e.
Proof.
  intros H. unfold entrySizes.
  rewrite map_fold_insert_L; [done| |done]. intros. lia.
Qed.

Lemma entrySizes_delete m k e :
  m !! k = Some e → entrySizes (delete k m) = entrySizes m - e_size e.
Proof.
  intros H. unfold entrySizes.
  rewrite (map_fold_delete_L _ _ k e m); [lia| |done]. intros. lia.
Qed.

Lemma entrySizes_insert_existing m k old e :
  m !! k = Some old →
  entrySizes (<[k:=e]> m) = entrySizes m - e_size old + e_size e.
Proof.
  intros H. rewrite <- insert_delete_eq.
  rewrite entrySizes_insert_new by apply lookup_delete_eq.
  by rewrite (entrySizes_delete m k old).
Qed.

Lemma shardSizes_insert (l : list Shard) (i : nat) s s' :
  l !! i = Some s →
  shardSizes (<[i:=s']> l) = shardSizes l - s_size s + s_size s'.
Proof.
  revert i. induction l as [|x l IH]; intros [|i] H; simpl in *; try done.
  - simplify_eq. lia.
  - rewrite (IH i) by done. lia.
Qed.

(** *** The recency list *)

Lemma Remove_elem_of k l x : x ∈ Remove k l ↔ x ≠ k ∧ x ∈ l.
Proof. unfold Remove. by rewrite list_elem_of_filter. Qed.

Lemma Remove_NoDup k l : NoDup l → NoDup (Remove k l).
Proof. unfold Remove. apply NoDup_filter. Qed.

Lemma Remove_not_in k l : k ∉ l → Remove k l = l.
Proof.
  unfold Remove. induction l as [|x l IH]; [done|].
  rewrite not_elem_of_cons. intros [Hne Hl].
  rewrite filter_cons. rewrite decide_True by done. by rewrite IH.
Qed.

Lemma Remove_last k l : NoDup (l ++ [k]) → Remove k (l ++ [k]) = l.
Proof.
  rewrite NoDup_app. intros (_ & Hdisj & _).
  unfold Remove. rewrite filter_app. simpl.
  rewrite filter_cons, decide_False by (intros H; by apply H).
  rewrite filter_nil, app_nil_r.
  apply (Remove_not_in k l). intros Hin. apply (Hdisj k Hin).
  by apply list_elem_of_singleton.
Qed.

(** Under [NoDup] the removal of the back element is the removal of its
    key. *)
Lemma RemoveBack_Remove l k :
  NoDup l → Back l = Some k → RemoveBack l = Remove k l.
Proof.
  unfold Back, RemoveBack. intros Hnd Hlast.
  apply last_Some in Hlast as [l' ->].
  by rewrite removelast_last, Remove_last.
Qed.

Lemma MoveToFront_elem_of k l x : x ∈ MoveToFront k l ↔ x ∈ l.
Proof.
  unfold MoveToFront. case_decide; [|done].
  rewrite elem_of_cons, Remove_elem_of.
  destruct (decide (x = k)) as [->|]; naive_solver.
Qed.

Lemma MoveToFront_NoDup k l : NoDup l → NoDup (MoveToFront k l).
Proof.
  intros H. unfold MoveToFront. case_decide; [|done].
  apply NoDup_cons. split; [|by apply Remove_NoDup].
  rewrite Remove_elem_of. naive_solver.
Qed.

(** *** The ways a shard changes *)

Lemma shard_inv_insert_new s key e :
  shard_inv s → s_data s !! key = None → e_key e = key →
  shard_inv (withSize (λ t, add64 t (e_size e))
              (withData (insert key e) (withLruList (PushFront key) s))).
Proof.
  intros [(Hnd & Hmem & Hkey) Hsz] Hnone Hk.
  split; [split; [|split]|]; simpl.
  - apply NoDup_cons. split; [|done].
    rewrite Hmem, Hnone. by intros [? ?].
  - intros k. unfold PushFront. rewrite elem_of_cons, Hmem.
    destruct (decide (k = key)) as [->|Hne].
    + rewrite lookup_insert_eq. naive_solver.
    + rewrite lookup_insert_ne by done. naive_solver.
  - intros k e'. destruct (decide (k = key)) as [->|Hne].
    + rewrite lookup_insert_eq. naive_solver.
    + rewrite lookup_insert_ne by done. apply Hkey.
  - unfold shard_sized in *. simpl.
    rewrite entrySizes_insert_new by done.
    rewrite Hsz. unfold add64. by rewrite wrap64_add_l.
Qed.

Lemma shard_inv_update s key old e :
  shard_inv s → s_data s !! key = Some old → e_key e = e_key old →
  shard_inv (withLruList (MoveToFront key)
              (withData (insert key e)
                (withSize (λ t, add64 t (sub64 (e_size e) (e_size old))) s))).
Proof.
  intros [(Hnd & Hmem & Hkey) Hsz] Hold Hk.
  split; [split; [|split]|]; simpl.
  - by apply MoveToFront_NoDup.
  - intros k. rewrite MoveToFront_elem_of, Hmem.
    destruct (decide (k = key)) as [->|Hne].
    + rewrite lookup_insert_eq, Hold. naive_solver.
    + by rewrite lookup_insert_ne.
  - intros k e'. destruct (decide (k = key)) as [->|Hne].
    + rewrite lookup_insert_eq. intros ?; simplify_eq. rewrite Hk. by apply Hkey.
    + rewrite lookup_insert_ne by done. apply Hkey.
  - unfold shard_sized in *. simpl.
    rewrite (entrySizes_insert_existing _ _ old) by done.
    rewrite Hsz, add64_sub64, wrap64_add_l. f_equal; lia.
Qed.

Lemma shard_inv_remove s key e :
  shard_inv s → s_data s !! key = Some e →
  shard_inv (withSize (λ t, add64 t (neg64 (e_size e)))
              (withLruList (Remove key) (withData (delete key) s))).
Proof.
  intros [(Hnd & Hmem & Hkey) Hsz] He.
  split; [split; [|split]|]; simpl.
  - by apply Remove_NoDup.
  - intros k. rewrite Remove_elem_of, Hmem.
    destruct (decide (k = key)) as [->|Hne].
    + rewrite lookup_delete_eq. split; [naive_solver|]. by intros [? ?].
    + rewrite lookup_delete_ne by done. naive_solver.
  - intros k e'. rewrite lookup_delete_Some. intros [_ ?]. by apply Hkey.
  - unfold shard_sized in *. simpl.
    rewrite (entrySizes_delete _ _ e) by done.
    rewrite Hsz, add64_neg64, wrap64_add_l. f_equal; lia.
Qed.

Lemma shard_inv_touch s key :
  shard_inv s → shard_inv (withLruList (MoveToFront key) s).
Proof.
  intros [(Hnd & Hmem & Hkey) Hsz].
  split; [split; [|split]|]; simpl; try done.
  - by apply MoveToFront_NoDup.
  - intros k. by rewrite MoveToFront_elem_of.
Qed.

Lemma shard_wf_back_ok s : shard_wf s → back_ok s.
Proof.
  intros (_ & Hmem & _) k Hk. apply Hmem.
  unfold Back in Hk. by eapply last_Some_elem_of.
Qed.

Lemma evictShard_remove s k e :
  shard_wf s → Back (s_lruList s) = Some k → s_data s !! k = Some e →
  evictShard s e =
  withSize (λ t, add64 t (neg64 (e_size e)))
    (withLruList (Remove k) (withData (delete k) s)).
Proof.
  intros (Hnd & _ & Hkey) Hk He. unfold evictShard, withSize, withLruList, withData.
  simpl. rewrite (Hkey k e He). by rewrite (RemoveBack_Remove _ k).
Qed.

Lemma shard_inv_evict s e :
  shard_inv s → lruVictim s = Some e → shard_inv (evictShard s e).
Proof.
  intros Hinv Hv. unfold lruVictim in Hv.
  destruct (Back (s_lruList s)) as [k|] eqn:Hk; simpl in Hv; [|done].
  rewrite (evictShard_remove s k e); [|apply Hinv|done|done].
  by apply shard_inv_remove.
Qed.

Lemma shard_inv_newShard : shard_inv newShard.
Proof.
  split; [split; [|split]|]; simpl.
  - apply NoDup_nil_2.
  - intros k. rewrite elem_of_nil, lookup_empty. split; [done|by intros [? ?]].
  - intros k e. by rewrite lookup_empty.
  - unfold shard_sized. simpl. by rewrite entrySizes_empty.
Qed.

Lemma shard_inv_clearShard s : shard_inv (clearShard s).
Proof.
  split; [split; [|split]|]; simpl.
  - apply NoDup_nil_2.
  - intros k. rewrite elem_of_nil, lookup_empty. split; [done|by intros [? ?]].
  - intros k e. by rewrite lookup_empty.
  - unfold shard_sized. simpl. by rewrite entrySizes_empty.
Qed.

(** ** What a call that returned went through *)

Lemma bind_Returned {A B} (m : M A) (k : A → M B) c b c'' :
  bind m k c = Returned b c'' →
  ∃ a c', m c = Returned a c' ∧ k a c' = Returned b c''.
Proof. unfold bind. destruct (m c) as [a c'| |]; [eauto|done|done]. Qed.

Lemma defer_Returned {A} (cleanup : M unit) (body : M A) c a c'' :
  defer cleanup body c = Returned a c'' →
  ∃ c', body c = Returned a c' ∧ cleanup c' = Returned tt c''.
Proof.
  unfold defer. destruct (body c) as [a' c'|c'|c']; [|done|].
  - unfold bind, ret. destruct (cleanup c') as [[] c1| |] eqn:Hc; [|done|done].
    intros ?; simplify_eq. eauto.
  - by destruct (cleanup c').
Qed.

Lemma shardAt_Returned i c s c' :
  shardAt i c = Returned s c' → c' = c ∧ shards c !! i = Some s.
Proof.
  unfold shardAt. destruct (shards c !! i); [|done]. by intros ?; simplify_eq.
Qed.

Lemma Lock_Returned i c c' :
  Lock i c = Returned tt c' →
  ∃ s, shards c !! i = Some s ∧ s_mu s = false ∧
       c' = putShard i (withMu true s) c.
Proof.
  unfold Lock. intros H. apply bind_Returned in H as (s & c1 & Hs & H).
  apply shardAt_Returned in Hs as [-> Hs].
  destruct (s_mu s) eqn:Hmu; [done|].
  rewrite (updShard_known c i _ s) in H by done. simplify_eq. eauto.
Qed.

Lemma getShard_Returned key c i c' :
  getShard key c = Returned i c' → c' = c ∧ is_Some (shards c !! i).
Proof.
  unfold getShard. destruct (_ =? 0); [done|].
  destruct (shards c !! _) eqn:H; [|done]. intros ?; simplify_eq. eauto.
Qed.

(** A loop over consecutive indices that returned kept a property indexed by
    the position it had reached. *)
Lemma forM_seq_Returned (P : nat → Cache → Prop) (f : nat → M unit) :
  (∀ i c c', P i c → f i c = Returned tt c' → P (S i) c') →
  ∀ k a c c', P a c → forM_ (seq a k) f c = Returned tt c' → P (a + k)%nat c'.
Proof.
  intros Hf. induction k as [|k IH]; intros a c c' HP H; simpl in H.
  - unfold ret in H. simplify_eq. by rewrite Nat.add_0_r.
  - apply bind_Returned in H as ([] & c1 & H1 & H2).
    replace (a + S k)%nat with (S a + k)%nat by lia. eauto.
Qed.

Lemma forM_Returned {A} (P : Cache → Prop) (l : list A) (f : A → M unit) :
  (∀ a c c', P c → f a c = Returned tt c' → P c') →
  ∀ c c', P c → forM_ l f c = Returned tt c' → P c'.
Proof.
  intros Hf. induction l as [|a l IH]; intros c c' HP H; simpl in H.
  - unfold ret in H. by simplify_eq.
  - apply bind_Returned in H as ([] & c1 & H1 & H2). eauto.
Qed.

(** A loop over consecutive indices returns when each round does. *)
Lemma forM_seq_returns (P : nat → Cache → Prop) (f : nat → M unit) k a :
  (∀ i c, (a ≤ i < a + k)%nat → P i c →
          ∃ c', f i c = Returned tt c' ∧ P (S i) c') →
  ∀ c, P a c → ∃ c', forM_ (seq a k) f c = Returned tt c' ∧ P (a + k)%nat c'.
Proof.
  revert a. induction k as [|k IH]; intros a Hf c HP; simpl.
  - exists c. by rewrite Nat.add_0_r.
  - destruct (Hf a c) as (c1 & H1 & HP1); [lia|done|].
    destruct (IH (S a)) with (c := c1) as (c' & H' & HP'); [|done|].
    + intros i c2 Hi. apply Hf. lia.
    + exists c'. unfold bind. rewrite H1.
      by replace (a + S k)%nat with (S a + k)%nat by lia.
Qed.

(** ** The invariant through every operation *)

Lemma cache_inv_alter c i f s d :
  cache_inv c → shards c !! i = Some s →
  shard_inv (f s) → s_size (f s) = add64 (s_size s) d →
  cache_inv (withTotalSize (λ t, add64 t d) (withShards (alter f i) c)).
Proof.
  intros [Hall Htot] Hs Hinv Hsz. split; simpl.
  - rewrite (alter_known f i _ s) by done.
    by apply Forall_insert.
  - rewrite (alter_known f i _ s) by done.
    rewrite (shardSizes_insert _ _ s) by done.
    rewrite Htot, Hsz. unfold add64.
    rewrite wrap64_add_l.
    rewrite wrap64_add_r. f_equal. lia.
Qed.

Lemma cache_inv_alter_same c i f :
  cache_inv c →
  (∀ s, shard_inv s → shard_inv (f s) ∧ s_size (f s) = s_size s) →
  cache_inv (withShards (alter f i) c).
Proof.
  intros [Hall Htot] Hf.
  destruct (shards c !! i) as [s|] eqn:Hs.
  - destruct (Hf s) as [Hinv Hsz]; [by eapply Forall_lookup_1|].
    split; simpl; rewrite (alter_known f i _ s) by done.
    + by apply Forall_insert.
    + rewrite (shardSizes_insert _ _ s) by done. rewrite Htot. f_equal. lia.
  - assert (alter f i (shards c) = shards c) as Heq.
    { apply list_eq. intros j. destruct (decide (i = j)) as [->|].
      - by rewrite list_lookup_alter_eq, Hs.
      - by rewrite list_lookup_alter_ne. }
    split; simpl; by rewrite Heq.
Qed.

Lemma shard_inv_withMu s b : shard_inv s → shard_inv (withMu b s).
Proof. by intros [? ?]. Qed.

Lemma cache_inv_putShard_mu c i s b :
  cache_inv c → shards c !! i = Some s → cache_inv (putShard i (withMu b s) c).
Proof.
  intros Hinv Hs. unfold putShard.
  replace (withShards <[i:=withMu b s]> c) with (withShards (alter (withMu b) i) c).
  - apply cache_inv_alter_same; [done|]. intros s' Hs'. split; [|done].
    by apply shard_inv_withMu.
  - unfold withShards. by rewrite (alter_known _ _ _ s).
Qed.

Lemma cache_inv_Unlock i c c' :
  cache_inv c → Unlock i c = Returned tt c' → cache_inv c'.
Proof.
  intros Hinv H. unfold Unlock, updShard, modify in H. simplify_eq.
  apply cache_inv_alter_same; [done|]. intros s Hs. split; [|done].
  by apply shard_inv_withMu.
Qed.

Lemma cache_inv_afterEvict c i s :
  cache_inv c → shards c !! i = Some s → cache_inv (afterEvict i s c).
Proof.
  intros Hinv Hs. unfold afterEvict.
  destruct (lruVictim s) as [e|] eqn:Hv; [|done].
  pose proof (cache_inv_alter c i (λ _, evictShard s e) s (neg64 (e_size e))
                Hinv Hs) as H.
  unfold putShard. unfold withShards in *. simpl in *.
  rewrite (alter_known _ _ _ s) in H by done. apply H; [|done].
  apply shard_inv_evict; [|done]. destruct Hinv as [Hall _].
  by eapply Forall_lookup_1.
Qed.

Lemma cache_inv_evictIfNeeded c c' :
  cache_inv c → evictIfNeeded c = Returned tt c' → cache_inv c'.
Proof.
  intros Hinv. unfold evictIfNeeded.
  destruct (_ <=? _); [by intros ?; simplify_eq|].
  apply forM_Returned; [|done]. clear. intros i c c' Hinv H.
  apply bind_Returned in H as (s & c1 & Hs & H).
  apply shardAt_Returned in Hs as [-> Hs].
  destruct (s_mu s) eqn:Hmu.
  - by rewrite (evictFromShard_held c i s) in H.
  - rewrite (evictFromShard_free c i s) in H; [| done | done |].
    + simplify_eq. by apply cache_inv_afterEvict.
    + apply shard_wf_back_ok. destruct Hinv as [Hall _].
      by destruct (Forall_lookup_1 _ _ _ _ Hall Hs).
Qed.

Lemma cache_inv_fields c c' :
  shards c' = shards c → totalSize c' = totalSize c →
  cache_inv c → cache_inv c'.
Proof. unfold cache_inv. by intros -> ->. Qed.

Lemma cache_inv_alter3 c c' i s f1 f2 f3 d :
  cache_inv c → shards c !! i = Some s →
  shard_inv (f3 (f2 (f1 s))) →
  s_size (f3 (f2 (f1 s))) = add64 (s_size s) d →
  shards c' = alter f3 i (alter f2 i (alter f1 i (shards c))) →
  totalSize c' = add64 (totalSize c) d →
  cache_inv c'.
Proof.
  intros Hinv Hs Hsh Hsz Hshards Htot.
  apply (cache_inv_fields
           (withTotalSize (λ t, add64 t d)
              (withShards (alter (f3 ∘ f2 ∘ f1) i) c))).
  - simpl. by rewrite Hshards, !list_alter_alter_eq.
  - done.
  - by apply (cache_inv_alter c i _ s).
Qed.

(** Inversion of one step of a straight-line block. *)
Ltac step_in H :=
  let Hs := fresh "Hstep" in
  apply bind_Returned in H as ([] & ? & Hs & H);
  unfold updShard, modify in Hs; injection Hs as <-.

Lemma cache_inv_Set key value ttl now c r c' :
  cache_inv c → Set_ key value ttl now c = Returned r c' → cache_inv c'.
Proof.
  intros Hinv. unfold Set_.
  destruct (closed c =? 1); [by intros ?; simplify_eq|]. intros H.
  apply bind_Returned in H as (i & c1 & Hi & H).
  apply getShard_Returned in Hi as [-> _].
  apply bind_Returned in H as ([] & c2 & HL & H).
  apply Lock_Returned in HL as (s & Hs & Hmu & ->).
  apply defer_Returned in H as (c3 & Hbody & HU).
  eapply cache_inv_Unlock; [|exact HU].
  assert (Hlen : (i < length (shards c))%nat) by (by eapply lookup_lt_Some).
  apply bind_Returned in Hbody as (s1 & c4 & Hs1 & Hbody).
  apply shardAt_Returned in Hs1 as [-> Hs1].
  pose proof (cache_inv_putShard_mu c i s true Hinv Hs) as Hinv2.
  assert (Hs_inv : shard_inv (withMu true s)).
  { destruct Hinv2 as [Hall _].
    eapply Forall_lookup_1; [exact Hall | by apply (putShard_lookup c i)]. }
  rewrite putShard_lookup in Hs1 by done. simplify_eq. simpl in Hbody.
  destruct (s_data s !! key) as [existing|] eqn:Hex.
  - do 4 step_in Hbody.
    apply bind_Returned in Hbody as ([] & c5 & Hev & Hbody).
    unfold ret in Hbody. simplify_eq.
    eapply cache_inv_evictIfNeeded; [|exact Hev].
    eapply (cache_inv_alter3 _ _ i (withMu true s));
      [exact Hinv2 | by apply putShard_lookup | ..].
    3: reflexivity. 3: reflexivity.
    + by apply (shard_inv_update (withMu true s) key existing).
    + reflexivity.
  - do 4 step_in Hbody.
    apply bind_Returned in Hbody as ([] & c5 & Hev & Hbody).
    unfold ret in Hbody. simplify_eq.
    eapply cache_inv_evictIfNeeded; [|exact Hev].
    eapply (cache_inv_alter3 _ _ i (withMu true s));
      [exact Hinv2 | by apply putShard_lookup | ..].
    3: reflexivity. 3: reflexivity.
    + by apply (shard_inv_insert_new (withMu true s) key
                  {| e_key := key; e_value := value;
                     e_size := calculateSize key value;
                     e_expiry := expiryFor (config c) ttl now |}).
    + reflexivity.
Qed.

Lemma cache_inv_removeEntry i key entry c s c' :
  cache_inv c → shards c !! i = Some s → s_data s !! key = Some entry →
  removeEntry i key entry c = Returned tt c' → cache_inv c'.
Proof.
  intros Hinv Hs He H. unfold removeEntry in H.
  do 3 step_in H. unfold updShard, modify in H. simplify_eq.
  eapply (cache_inv_alter3 _ _ i s); [exact Hinv | done | ..].
  3: reflexivity. 3: reflexivity.
  - apply (shard_inv_remove s key entry); [|done].
    destruct Hinv as [Hall _]. by eapply Forall_lookup_1.
  - reflexivity.
Qed.

Lemma cache_inv_Delete key c r c' :
  cache_inv c → Delete key c = Returned r c' → cache_inv c'.
Proof.
  intros Hinv. unfold Delete.
  destruct (closed c =? 1); [by intros ?; simplify_eq|]. intros H.
  apply bind_Returned in H as (i & c1 & Hi & H).
  apply getShard_Returned in Hi as [-> _].
  apply bind_Returned in H as ([] & c2 & HL & H).
  apply Lock_Returned in HL as (s & Hs & Hmu & ->).
  apply defer_Returned in H as (c3 & Hbody & HU).
  eapply cache_inv_Unlock; [|exact HU].
  assert (Hlen : (i < length (shards c))%nat) by (by eapply lookup_lt_Some).
  apply bind_Returned in Hbody as (s1 & c4 & Hs1 & Hbody).
  apply shardAt_Returned in Hs1 as [-> Hs1].
  pose proof (cache_inv_putShard_mu c i s true Hinv Hs) as Hinv2.
  pose proof Hs1 as Hs1'.
  rewrite putShard_lookup in Hs1 by done. simplify_eq. simpl in Hbody.
  destruct (s_data s !! key) as [entry|] eqn:Hex.
  - apply bind_Returned in Hbody as ([] & c5 & Hrm & Hbody).
    unfold ret in Hbody. simplify_eq.
    by eapply (cache_inv_removeEntry i key entry _ (withMu true s)).
  - unfold ret in Hbody. by simplify_eq.
Qed.

Lemma cache_inv_counter c i f :
  (∀ s, s_data (f s) = s_data s ∧ s_lruList (f s) = s_lruList s ∧
        s_size (f s) = s_size s) →
  cache_inv c → cache_inv (withShards (alter f i) c).
Proof.
  intros Hf Hinv. apply cache_inv_alter_same; [done|].
  intros s [Hwf Hsz]. destruct (Hf s) as (Hd & Hl & Hs).
  split; [|done]. split.
  - unfold shard_wf. by rewrite Hd, Hl.
  - unfold shard_sized. by rewrite Hd, Hs.
Qed.

Lemma cache_inv_Get key now c r c' :
  cache_inv c → Get key now c = Returned r c' → cache_inv c'.
Proof.
  intros Hinv. unfold Get.
  destruct (closed c =? 1); [by intros ?; simplify_eq|]. intros H.
  apply bind_Returned in H as (i & c1 & Hi & H).
  apply getShard_Returned in Hi as [-> _].
  apply bind_Returned in H as ([] & c2 & HL & H).
  unfold RLock in HL. apply bind_Returned in HL as (s & c3 & Hs & HL).
  apply shardAt_Returned in Hs as [-> Hs].
  destruct (s_mu s) eqn:Hmu; [done|]. unfold ret in HL. simplify_eq.
  apply bind_Returned in H as (s2 & c3 & Hs2 & H).
  apply shardAt_Returned in Hs2 as [-> Hs2].
  rewrite Hs in Hs2. injection Hs2 as <-.
  apply bind_Returned in H as ([] & c3 & HR & H).
  unfold RUnlock, ret in HR. simplify_eq.
  destruct (s_data s !! key) as [entry|] eqn:Hex.
  - destruct (isExpired entry now).
    + do 3 step_in H. unfold ret in H. simplify_eq.
      eapply cache_inv_fields; [reflexivity..|].
      by apply cache_inv_counter.
    + apply bind_Returned in H as ([] & c4 & HL & H).
      apply Lock_Returned in HL as (s' & Hs' & _ & ->).
      do 4 step_in H. unfold ret in H. simplify_eq.
      eapply cache_inv_fields; [reflexivity..|].
      apply cache_inv_counter; [done|].
      apply cache_inv_counter; [done|].
      apply cache_inv_alter_same.
      * by apply cache_inv_putShard_mu.
      * intros s1 Hs1. split; [|done]. by apply shard_inv_touch.
  - do 2 step_in H. unfold ret in H. simplify_eq.
    eapply cache_inv_fields; [reflexivity..|].
    by apply cache_inv_counter.
Qed.

Lemma cache_inv_cleanupShard now i c c' :
  cache_inv c → cleanupShard now i c = Returned tt c' → cache_inv c'.
Proof.
  intros Hinv H. unfold cleanupShard in H.
  apply bind_Returned in H as ([] & c2 & HL & H).
  apply Lock_Returned in HL as (s & Hs & Hmu & ->).
  apply bind_Returned in H as (s1 & c3 & Hs1 & H).
  apply shardAt_Returned in Hs1 as [-> Hs1].
  apply bind_Returned in H as ([] & c4 & Hloop & HU).
  eapply cache_inv_Unlock; [|exact HU].
  revert Hloop. apply forM_Returned.
  - clear. intros key c c' Hinv H.
    apply bind_Returned in H as (s & c1 & Hs & H).
    apply shardAt_Returned in Hs as [-> Hs].
    destruct (s_data s !! key) as [entry|] eqn:He; [|done].
    by eapply cache_inv_removeEntry.
  - by apply cache_inv_putShard_mu.
Qed.

Lemma cache_inv_cleanupRoutine now c c' :
  cache_inv c → cleanupRoutine now c = Returned tt c' → cache_inv c'.
Proof.
  intros Hinv. unfold cleanupRoutine, cleanupExpired.
  destruct (_ <=? _); [done|].
  destruct (stopCh c); [by intros ?; simplify_eq|].
  apply forM_Returned; [|done].
  intros i c1 c2. apply cache_inv_cleanupShard.
Qed.

Lemma shardSizes_zero l : Forall (λ s, s_size s = 0) l → shardSizes l = 0.
Proof. induction 1 as [|s l Hs _ IH]; simpl; lia. Qed.

Lemma shardSizes_fmap (f : Shard → Shard) l :
  (∀ s, s_size (f s) = s_size s) → shardSizes (f <$> l) = shardSizes l.
Proof.
  intros Hf. induction l as [|s l IH]; [done|].
  rewrite fmap_cons. unfold shardSizes in *. simpl. by rewrite Hf, IH.
Qed.

Lemma clearing_step j c c' :
  clearing j c →
  (Lock j ;; updShard j clearShard ;; Unlock j) c = Returned tt c' →
  clearing (S j) c'.
Proof.
  intros [Hall Hzero] H.
  apply bind_Returned in H as ([] & c2 & HL & H).
  apply Lock_Returned in HL as (s & Hs & Hmu & ->).
  assert (Hlen : (j < length (shards c))%nat) by (by eapply lookup_lt_Some).
  step_in H. unfold Unlock, updShard, modify in H. simplify_eq.
  unfold clearing. simpl.
  rewrite !alter_insert_known by (by rewrite ?length_insert).
  split.
  - apply Forall_insert; [done|].
    apply shard_inv_withMu, shard_inv_clearShard.
  - intros i s' Hi. destruct (decide (i = j)) as [->|Hne].
    + rewrite list_lookup_insert_eq by done. by intros ?; simplify_eq.
    + rewrite list_lookup_insert_ne by done. apply Hzero. lia.
Qed.

Lemma cache_inv_Clear c c' :
  cache_inv c → Clear c = Returned tt c' → cache_inv c'.
Proof.
  intros [Hall _] H. unfold Clear in H.
  apply bind_Returned in H as ([] & c1 & Hloop & H).
  unfold modify in H. simplify_eq.
  assert (Hlen : length (shards c1) = length (shards c)).
  { pose proof (frame_Clear same_control c) as Hf. unfold Clear in Hf.
    unfold bind at 1 in Hf. rewrite Hloop in Hf. simpl in Hf. by destruct Hf as (_ & _ & _ & ?). }
  apply (forM_seq_Returned clearing) with (a := 0%nat) in Hloop as [Hall1 Hz].
  - split; [done|]. simpl. rewrite shardSizes_zero; [done|].
    apply Forall_lookup. intros i s Hs. apply (Hz i s); [|done].
    apply lookup_lt_Some in Hs. simpl. lia.
  - intros i c2 c3. apply clearing_step.
  - split; [done|]. intros i s Hi. lia.
Qed.

Lemma cache_inv_ResetStats c c' :
  cache_inv c → ResetStats c = Returned tt c' → cache_inv c'.
Proof.
  intros [Hall Htot] H. unfold ResetStats, bind, modify in H. simplify_eq.
  split; simpl.
  - apply Forall_fmap. eapply Forall_impl; [exact Hall|].
    intros s [Hwf Hsz]. by split.
  - by rewrite shardSizes_fmap.
Qed.

Lemma cache_inv_Close c r c' :
  cache_inv c → Close c = Returned r c' → cache_inv c'.
Proof.
  intros Hinv. unfold Close. destruct (closed c =? 0); intros ?; by simplify_eq.
Qed.

Lemma cache_inv_runGoroutine n c c' :
  cache_inv c → runGoroutine n c = Returned tt c' → cache_inv c'.
Proof.
  intros Hinv. unfold runGoroutine.
  destruct (goroutines c !! n) as [key|]; [|by intros ?; simplify_eq].
  intros H. step_in H.
  apply bind_Returned in H as (b & c2 & Hd & H). unfold ret in H. simplify_eq.
  eapply cache_inv_Delete; [|exact Hd]. done.
Qed.

Lemma cache_inv_New cfg c : New cfg = Some c → cache_inv c.
Proof.
  unfold New. destruct (_ <? 0); [done|]. intros ?; simplify_eq.
  split; simpl.
  - apply Forall_replicate, shard_inv_newShard.
  - rewrite shardSizes_zero; [done|]. by apply Forall_replicate.
Qed.

Lemma cache_inv_step op c r c' :
  cache_inv c → step op c = Returned r c' → cache_inv c'.
Proof.
  intros Hinv H. destruct op; simpl in H;
    apply bind_Returned in H as (x & c1 & Hop & H);
    unfold ret in H; simplify_eq.
  - by eapply cache_inv_Set.
  - by eapply cache_inv_Get.
  - by eapply cache_inv_Delete.
  - destruct x. by eapply cache_inv_Clear.
  - by eapply cache_inv_Close.
  - destruct x. by eapply cache_inv_ResetStats.
  - destruct x. by eapply cache_inv_evictIfNeeded.
  - destruct x. by eapply cache_inv_cleanupRoutine.
  - destruct x. by eapply cache_inv_runGoroutine.
Qed.

Lemma reachable_cache_inv c : reachable c → cache_inv c.
Proof.
  induction 1 as [cfg c H|c op r c' _ IH H].
  - by eapply cache_inv_New.
  - by eapply cache_inv_step.
Qed.

Lemma cache_inv_sizes_consistent c : cache_inv c → sizes_consistent c.
Proof.
  intros [Hall Htot]. split; [|done].
  eapply Forall_impl; [exact Hall|]. by intros s [_ ?].
Qed.

(** ** Size accounting *)

(** C5.  In every state reached from [New] by operations that returned, the
    size of each shard is the sum of the sizes of its entries and the total
    size is the sum of the shard sizes, both sums taken in [int64] arithmetic
    as the counters are (so the equalities are exact whenever the sums fit in
    an [int64]); and every operation that returns from such a state ([Set],
    [Get], [Delete], [Clear], [Close], [ResetStats], the eviction check, a
    tick of the cleanup goroutine, a pending asynchronous delete) leads to a
    state where this holds again. *)
Theorem reachable_sizes_consistent c :
  reachable c →
  sizes_consistent c ∧
  (∀ s, s ∈ shards c → int64_range (entrySizes (s_data s)) →
        s_size s = entrySizes (s_data s)) ∧
  (int64_range (shardSizes (shards c)) →
   totalSize c = shardSizes (shards c)) ∧
  (∀ op r c', step op c = Returned r c' → sizes_consistent c').
Proof.
  intros Hreach. pose proof (reachable_cache_inv c Hreach) as Hinv.
  pose proof (cache_inv_sizes_consistent c Hinv) as [Hall Htot].
  repeat split; try done.
  - intros s Hs Hrange.
    rewrite Forall_forall in Hall. rewrite (Hall s Hs). by apply wrap64_id.
  - intros Hrange. rewrite Htot. by apply wrap64_id.
  - eapply Forall_impl; [|intros s Hs; exact Hs].
    apply (cache_inv_sizes_consistent c'). by eapply cache_inv_step.
  - apply (cache_inv_sizes_consistent c'). by eapply cache_inv_step.
Qed.

Lemma reachable_sizes_consistent_witness : sizes_consistent afterBasicSet.
Proof.
  apply (reachable_sizes_consistent afterBasicSet).
  apply (reachable_step (freshCache DefaultConfig)
           (OpSet "key1" (VString "value1") [] sampleNow) (RErr None)).
  - apply (reachable_New (Some DefaultConfig)). reflexivity.
  - vm_compute. reflexivity.
Defined.

(** ** Clear *)

Lemma Clear_round c i s :
  shards c !! i = Some s → s_mu s = false →
  (Lock i ;; updShard i clearShard ;; Unlock i) c
  = Returned tt (putShard i (clearShard s) c).
Proof.
  intros Hs Hmu.
  assert (Hlen : (i < length (shards c))%nat) by (by eapply lookup_lt_Some).
  unfold bind. rewrite (Lock_free c i s) by done.
  unfold Unlock, updShard, modify, putShard, withShards. simpl.
  rewrite !alter_insert_known by (by rewrite ?length_insert).
  do 3 f_equal. unfold clearShard, withMu. simpl. by rewrite Hmu.
Qed.

(** C9.  With no shard lock held, [Clear] returns; afterwards every shard has
    an empty map, an empty recency list and size 0, the total size is 0, and
    the hit and miss counters of every shard and of the cache are the ones
    from before. *)
Theorem Clear_spec c :
  quiescent c →
  ∃ c', Clear c = Returned tt c' ∧
    totalSize c' = 0 ∧
    totalHits c' = totalHits c ∧ totalMiss c' = totalMiss c ∧
    length (shards c') = length (shards c) ∧
    ∀ i s, shards c !! i = Some s →
      ∃ s', shards c' !! i = Some s' ∧
        s_data s' = ∅ ∧ s_lruList s' = [] ∧ s_size s' = 0 ∧
        s_hitCount s' = s_hitCount s ∧ s_missCount s' = s_missCount s.
Proof.
  intros Hq. unfold Clear.
  destruct (forM_seq_returns (cleared_below c)
              (λ i, Lock i ;; updShard i clearShard ;; Unlock i)
              (length (shards c)) 0) with (c := c) as (c1 & Hloop & HP).
  - intros i c2 Hi (Hcfg & Htot & Hh & Hm & Hcl & Hst & Hg & Hlen & Hsh).
    destruct (lookup_lt_is_Some_2 (shards c) i) as [s Hs]; [lia|].
    pose proof (Hsh i s Hs) as Hs2. rewrite decide_False in Hs2 by lia.
    exists (putShard i (clearShard s) c2). split.
    + apply Clear_round; [done|]. by apply (Forall_lookup_1 _ _ _ _ Hq Hs).
    + unfold cleared_below. simpl. rewrite length_insert.
      repeat split; try done.
      intros j s' Hs'. destruct (decide (j = i)) as [->|Hne].
      * rewrite list_lookup_insert_eq by lia. rewrite decide_True by lia.
        by simplify_eq.
      * rewrite list_lookup_insert_ne by done. rewrite (Hsh j s' Hs').
        do 2 case_decide; try done; lia.
  - unfold cleared_below. repeat split; try done;
      intros i s Hs; by rewrite decide_False by lia.
  - destruct HP as (Hcfg & Htot & Hh & Hm & Hcl & Hst & Hg & Hlen & Hsh).
    exists (withTotalSize (λ _, 0) c1). unfold bind at 1. rewrite Hloop.
    repeat split; try done. simpl.
    intros i s Hs. exists (clearShard s). split; [|done].
    rewrite (Hsh i s Hs). rewrite decide_True; [done|].
    apply lookup_lt_Some in Hs. simpl. lia.
Qed.

Lemma Clear_spec_witness :
  ∃ c', Clear sampleCache = Returned tt c' ∧
    totalSize c' = 0 ∧
    totalHits c' = totalHits sampleCache ∧
    totalMiss c' = totalMiss sampleCache ∧
    length (shards c') = length (shards sampleCache) ∧
    ∀ i s, shards sampleCache !! i = Some s →
      ∃ s', shards c' !! i = Some s' ∧
        s_data s' = ∅ ∧ s_lruList s' = [] ∧ s_size s' = 0 ∧
        s_hitCount s' = s_hitCount s ∧ s_missCount s' = s_missCount s.
Proof.
  apply (Clear_spec sampleCache). unfold quiescent. simpl.
  repeat constructor.
Defined.

(** ** The eviction check *)

Lemma evicted_below_round c0 j c s :
  shards c0 !! j = Some s → s_mu s = false → shard_wf s →
  evicted_below c0 j c →
  evictRound j c = Returned tt (afterEvict j s c) ∧
  evicted_below c0 (S j) (afterEvict j s c).
Proof.
  intros Hs Hmu Hwf (Hcfg & Hh & Hm & Hcl & Hst & Hg & Hlen & Htot & Hsh).
  pose proof (Hsh j s Hs) as Hs1. rewrite decide_False in Hs1 by lia.
  split.
  - unfold evictRound, bind. rewrite (shardAt_Some c j s) by done.
    apply evictFromShard_free; [done|done|by apply shard_wf_back_ok].
  - assert (Hj : (j < length (shards c0))%nat) by (by eapply lookup_lt_Some).
    assert (Htake : foldl lessVictim (totalSize c0) (take (S j) (shards c0))
                    = lessVictim (totalSize c) s).
    { rewrite (take_S_r _ _ s) by done. by rewrite foldl_app, Htot. }
    unfold evicted_below, afterEvict, evicted, lessVictim in *.
    destruct (lruVictim s) as [e|] eqn:Hv; simpl;
      rewrite ?length_insert; repeat split; try done.
    + intros i s' Hs'. destruct (decide (i = j)) as [->|Hne].
      * rewrite list_lookup_insert_eq by lia. rewrite decide_True by lia.
        simplify_eq. by rewrite Hv.
      * rewrite list_lookup_insert_ne by done. rewrite (Hsh i s' Hs').
        do 2 case_decide; try done; lia.
    + intros i s' Hs'. destruct (decide (i = j)) as [->|Hne].
      * rewrite decide_True by lia. simplify_eq. by rewrite Hv.
      * rewrite (Hsh i s' Hs'). do 2 case_decide; try done; lia.
Qed.

Lemma evict_loop_returns c n :
  (n ≤ length (shards c))%nat →
  Forall (λ s, s_mu s = false ∧ shard_wf s) (take n (shards c)) →
  ∃ c', forM_ (seq 0 n) evictRound c = Returned tt c' ∧ evicted_below c n c'.
Proof.
  intros Hn Hall.
  apply (forM_seq_returns (evicted_below c) evictRound n 0).
  - intros j c1 Hj HP.
    destruct (lookup_lt_is_Some_2 (shards c) j) as [s Hs]; [lia|].
    assert (Hs' : take n (shards c) !! j = Some s)
      by (rewrite lookup_take_lt by lia; done).
    destruct (Forall_lookup_1 _ _ _ _ Hall Hs') as [Hmu Hwf].
    exists (afterEvict j s c1). by apply evicted_below_round.
  - unfold evicted_below. repeat split; try done;
      intros i s Hs; by rewrite decide_False by lia.
Qed.

Lemma evictIfNeeded_over c :
  MaxMemoryBytes (config c) < totalSize c →
  evictIfNeeded c = forM_ (seq 0 (evictCount (config c))) evictRound c.
Proof.
  intros H. unfold evictIfNeeded, evictCount.
  destruct (Z.leb_spec (totalSize c) (MaxMemoryBytes (config c))); [lia|].
  destruct (Z.ltb_spec (ShardCount (config c) ÷ 4) 1).
  - by rewrite Z.max_l by lia.
  - by rewrite Z.max_r by lia.
Qed.

Lemma evictCount_le cfg :
  1 <= ShardCount cfg → (evictCount cfg ≤ Z.to_nat (ShardCount cfg))%nat.
Proof.
  intros H. unfold evictCount.
  pose proof (Z.quot_le_upper_bound (ShardCount cfg) 4 (ShardCount cfg)) as Hq.
  lia.
Qed.

Lemma lruVictim_Some s k :
  Back (s_lruList s) = Some k → lruVictim s = s_data s !! k.
Proof. intros H. unfold lruVictim. by rewrite H. Qed.

Lemma lruVictim_None s : Back (s_lruList s) = None → lruVictim s = None.
Proof. intros H. unfold lruVictim. by rewrite H. Qed.

(** C4, as amended.  When the total size is within the budget the check
    changes nothing.  Otherwise, on a cache whose first max(1, N/4) shards
    are not locked, it returns after one pass over exactly these shards:
    a shard among them whose recency list is empty is left as it was; from
    every other one the entry at the back of the list (its least recently
    used entry) is removed from the map and from the list, and its size is
    taken off the shard's size and off the total size.  The shards that
    follow are untouched and nothing is repeated, whatever the total size
    after the pass. *)
Theorem evictIfNeeded_spec c :
  Forall shard_wf (shards c) →
  length (shards c) = Z.to_nat (ShardCount (config c)) →
  1 <= ShardCount (config c) →
  Forall (λ s, s_mu s = false) (take (evictCount (config c)) (shards c)) →
  (totalSize c <= MaxMemoryBytes (config c) → evictIfNeeded c = Returned tt c) ∧
  (MaxMemoryBytes (config c) < totalSize c →
   ∃ c', evictIfNeeded c = Returned tt c' ∧
     length (shards c') = length (shards c) ∧
     totalSize c' =
       foldl lessVictim (totalSize c) (take (evictCount (config c)) (shards c)) ∧
     ∀ i s, shards c !! i = Some s →
       ∃ s', shards c' !! i = Some s' ∧
         if decide (i < evictCount (config c))%nat then
           match Back (s_lruList s) with
           | None => s' = s
           | Some k =>
               ∃ e, s_data s !! k = Some e ∧ lruVictim s = Some e ∧
                 s_data s' = delete k (s_data s) ∧
                 s_lruList s' = removelast (s_lruList s) ∧
                 s_size s' = add64 (s_size s) (neg64 (e_size e)) ∧
                 s_hitCount s' = s_hitCount s ∧
                 s_missCount s' = s_missCount s
           end
         else s' = s).
Proof.
  intros Hwf Hlen Hcount Hfree. split.
  - intros H. unfold evictIfNeeded.
    by destruct (Z.leb_spec (totalSize c) (MaxMemoryBytes (config c))); [|lia].
  - intros Hover. rewrite (evictIfNeeded_over c Hover).
    destruct (evict_loop_returns c (evictCount (config c))) as (c' & Hrun & HP).
    + rewrite Hlen. by apply evictCount_le.
    + apply Forall_lookup. intros i s Hs. split.
      * by apply (Forall_lookup_1 _ _ _ _ Hfree Hs).
      * apply lookup_take_Some in Hs as [Hs _].
        by apply (Forall_lookup_1 _ _ _ _ Hwf Hs).
    + destruct HP as (_ & _ & _ & _ & _ & _ & Hlen' & Htot & Hsh).
      exists c'. repeat split; try done.
      intros i s Hs. eexists. split; [by apply Hsh|].
      case_decide; [|done].
      pose proof (Forall_lookup_1 _ _ _ _ Hwf Hs) as Hwfs.
      unfold evicted. destruct (Back (s_lruList s)) as [k|] eqn:Hk.
      * destruct (shard_wf_back_ok s Hwfs k Hk) as [e He].
        rewrite (lruVictim_Some s k Hk), He. exists e.
        destruct Hwfs as (_ & _ & Hkey).
        unfold evictShard. simpl. by rewrite (Hkey k e He).
      * by rewrite (lruVictim_None s Hk).
Qed.

(** ** Set, up to the eviction check *)

Lemma Set_unfold c i s key value ttl now :
  closed c ≠ 1 → getShard key c = Returned i c →
  shards c !! i = Some s → s_mu s = false →
  Set_ key value ttl now c =
  defer (Unlock i) (evictIfNeeded ;; ret None)
        (stored i s key value (expiryFor (config c) ttl now) c).
Proof.
  intros Hcl Hi Hs Hmu.
  assert (Hlen : (i < length (shards c))%nat) by (by eapply lookup_lt_Some).
  unfold Set_. rewrite (proj2 (Z.eqb_neq _ _) Hcl).
  unfold bind at 1. rewrite Hi.
  unfold bind at 1. rewrite (Lock_free c i s) by done.
  unfold defer.
  unfold bind at 1.
  rewrite (shardAt_Some _ i (withMu true s)) by (by apply putShard_lookup).
  unfold stored, storeEntry, storeDelta.
  destruct (s_data s !! key) as [existing|] eqn:Hex;
    simpl s_data; rewrite Hex;
    unfold bind, updShard, modify, putShard, withShards, withTotalSize;
    cbn [shards s_data withMu]; rewrite ?Hex; cbn [shards];
    rewrite !alter_insert_known by (by rewrite ?length_insert);
    reflexivity.
Qed.

Lemma storeEntry_lookup key value expiry s :
  ∃ e, s_data (storeEntry key value expiry s) !! key = Some e ∧
       e_value e = value ∧ e_size e = calculateSize key value ∧
       e_expiry e = expiry.
Proof.
  unfold storeEntry. destruct (s_data s !! key); simpl;
    rewrite lookup_insert_eq; eauto.
Qed.

Lemma storeEntry_mu key value expiry s :
  s_mu (storeEntry key value expiry s) = s_mu s.
Proof. unfold storeEntry. by destruct (s_data s !! key). Qed.

(** A round of the eviction check leaves the other shards alone. *)
Lemma evictRound_other j c c' i :
  evictRound j c = Returned tt c' → i ≠ j → shards c' !! i = shards c !! i.
Proof.
  intros H Hne. unfold evictRound in H.
  apply bind_Returned in H as (s & c1 & Hs & H).
  apply shardAt_Returned in Hs as [-> Hs].
  unfold evictFromShard in H.
  apply bind_Returned in H as ([] & c2 & HL & H).
  apply Lock_Returned in HL as (s' & _ & _ & ->).
  apply defer_Returned in H as (c3 & Hbody & HU).
  unfold Unlock, updShard, modify in HU. simplify_eq. simpl.
  rewrite list_lookup_alter_ne by done.
  simpl in Hbody.
  apply bind_Returned in Hbody as (s1 & c4 & Hs1 & Hbody).
  apply shardAt_Returned in Hs1 as [-> Hs1].
  destruct (Back (s_lruList s1)) as [k|].
  - destruct (s_data s1 !! k) as [e|]; [|done].
    do 4 step_in Hbody. unfold ret in Hbody. simplify_eq. simpl.
    rewrite !list_lookup_alter_ne by done. by rewrite list_lookup_insert_ne.
  - unfold ret in Hbody. simplify_eq. simpl. by rewrite list_lookup_insert_ne.
Qed.

(** The eviction check cannot return after visiting a shard whose lock is
    held: such a shard is left as it was. *)
Lemma evictIfNeeded_locked_shard c c' i s :
  evictIfNeeded c = Returned tt c' →
  shards c !! i = Some s → s_mu s = true → shards c' !! i = Some s.
Proof.
  intros H Hs Hmu. unfold evictIfNeeded in H.
  destruct (_ <=? _); [by simplify_eq|].
  revert H. apply (forM_Returned (λ c, shards c !! i = Some s)); [|done].
  intros j c1 c2 Hs1 H. destruct (decide (i = j)) as [->|Hne].
  - unfold bind in H. rewrite (shardAt_Some c1 j s) in H by done.
    by rewrite (evictFromShard_held c1 j s) in H.
  - by rewrite (evictRound_other j c1 c2 i H Hne).
Qed.

Lemma getShard_same key c c' i :
  getShard key c = Returned i c → config c' = config c →
  is_Some (shards c' !! i) → getShard key c' = Returned i c'.
Proof.
  unfold getShard. intros H Hcfg [s Hs]. rewrite Hcfg.
  destruct (wrap32u (ShardCount (config c)) =? 0); [done|].
  destruct (shards c !! _); [|done]. simplify_eq. by rewrite Hs.
Qed.

(** What [Set] leaves behind when it returns. *)
Lemma Set_Returned_stored c key value ttl now r c' :
  Set_ key value ttl now c = Returned r c' → closed c ≠ 1 →
  r = None ∧ config c' = config c ∧ closed c' = closed c ∧
  ∃ i s e, getShard key c' = Returned i c' ∧
    shards c' !! i = Some s ∧ s_mu s = false ∧
    s_data s !! key = Some e ∧ e_value e = value ∧
    e_size e = calculateSize key value ∧
    e_expiry e = expiryFor (config c) ttl now.
Proof.
  intros H Hcl.
  pose proof (frame_Set same_control key value ttl now c) as Hctl.
  rewrite H in Hctl. destruct Hctl as (Hcfg & Hclosed & _ & Hlen).
  pose proof H as H0. unfold Set_ in H0.
  rewrite (proj2 (Z.eqb_neq _ _) Hcl) in H0.
  apply bind_Returned in H0 as (i & c1 & Hi & H0).
  pose proof Hi as Hi'. apply getShard_Returned in Hi' as [-> _].
  apply bind_Returned in H0 as ([] & c2 & HL & _).
  apply Lock_Returned in HL as (s & Hs & Hmu & _).
  assert (Hi_lt : (i < length (shards c))%nat) by (by eapply lookup_lt_Some).
  rewrite (Set_unfold c i s) in H by done.
  apply defer_Returned in H as (c3 & Hbody & HU).
  apply bind_Returned in Hbody as ([] & c4 & Hev & Hret).
  unfold ret in Hret. simplify_eq.
  set (s1 := storeEntry key value (expiryFor (config c) ttl now) (withMu true s)) in *.
  assert (Hs3 : shards c3 !! i = Some s1).
  { eapply evictIfNeeded_locked_shard; [exact Hev| |].
    - unfold stored. simpl. by apply list_lookup_insert_eq.
    - unfold s1. by rewrite storeEntry_mu. }
  unfold Unlock, updShard, modify in HU. simplify_eq.
  repeat split; try done.
  destruct (storeEntry_lookup key value (expiryFor (config c) ttl now)
              (withMu true s)) as (e & He & Hv & Hsz & Hexp).
  exists i, (withMu false s1), e. repeat split; try done.
  - apply (getShard_same key c _ i Hi); [done|].
    simpl. rewrite list_lookup_alter_eq, Hs3. by eexists.
  - simpl. by rewrite list_lookup_alter_eq, Hs3.
Qed.

(** ** Get on a known shard *)

Lemma Get_hit c i s key e now :
  closed c ≠ 1 → getShard key c = Returned i c →
  shards c !! i = Some s → s_mu s = false →
  s_data s !! key = Some e → isExpired e now = false →
  Get key now c =
  Returned (Some (e_value e), true)
    (withTotalHits (λ n, add64 n 1)
       (putShard i (withHitCount (λ n, add64 n 1)
                      (withLruList (MoveToFront key) s)) c)).
Proof.
  intros Hcl Hi Hs Hmu He Hexp.
  assert (Hlen : (i < length (shards c))%nat) by (by eapply lookup_lt_Some).
  unfold Get. rewrite (proj2 (Z.eqb_neq _ _) Hcl).
  unfold bind at 1. rewrite Hi.
  unfold bind at 1. unfold RLock. unfold bind at 1.
  rewrite (shardAt_Some c i s), Hmu by done. unfold ret at 1.
  unfold bind at 1. rewrite (shardAt_Some c i s) by done.
  unfold bind at 1. unfold RUnlock, ret at 1.
  rewrite He, Hexp.
  unfold bind at 1. rewrite (Lock_free c i s) by done.
  unfold bind, Unlock, updShard, modify, ret, putShard, withShards,
    withTotalHits. simpl.
  rewrite !alter_insert_known by (by rewrite ?length_insert).
  do 3 f_equal. destruct s; simpl in *; by subst.
Qed.

Lemma Get_expired c i s key e now :
  closed c ≠ 1 → getShard key c = Returned i c →
  shards c !! i = Some s → s_mu s = false →
  s_data s !! key = Some e → isExpired e now = true →
  Get key now c =
  Returned (None, false)
    (withTotalMiss (λ n, add64 n 1)
       (putShard i (withMissCount (λ n, add64 n 1) s)
          (withGoroutines (λ g, g ++ [key]) c))).
Proof.
  intros Hcl Hi Hs Hmu He Hexp.
  unfold Get. rewrite (proj2 (Z.eqb_neq _ _) Hcl).
  unfold bind at 1. rewrite Hi.
  unfold bind at 1. unfold RLock. unfold bind at 1.
  rewrite (shardAt_Some c i s), Hmu by done. unfold ret at 1.
  unfold bind at 1. rewrite (shardAt_Some c i s) by done.
  unfold bind at 1. unfold RUnlock, ret at 1.
  rewrite He, Hexp.
  unfold bind, updShard, modify, ret, putShard, withShards, withTotalMiss,
    withGoroutines. simpl.
  by rewrite (alter_known _ _ _ s).
Qed.

Lemma Get_absent c i s key now :
  closed c ≠ 1 → getShard key c = Returned i c →
  shards c !! i = Some s → s_mu s = false → s_data s !! key = None →
  Get key now c =
  Returned (None, false)
    (withTotalMiss (λ n, add64 n 1)
       (putShard i (withMissCount (λ n, add64 n 1) s) c)).
Proof.
  intros Hcl Hi Hs Hmu He.
  unfold Get. rewrite (proj2 (Z.eqb_neq _ _) Hcl).
  unfold bind at 1. rewrite Hi.
  unfold bind at 1. unfold RLock. unfold bind at 1.
  rewrite (shardAt_Some c i s), Hmu by done. unfold ret at 1.
  unfold bind at 1. rewrite (shardAt_Some c i s) by done.
  unfold bind at 1. unfold RUnlock, ret at 1.
  rewrite He.
  unfold bind, updShard, modify, ret, putShard, withShards, withTotalMiss.
  simpl. by rewrite (alter_known _ _ _ s).
Qed.

(** ** Expiry and the round trip *)

Lemma expiryFor_spec cfg ttl now :
  int64_range (spec_expiry now (head ttl) (DefaultTTL cfg)) →
  expiryFor cfg ttl now = spec_expiry now (head ttl) (DefaultTTL cfg).
Proof.
  unfold expiryFor, spec_expiry, never, add64. intros Hr.
  destruct ttl as [|t rest]; simpl in *;
    repeat match goal with
           | |- context [0 <? ?x] => destruct (Z.ltb_spec 0 x); simpl
           end;
    repeat case_decide; try lia; try done; by apply wrap64_id.
Qed.

Lemma expiryFor_nonpositive cfg t rest now :
  t <= 0 → expiryFor cfg (t :: rest) now = expiryFor cfg [] now.
Proof.
  intros H. unfold expiryFor. simpl.
  destruct (Z.ltb_spec 0 t); [lia|]. by rewrite ?andb_false_r.
Qed.

(** C6.  When [Set] returns, the entry it stored under the key expires at
    [now + ttl] if a TTL was supplied and is positive, else at
    [now + DefaultTTL] if the configured default is positive, else never;
    this when the instant is one that an [int64] of nanoseconds can hold.  A
    supplied TTL that is zero or negative gives the expiry of a call without
    TTL. *)
Theorem Set_expiry c key value ttl now c1 :
  Set_ key value ttl now c = Returned None c1 →
  int64_range (spec_expiry now (head ttl) (DefaultTTL (config c))) →
  (∃ i s e, getShard key c1 = Returned i c1 ∧
     shards c1 !! i = Some s ∧ s_data s !! key = Some e ∧
     e_expiry e = spec_expiry now (head ttl) (DefaultTTL (config c))) ∧
  (∀ t rest, t <= 0 →
     expiryFor (config c) (t :: rest) now = expiryFor (config c) [] now ∧
     spec_expiry now (Some t) (DefaultTTL (config c))
       = spec_expiry now None (DefaultTTL (config c))).
Proof.
  intros H Hr. split.
  - assert (Hcl : closed c ≠ 1).
    { intros Hcl. unfold Set_ in H. by rewrite Hcl in H. }
    destruct (Set_Returned_stored _ _ _ _ _ _ _ H Hcl)
      as (_ & _ & _ & i & s & e & Hi & Hs & _ & He & _ & _ & Hexp).
    exists i, s, e. repeat split; try done.
    by rewrite Hexp, expiryFor_spec.
  - intros t rest Hle. split; [by apply expiryFor_nonpositive|].
    unfold spec_expiry. by rewrite decide_False by lia.
Qed.

(** C3.  When [Set] has returned [nil] for a key and a value, a [Get] of the
    key that follows it, no later than the expiry of the entry (an instant
    that an [int64] of nanoseconds can hold, or never), returns the value and
    [true]. *)
Theorem Set_Get_roundtrip c key value ttl now now' c1 :
  Set_ key value ttl now c = Returned None c1 →
  int64_range (spec_expiry now (head ttl) (DefaultTTL (config c))) →
  spec_expiry now (head ttl) (DefaultTTL (config c)) = never ∨
  now' <= spec_expiry now (head ttl) (DefaultTTL (config c)) →
  ∃ c2, Get key now' c1 = Returned (Some value, true) c2.
Proof.
  intros H Hr Hfresh.
  assert (Hcl : closed c ≠ 1).
  { intros Hcl. unfold Set_ in H. by rewrite Hcl in H. }
  destruct (Set_Returned_stored _ _ _ _ _ _ _ H Hcl)
    as (_ & _ & Hclosed & i & s & e & Hi & Hs & Hmu & He & Hv & _ & Hexp).
  rewrite expiryFor_spec in Hexp by done.
  eexists. rewrite (Get_hit c1 i s key e now'); try done.
  - by rewrite Hv.
  - by rewrite Hclosed.
  - unfold isExpired, never in *. rewrite Hexp.
    destruct (Z.ltb_spec 0 (spec_expiry now (head ttl) (DefaultTTL (config c))));
      destruct (Z.ltb_spec (spec_expiry now (head ttl) (DefaultTTL (config c))) now');
      simpl; try done; lia.
Qed.

(** C7.  On an open cache, a [Get] of a key whose entry has an expiry that
    has passed returns a miss, not the stored value; the miss counters of
    the shard and of the cache grow by one, the hit counters and the entry
    stay, and the delete of the key is scheduled.  In particular a [Get]
    later than [now + ttl] misses after a [Set] at [now] with a positive
    [ttl]. *)
Theorem Get_expired_misses :
  (∀ c i s key e now,
     closed c ≠ 1 → getShard key c = Returned i c →
     shards c !! i = Some s → s_mu s = false →
     s_data s !! key = Some e → 0 < e_expiry e → e_expiry e < now →
     ∃ c' s', Get key now c = Returned (None, false) c' ∧
       totalMiss c' = add64 (totalMiss c) 1 ∧ totalHits c' = totalHits c ∧
       shards c' !! i = Some s' ∧
       s_missCount s' = add64 (s_missCount s) 1 ∧
       s_hitCount s' = s_hitCount s ∧ s_data s' = s_data s ∧
       goroutines c' = goroutines c ++ [key]) ∧
  (∀ c key value ttl rest now now' c1,
     Set_ key value (ttl :: rest) now c = Returned None c1 →
     0 < ttl → 0 <= now → now + ttl < now' → now' < 2 ^ 63 →
     ∃ c2, Get key now' c1 = Returned (None, false) c2 ∧
       totalMiss c2 = add64 (totalMiss c1) 1).
Proof.
  split.
  - intros c i s key e now Hcl Hi Hs Hmu He Hpos Hpast.
    assert (Hlen : (i < length (shards c))%nat) by (by eapply lookup_lt_Some).
    eexists. exists (withMissCount (λ n, add64 n 1) s).
    rewrite (Get_expired c i s key e now); try done.
    + repeat split; try reflexivity. simpl. by apply list_lookup_insert_eq.
    + unfold isExpired.
      destruct (Z.ltb_spec 0 (e_expiry e)); destruct (Z.ltb_spec (e_expiry e) now);
        simpl; try done; lia.
  - intros c key value ttl rest now now' c1 H Hpos Hnow Hlate Hrange.
    assert (Hcl : closed c ≠ 1).
    { intros Hcl. unfold Set_ in H. by rewrite Hcl in H. }
    destruct (Set_Returned_stored _ _ _ _ _ _ _ H Hcl)
      as (_ & _ & Hclosed & i & s & e & Hi & Hs & Hmu & He & _ & _ & Hexp).
    assert (Hexp' : e_expiry e = now + ttl).
    { rewrite Hexp. unfold expiryFor. simpl.
      destruct (Z.ltb_spec 0 ttl); [|lia]. simpl.
      apply wrap64_id. unfold int64_range. lia. }
    eexists. rewrite (Get_expired c1 i s key e now'); try done.
    + by rewrite Hclosed.
    + unfold isExpired. rewrite Hexp'.
      destruct (Z.ltb_spec 0 (now + ttl)); destruct (Z.ltb_spec (now + ttl) now');
        simpl; try done; lia.
Qed.

(** ** Set and the lock of its shard *)

Lemma forM__app {A} (l1 l2 : list A) (f : A → M unit) c :
  forM_ (l1 ++ l2) f c = (forM_ l1 f ;; forM_ l2 f) c.
Proof.
  revert c. induction l1 as [|a l1 IH]; intros c; simpl; [done|].
  unfold bind in *. destruct (f a c) as [[] c1| |]; [|done|done].
  apply IH.
Qed.

Lemma evictRound_held c i s :
  shards c !! i = Some s → s_mu s = true → evictRound i c = Blocked c.
Proof.
  intros Hs Hmu. unfold evictRound, bind.
  rewrite (shardAt_Some c i s) by done. by apply (evictFromShard_held c i s).
Qed.

(** The eviction check blocks on the first locked shard among those it
    visits. *)
Lemma evictIfNeeded_blocks c i s :
  MaxMemoryBytes (config c) < totalSize c →
  (i < evictCount (config c))%nat →
  shards c !! i = Some s → s_mu s = true →
  Forall (λ s, s_mu s = false ∧ shard_wf s) (take i (shards c)) →
  ∃ c', evictIfNeeded c = Blocked c'.
Proof.
  intros Hover Hi Hs Hmu Hfree.
  rewrite (evictIfNeeded_over c Hover).
  replace (evictCount (config c))
    with (i + S (evictCount (config c) - S i))%nat by lia.
  rewrite seq_app, forM__app. simpl.
  destruct (evict_loop_returns c i) as (c1 & Hrun & HP); [|done|].
  { apply lookup_lt_Some in Hs. lia. }
  destruct HP as (_ & _ & _ & _ & _ & _ & _ & _ & Hsh).
  pose proof (Hsh i s Hs) as Hs1. rewrite decide_False in Hs1 by lia.
  exists c1. unfold bind at 1. rewrite Hrun.
  unfold bind at 1. by rewrite (evictRound_held c1 i s).
Qed.

(** C2 fails on the code.  On an open cache with no lock held, [Set] calls
    the eviction check inside its critical section: the lock of the key's
    shard is held when the check starts and until the deferred [Unlock].
    When the total size after the store exceeds the budget and the key's shard
    is among the max(1, N/4) shards the check visits, the check asks for the
    lock its caller holds and [Set] never returns; in every other case [Set]
    returns [nil]. *)
Theorem Set_self_deadlock c key value ttl now i s :
  closed c ≠ 1 → quiescent c → Forall shard_wf (shards c) →
  getShard key c = Returned i c → shards c !! i = Some s →
  (∃ c0 s0, Set_ key value ttl now c
            = defer (Unlock i) (evictIfNeeded ;; ret None) c0 ∧
            shards c0 !! i = Some s0 ∧ s_mu s0 = true) ∧
  ((i < evictCount (config c))%nat →
   MaxMemoryBytes (config c) < add64 (totalSize c) (storeDelta key value s) →
   ∃ c', Set_ key value ttl now c = Blocked c') ∧
  (¬ ((i < evictCount (config c))%nat ∧
      MaxMemoryBytes (config c) < add64 (totalSize c) (storeDelta key value s)) →
   ∃ c', Set_ key value ttl now c = Returned None c').
Proof.
  intros Hcl Hq Hwf Hi Hs.
  assert (Hlen : (i < length (shards c))%nat) by (by eapply lookup_lt_Some).
  pose proof (Forall_lookup_1 _ _ _ _ Hq Hs) as Hmu. simpl in Hmu.
  rewrite (Set_unfold c i s) by done.
  set (c0 := stored i s key value (expiryFor (config c) ttl now) c).
  assert (Hs0 : shards c0 !! i
                = Some (storeEntry key value (expiryFor (config c) ttl now)
                          (withMu true s))).
  { unfold c0, stored. simpl. by apply list_lookup_insert_eq. }
  assert (Hfree : ∀ n, (n ≤ i)%nat →
            Forall (λ s, s_mu s = false ∧ shard_wf s) (take n (shards c0))).
  { intros n Hn. unfold c0, stored. simpl. rewrite take_insert_ge by lia.
    apply Forall_lookup. intros j sj Hj.
    apply lookup_take_Some in Hj as [Hj _]. split.
    - by apply (Forall_lookup_1 _ _ _ _ Hq Hj).
    - by apply (Forall_lookup_1 _ _ _ _ Hwf Hj). }
  split; [|split].
  - do 2 eexists. split; [reflexivity|]. split; [exact Hs0|].
    by rewrite storeEntry_mu.
  - intros Hlt Hover.
    destruct (evictIfNeeded_blocks c0 i _ Hover Hlt Hs0) as (c' & Hb).
    + by rewrite storeEntry_mu.
    + by apply Hfree.
    + exists c'. unfold defer, bind at 1. by rewrite Hb.
  - intros Hnot.
    assert (∃ c1, evictIfNeeded c0 = Returned tt c1) as (c1 & Hev).
    { destruct (Z.le_gt_cases (totalSize c0) (MaxMemoryBytes (config c0)))
        as [Hle|Hover].
      - exists c0. unfold evictIfNeeded.
        by destruct (Z.leb_spec (totalSize c0) (MaxMemoryBytes (config c0)));
          [|lia].
      - rewrite (evictIfNeeded_over c0) by lia.
        assert (Hge : (evictCount (config c) ≤ i)%nat).
        { destruct (decide (i < evictCount (config c))%nat); [|lia].
          exfalso. apply Hnot. split; [done|]. unfold c0, stored in Hover.
          simpl in Hover. lia. }
        destruct (evict_loop_returns c0 (evictCount (config c0)))
          as (c1 & Hrun & _).
        + unfold c0, stored. simpl. rewrite length_insert. lia.
        + by apply Hfree.
        + by exists c1. }
    eexists. unfold defer, bind at 1. rewrite Hev.
    unfold ret at 1, bind, Unlock, updShard, modify, ret. reflexivity.
Qed.

(** ** Concrete runs *)

Lemma Forall_shard_wf_fresh cfg : Forall shard_wf (shards (freshCache cfg)).
Proof. simpl. apply Forall_replicate. apply shard_inv_newShard. Qed.

Lemma Set_self_deadlock_witness :
  (∃ c0 s0, Set_ "k" (VString "v") [] 0 (freshCache tinyConfig)
            = defer (Unlock 0) (evictIfNeeded ;; ret None) c0 ∧
            shards c0 !! 0%nat = Some s0 ∧ s_mu s0 = true) ∧
  ∃ c', Set_ "k" (VString "v") [] 0 (freshCache tinyConfig) = Blocked c'.
Proof.
  destruct (Set_self_deadlock (freshCache tinyConfig) "k" (VString "v") [] 0
              0%nat newShard) as (Hheld & Hblocks & _).
  - simpl. lia.
  - unfold quiescent. simpl. repeat constructor.
  - apply Forall_shard_wf_fresh.
  - reflexivity.
  - reflexivity.
  - split; [exact Hheld|]. apply Hblocks.
    + vm_compute. lia.
    + vm_compute. reflexivity.
Defined.

(** [TestSimpleEviction] does not get past its seventh [Set]: the first six
    return, the sixth after evicting from shard 0, and the seventh, whose key
    hashes to shard 0 while the cache is over its budget, blocks. *)
Example TestSimpleEviction_blocks :
  kind (setAll (take 6 simpleEvictionKeys) simpleEvictionValue 0
          (freshCache simpleEvictionConfig)) = KReturned ∧
  kind (setAll simpleEvictionKeys simpleEvictionValue 0
          (freshCache simpleEvictionConfig)) = KBlocked ∧
  hash "test_key_6" mod 4 = 0.
Proof. vm_compute. repeat split; reflexivity. Qed.

Lemma sampleShard_wf : shard_wf sampleShard.
Proof.
  split; [|split]; simpl.
  - apply NoDup_singleton.
  - intros k. rewrite list_elem_of_singleton.
    destruct (decide (k = "a")) as [->|Hne].
    + rewrite lookup_singleton_eq. split; [by eexists|done].
    + rewrite lookup_singleton_ne by done. split; [done|by intros [? ?]].
  - intros k e Hk. apply lookup_singleton_Some in Hk as [<- <-]. done.
Qed.

Lemma evictIfNeeded_spec_witness :
  ∃ c', evictIfNeeded sampleCache = Returned tt c' ∧
    length (shards c') = length (shards sampleCache) ∧
    totalSize c' =
      foldl lessVictim (totalSize sampleCache)
        (take (evictCount (config sampleCache)) (shards sampleCache)) ∧
    ∀ i s, shards sampleCache !! i = Some s →
      ∃ s', shards c' !! i = Some s' ∧
        if decide (i < evictCount (config sampleCache))%nat then
          match Back (s_lruList s) with
          | None => s' = s
          | Some k =>
              ∃ e, s_data s !! k = Some e ∧ lruVictim s = Some e ∧
                s_data s' = delete k (s_data s) ∧
                s_lruList s' = removelast (s_lruList s) ∧
                s_size s' = add64 (s_size s) (neg64 (e_size e)) ∧
                s_hitCount s' = s_hitCount s ∧
                s_missCount s' = s_missCount s
          end
        else s' = s.
Proof.
  apply (evictIfNeeded_spec sampleCache).
  - simpl. constructor; [apply sampleShard_wf|].
    repeat (constructor; [apply shard_inv_newShard|]). constructor.
  - reflexivity.
  - simpl. lia.
  - vm_compute. repeat constructor.
  - simpl. lia.
Defined.

(** C4 as stated fails on a cache that is over its budget while shard 0, the
    only shard the check visits among four, is empty: the check returns and
    has removed nothing. *)
Lemma eviction_skips_empty_shard :
  Set_ "test_key_0" (VString "v") [] 0 (freshCache smallConfig)
    = Returned None afterOneSet ∧
  MaxMemoryBytes (config afterOneSet) < totalSize afterOneSet ∧
  evictCount (config afterOneSet) = 1%nat ∧
  s_lruList <$> shards afterOneSet = [[]; []; ["test_key_0"]; []] ∧
  evictIfNeeded afterOneSet = Returned tt afterOneSet.
Proof. vm_compute. repeat split; reflexivity. Qed.

Lemma Set_Get_roundtrip_witness :
  ∃ c2, Get "key1" (sampleNow + Minute) afterBasicSet
        = Returned (Some (VString "value1"), true) c2.
Proof.
  apply (Set_Get_roundtrip (freshCache DefaultConfig) "key1" (VString "value1")
           [] sampleNow (sampleNow + Minute) afterBasicSet).
  - vm_compute. reflexivity.
  - vm_compute. split; [discriminate|reflexivity].
  - right. vm_compute. discriminate.
Defined.

Lemma Set_expiry_witness :
  (∃ i s e, getShard "ttl_key" afterTTLSet = Returned i afterTTLSet ∧
     shards afterTTLSet !! i = Some s ∧ s_data s !! "ttl_key" = Some e ∧
     e_expiry e = spec_expiry sampleNow (Some (100 * Millisecond)) 0) ∧
  (∀ t rest, t <= 0 →
     expiryFor ttlConfig (t :: rest) sampleNow = expiryFor ttlConfig [] sampleNow ∧
     spec_expiry sampleNow (Some t) 0 = spec_expiry sampleNow None 0).
Proof.
  apply (Set_expiry (freshCache ttlConfig) "ttl_key" (VString "ttl_value")
           [100 * Millisecond] sampleNow afterTTLSet).
  - vm_compute. reflexivity.
  - vm_compute. split; [discriminate|reflexivity].
Defined.

Lemma Get_expired_misses_witness :
  ∃ c2, Get "ttl_key" (sampleNow + 150 * Millisecond) afterTTLSet
        = Returned (None, false) c2 ∧
        totalMiss c2 = add64 (totalMiss afterTTLSet) 1.
Proof.
  apply (proj2 Get_expired_misses (freshCache ttlConfig) "ttl_key"
           (VString "ttl_value") (100 * Millisecond) [] sampleNow
           (sampleNow + 150 * Millisecond) afterTTLSet).
  - vm_compute. reflexivity.
  - vm_compute. reflexivity.
  - vm_compute. discriminate.
  - vm_compute. reflexivity.
  - vm_compute. reflexivity.
Defined.


(** * Further properties of the code *)

(** ** The shape of a cache *)

#[export] Instance same_shape_frame : FrameRel same_shape.
Proof.
  split; unfold same_shape; simpl; intros; try done.
  - destruct H as (?&?), H0 as (?&?). split; congruence.
  - by rewrite length_alter.
Qed.

(** A relation that every write respects is respected by every operation. *)
Lemma frame_every_step R `{!FrameRel R} :
  frame R ResetStats → frame R Close → ∀ op, frame R (step op).
Proof.
  intros HR HC op.
  assert (Hret : ∀ A (m : M A) (k : A → Res),
             frame R m → frame R (r' <-- m ;; ret (k r'))).
  { intros A m k Hm. apply (frame_bind R); [done|]. intros a. apply (frame_ret R). }
  destruct op; simpl.
  - apply Hret, (frame_Set R).
  - apply Hret, (frame_Get R).
  - apply Hret, (frame_Delete R).
  - apply (Hret _ _ (λ _, RUnit)), (frame_Clear R).
  - by apply Hret.
  - by apply (Hret _ _ (λ _, RUnit)).
  - apply (Hret _ _ (λ _, RUnit)), (frame_evictIfNeeded R).
  - apply (Hret _ _ (λ _, RUnit)), (frame_cleanupRoutine R).
  - apply (Hret _ _ (λ _, RUnit)), (frame_runGoroutine R).
Qed.

Lemma step_same_shape op : frame same_shape (step op).
Proof.
  apply (frame_every_step same_shape).
  - intros c. unfold ResetStats, bind, modify, same_shape. simpl.
    by rewrite length_fmap.
  - intros c. unfold Close. by destruct (closed c =? 0).
Qed.

Lemma reachable_shape c :
  reachable c →
  0 <= ShardCount (config c) ∧
  length (shards c) = Z.to_nat (ShardCount (config c)).
Proof.
  induction 1 as [cfg c Hnew|c op r c' _ IH Hstep].
  - unfold New in Hnew. destruct (Z.ltb_spec (ShardCount (default DefaultConfig cfg)) 0);
      [done|]. simplify_eq. simpl. by rewrite length_replicate.
  - pose proof (step_same_shape op c) as Hs. rewrite Hstep in Hs.
    destruct Hs as [-> ->]. done.
Qed.

Lemma reachable_shard_inv c i s :
  reachable c → shards c !! i = Some s → shard_inv s.
Proof.
  intros Hr Hs. destruct (reachable_cache_inv c Hr) as [Hall _].
  by apply (Forall_lookup_1 _ _ _ _ Hall Hs).
Qed.

(** ** The configuration built by [CustomConfig] *)

Lemma CustomConfig_in_range mb n ttl :
  0 < mb < 2 ^ 43 →
  MaxMemoryBytes (CustomConfig mb n ttl) = mb * 1024 * 1024 ∧
  (Validate (CustomConfig mb n ttl) = None ↔ 1 <= n <= 65536) ∧
  (∀ e, Validate (CustomConfig mb n ttl) = Some e →
        ∃ m, e = ErrInvalidConfig "ShardCount" m).
Proof.
  intros Hmb.
  assert (Hmax : MaxMemoryBytes (CustomConfig mb n ttl) = mb * 1024 * 1024).
  { simpl. rewrite (wrap64_id (mb * 1024)) by (unfold int64_range; lia).
    apply wrap64_id. unfold int64_range. lia. }
  split; [done|]. unfold Validate. rewrite Hmax. simpl ShardCount. simpl CleanupInterval.
  destruct (Z.leb_spec (mb * 1024 * 1024) 0); [lia|].
  destruct (Z.leb_spec n 0); [split; [split; [done|lia]|intros; simplify_eq; eauto]|].
  destruct (Z.ltb_spec 65536 n); [split; [split; [done|lia]|intros; simplify_eq; eauto]|].
  split; [split; [lia|done]|]. intros e. vm_compute. done.
Qed.

(** X1.  For a memory budget of at least one megabyte and below 2^43
    megabytes, [CustomConfig] yields a budget of exactly that many bytes
    (times 2^20); [Validate] accepts the configuration exactly when the
    shard count lies between 1 and 65536, whatever the TTL, and any error it
    reports is about the field [ShardCount].  At 2^43 megabytes the product
    overflows [int64] and [Validate] rejects the budget. *)
Theorem CustomConfig_valid mb n ttl :
  0 < mb < 2 ^ 43 →
  MaxMemoryBytes (CustomConfig mb n ttl) = mb * 1024 * 1024 ∧
  (Validate (CustomConfig mb n ttl) = None ↔ 1 <= n <= 65536) ∧
  (∀ e, Validate (CustomConfig mb n ttl) = Some e →
        ∃ m, e = ErrInvalidConfig "ShardCount" m) ∧
  Validate (CustomConfig (2 ^ 43) n ttl)
  = Some (ErrInvalidConfig "MaxMemoryBytes" "must be greater than 0").
Proof.
  intros Hmb.
  destruct (CustomConfig_in_range mb n ttl Hmb) as (H1 & H2 & H3).
  split; [done|]. split; [done|]. split; [done|]. reflexivity.
Qed.

(** ** The shard of a key *)

(** X2.  In every state reached from [New] with a shard count between 1 and
    2^32 - 1, [getShard] returns for every key, without a panic: the index
    it selects is the hash of the key modulo the shard count and lies within
    the slice of shards. *)
Theorem getShard_in_range c key :
  reachable c → 1 <= ShardCount (config c) < 2 ^ 32 →
  ∃ i, getShard key c = Returned i c ∧
       (i < length (shards c))%nat ∧
       Z.of_nat i = hash key mod ShardCount (config c).
Proof.
  intros Hr Hn. destruct (reachable_shape c Hr) as [_ Hlen].
  unfold getShard, wrap32u. rewrite Z.mod_small by lia.
  destruct (Z.eqb_spec (ShardCount (config c)) 0) as [?|_]; [lia|].
  assert (Hm : 0 <= hash key mod ShardCount (config c) < ShardCount (config c))
    by (apply Z.mod_pos_bound; lia).
  assert (Hi : (Z.to_nat (hash key mod ShardCount (config c)) < length (shards c))%nat)
    by lia.
  destruct (lookup_lt_is_Some_2 _ _ Hi) as [s Hs]. rewrite Hs.
  eexists. split; [done|]. split; [done|]. lia.
Qed.

(** X3.  [New] does not validate: it accepts a configuration whose shard
    count is 0 (or a positive multiple of 2^32, which [uint32] truncates to
    0), and on the open cache it returns every [Set], [Get] and [Delete]
    panics on the division by zero in [getShard], leaving the cache as it
    was. *)
Theorem zero_shards_panic cfg :
  ShardCount cfg `mod` 2 ^ 32 = 0 → 0 <= ShardCount cfg →
  ∃ c, New (Some cfg) = Some c ∧ closed c = 0 ∧
    ∀ key value ttl now,
      Set_ key value ttl now c = Panicked c ∧
      Get key now c = Panicked c ∧
      Delete key c = Panicked c.
Proof.
  intros Hz Hpos. eexists. split.
  { unfold New. simpl. destruct (Z.ltb_spec (ShardCount cfg) 0); [lia|done]. }
  split; [done|]. intros key value ttl now.
  unfold Set_, Get, Delete, bind, getShard, wrap32u. simpl. rewrite Hz. done.
Qed.

(** ** Delete *)

Lemma Delete_present c i s key e :
  closed c ≠ 1 → getShard key c = Returned i c →
  shards c !! i = Some s → s_mu s = false → s_data s !! key = Some e →
  Delete key c =
  Returned true
    (withTotalSize (λ t, add64 t (neg64 (e_size e)))
       (putShard i (without key e s) c)).
Proof.
  intros Hcl Hi Hs Hmu He.
  assert (Hlen : (i < length (shards c))%nat) by (by eapply lookup_lt_Some).
  unfold Delete. rewrite (proj2 (Z.eqb_neq _ _) Hcl).
  unfold bind at 1. rewrite Hi.
  unfold bind at 1. rewrite (Lock_free c i s) by done.
  unfold defer. unfold bind at 1.
  rewrite (shardAt_Some _ i (withMu true s)) by (by apply putShard_lookup).
  cbn [s_data withMu]. rewrite He.
  unfold removeEntry, bind, Unlock, updShard, modify, ret, putShard, withShards,
    withTotalSize. simpl.
  rewrite !alter_insert_known by (by rewrite ?length_insert).
  do 3 f_equal. unfold without. destruct s; simpl in *; by subst.
Qed.

Lemma Delete_absent c i s key :
  closed c ≠ 1 → getShard key c = Returned i c →
  shards c !! i = Some s → s_mu s = false → s_data s !! key = None →
  Delete key c = Returned false c.
Proof.
  intros Hcl Hi Hs Hmu He.
  assert (Hlen : (i < length (shards c))%nat) by (by eapply lookup_lt_Some).
  unfold Delete. rewrite (proj2 (Z.eqb_neq _ _) Hcl).
  unfold bind at 1. rewrite Hi.
  unfold bind at 1. rewrite (Lock_free c i s) by done.
  unfold defer. unfold bind at 1.
  rewrite (shardAt_Some _ i (withMu true s)) by (by apply putShard_lookup).
  cbn [s_data withMu]. rewrite He.
  unfold bind, Unlock, updShard, modify, ret, putShard, withShards. simpl.
  rewrite !alter_insert_known by (by rewrite ?length_insert).
  f_equal. cbn [withMu s_data s_lruList s_size s_hitCount s_missCount s_mu].
  rewrite list_insert_id; [by destruct c|].
  rewrite Hs. f_equal. destruct s; simpl in *; by subst.
Qed.

(** What a call that got past the closed check and the lock had before it. *)
Lemma Delete_Returned_shard key c r c' :
  Delete key c = Returned r c' → closed c ≠ 1 →
  ∃ i s, getShard key c = Returned i c ∧ shards c !! i = Some s ∧
         s_mu s = false.
Proof.
  intros H Hcl. unfold Delete in H.
  rewrite (proj2 (Z.eqb_neq _ _) Hcl) in H.
  apply bind_Returned in H as (i & c1 & Hi & H).
  pose proof Hi as Hi'. apply getShard_Returned in Hi' as [-> _].
  apply bind_Returned in H as ([] & c2 & HL & _).
  apply Lock_Returned in HL as (s & Hs & Hmu & _). eauto.
Qed.

Lemma getShard_putShard key c i j s f :
  getShard key c = Returned i c → (j < length (shards c))%nat →
  config (f (putShard j s c)) = config c →
  shards (f (putShard j s c)) = shards (putShard j s c) →
  getShard key (f (putShard j s c)) = Returned i (f (putShard j s c)).
Proof.
  intros Hi Hj Hcfg Hsh. apply (getShard_same key c _ i Hi Hcfg).
  rewrite Hsh. apply lookup_lt_is_Some. simpl. rewrite length_insert.
  apply getShard_Returned in Hi as [_ Hi]. by apply lookup_lt_is_Some.
Qed.

(** X4.  A [Delete] that returns on an open cache found the shard of the key
    unlocked and, if the key was absent, returns [false] and leaves the
    cache exactly as it was; if the key was present with entry [e], it
    returns [true] and the cache differs only in that shard and in the total
    size: the key is gone from the map and from the recency list, whose other
    keys keep their order, and the size of [e] is taken off the shard's size
    and off the total size.  The lock of the shard is released. *)
Theorem Delete_spec c key r c' :
  closed c ≠ 1 → Delete key c = Returned r c' →
  ∃ i s, getShard key c = Returned i c ∧ shards c !! i = Some s ∧
    match s_data s !! key with
    | None => r = false ∧ c' = c
    | Some e =>
        r = true ∧
        c' = withTotalSize (λ t, add64 t (neg64 (e_size e)))
               (putShard i (without key e s) c)
    end.
Proof.
  intros Hcl H.
  destruct (Delete_Returned_shard key c r c' H Hcl) as (i & s & Hi & Hs & Hmu).
  exists i, s. split; [done|]. split; [done|].
  destruct (s_data s !! key) as [e|] eqn:He.
  - rewrite (Delete_present c i s key e) in H by done. by simplify_eq.
  - rewrite (Delete_absent c i s key) in H by done. by simplify_eq.
Qed.

(** X5.  Deleting is idempotent and a deleted key is gone: after a [Delete]
    that returned, whatever its result, a second [Delete] of the same key
    returns [false] and changes nothing, and a [Get] of the key is a
    miss. *)
Theorem Delete_gone c key r c' :
  Delete key c = Returned r c' →
  Delete key c' = Returned false c' ∧
  ∀ now, ∃ c'', Get key now c' = Returned (None, false) c''.
Proof.
  intros H. destruct (decide (closed c = 1)) as [Hcl|Hcl].
  - unfold Delete in H. rewrite Hcl in H. simpl in H. simplify_eq.
    unfold Delete, Get. rewrite Hcl. simpl. eauto.
  - destruct (Delete_Returned_shard key c r c' H Hcl) as (i & s & Hi & Hs & Hmu).
    assert (Hlen : (i < length (shards c))%nat) by (by eapply lookup_lt_Some).
    destruct (s_data s !! key) as [e|] eqn:He.
    + rewrite (Delete_present c i s key e) in H by done.
      injection H as <- <-.
      set (c' := withTotalSize _ _).
      assert (Hi1 : getShard key c' = Returned i c').
      { unfold c'. by apply getShard_putShard. }
      assert (Hs1 : shards c' !! i = Some (without key e s)).
      { simpl. by apply list_lookup_insert_eq. }
      assert (Hk : s_data (without key e s) !! key = None).
      { simpl. apply lookup_delete_eq. }
      split.
      * by apply (Delete_absent c' i (without key e s)).
      * intros now. eexists. by apply (Get_absent c' i (without key e s)).
    + rewrite (Delete_absent c i s key) in H by done.
      injection H as <- <-.
      split; [by apply (Delete_absent c i s)|].
      intros now. eexists. by apply (Get_absent c i s).
Qed.

(** ** Get: accounting and recency *)

Lemma Get_Returned_shard key now c r c' :
  Get key now c = Returned r c' → closed c ≠ 1 →
  ∃ i s, getShard key c = Returned i c ∧ shards c !! i = Some s ∧
         s_mu s = false.
Proof.
  intros H Hcl. unfold Get in H.
  rewrite (proj2 (Z.eqb_neq _ _) Hcl) in H.
  apply bind_Returned in H as (i & c1 & Hi & H).
  pose proof Hi as Hi'. apply getShard_Returned in Hi' as [-> _].
  apply bind_Returned in H as ([] & c2 & HL & _).
  unfold RLock in HL. apply bind_Returned in HL as (s & c3 & Hs & HL).
  apply shardAt_Returned in Hs as [-> Hs].
  destruct (s_mu s) eqn:Hmu; [done|]. eauto.
Qed.

(** X6.  A [Get] that returns on an open cache touches only the shard of the
    key and the two counters of the cache.  It never changes the map, the
    size or the lock of the shard, nor the total size.  A hit adds one to the
    hit counter of the shard and of the cache and leaves the miss counters;
    a miss returns no value, adds one to the miss counter of the shard and
    of the cache, and leaves the hit counters and the recency list. *)
Theorem Get_accounting c key now v ok c' :
  closed c ≠ 1 → Get key now c = Returned (v, ok) c' →
  ∃ i s s',
    getShard key c = Returned i c ∧ shards c !! i = Some s ∧
    shards c' = <[i:=s']> (shards c) ∧
    s_data s' = s_data s ∧ s_size s' = s_size s ∧ s_mu s' = s_mu s ∧
    totalSize c' = totalSize c ∧
    (if ok then
       totalHits c' = add64 (totalHits c) 1 ∧ totalMiss c' = totalMiss c ∧
       s_hitCount s' = add64 (s_hitCount s) 1 ∧ s_missCount s' = s_missCount s
     else
       v = None ∧
       totalMiss c' = add64 (totalMiss c) 1 ∧ totalHits c' = totalHits c ∧
       s_missCount s' = add64 (s_missCount s) 1 ∧ s_hitCount s' = s_hitCount s ∧
       s_lruList s' = s_lruList s).
Proof.
  intros Hcl H.
  destruct (Get_Returned_shard key now c _ c' H Hcl) as (i & s & Hi & Hs & Hmu).
  exists i, s.
  destruct (s_data s !! key) as [e|] eqn:He;
    [destruct (isExpired e now) eqn:Hexp|].
  - rewrite (Get_expired c i s key e) in H by done. simplify_eq.
    eexists. repeat split; try reflexivity; done.
  - rewrite (Get_hit c i s key e) in H by done. simplify_eq.
    eexists. repeat split; try reflexivity; done.
  - rewrite (Get_absent c i s key) in H by done. simplify_eq.
    eexists. repeat split; try reflexivity; done.
Qed.

Lemma Back_MoveToFront key l k :
  k ∈ l → k ≠ key → key ∈ l →
  ∃ k', Back (MoveToFront key l) = Some k' ∧ k' ≠ key ∧ k' ∈ l.
Proof.
  intros Hk Hne Hkey. unfold MoveToFront, Back. rewrite decide_True by done.
  assert (Hin : k ∈ Remove key l) by (by apply Remove_elem_of).
  rewrite last_cons.
  destruct (last (Remove key l)) as [k'|] eqn:Hlast.
  - exists k'. split; [done|]. apply last_Some_elem_of in Hlast.
    by apply Remove_elem_of in Hlast as [? ?].
  - apply last_None in Hlast. rewrite Hlast in Hin. by apply elem_of_nil in Hin.
Qed.

(** X7.  A hit protects the key from the next eviction.  In a well-formed,
    unlocked shard that holds the live key and at least one other key, [Get]
    returns the value, and an eviction from that shard right after it
    returns having removed exactly one other key: the entry of the key that
    was read is still in the map. *)
Theorem Get_hit_survives_eviction c i s key e now k :
  closed c ≠ 1 → getShard key c = Returned i c →
  shards c !! i = Some s → s_mu s = false → shard_wf s →
  s_data s !! key = Some e → isExpired e now = false →
  k ≠ key → is_Some (s_data s !! k) →
  ∃ c1 c2 s2 victim,
    Get key now c = Returned (Some (e_value e), true) c1 ∧
    evictFromShard i 1 c1 = Returned tt c2 ∧
    shards c2 !! i = Some s2 ∧
    victim ≠ key ∧ is_Some (s_data s !! victim) ∧
    s_data s2 = delete victim (s_data s) ∧
    s_data s2 !! key = Some e.
Proof.
  intros Hcl Hi Hs Hmu Hwf He Hexp Hne Hk.
  assert (Hlen : (i < length (shards c))%nat) by (by eapply lookup_lt_Some).
  destruct Hwf as (Hnd & Hmem & Hkey).
  set (s1 := withHitCount (λ n, add64 n 1) (withLruList (MoveToFront key) s)).
  set (c1 := withTotalHits (λ n, add64 n 1) (putShard i s1 c)).
  assert (Hwf1 : shard_wf s1).
  { split; [|split]; simpl; [by apply MoveToFront_NoDup| |done].
    intros x. by rewrite MoveToFront_elem_of. }
  assert (Hs1 : shards c1 !! i = Some s1) by (by apply list_lookup_insert_eq).
  destruct (Back_MoveToFront key (s_lruList s) k) as (victim & Hback & Hv & Hin);
    [by apply Hmem|done|apply Hmem; by eexists|].
  apply Hmem in Hin as [ev Hev].
  exists c1, (afterEvict i s1 c1), (evictShard s1 ev), victim.
  split; [by apply Get_hit|].
  split; [apply evictFromShard_free; [done|done|by apply shard_wf_back_ok]|].
  assert (Hvict : lruVictim s1 = Some ev).
  { unfold lruVictim. simpl. rewrite Hback. simpl. done. }
  unfold afterEvict. rewrite Hvict.
  split; [simpl; rewrite list_lookup_insert_eq; [done|by rewrite length_insert]|].
  split; [done|]. split; [by eexists|].
  simpl. rewrite (Hkey victim ev Hev). split; [done|].
  by rewrite lookup_delete_ne.
Qed.

(** ** Set within the budget *)

Lemma storeEntry_withMu key value expiry b s :
  storeEntry key value expiry (withMu b s)
  = withMu b (storeEntry key value expiry s).
Proof. unfold storeEntry. simpl. by destruct (s_data s !! key). Qed.

Lemma Set_within_budget c i s key value ttl now :
  closed c ≠ 1 → getShard key c = Returned i c →
  shards c !! i = Some s → s_mu s = false →
  add64 (totalSize c) (storeDelta key value s) <= MaxMemoryBytes (config c) →
  Set_ key value ttl now c =
  Returned None
    (withTotalSize (λ t, add64 t (storeDelta key value s))
       (putShard i (storeEntry key value (expiryFor (config c) ttl now) s) c)).
Proof.
  intros Hcl Hi Hs Hmu Hfit.
  assert (Hlen : (i < length (shards c))%nat) by (by eapply lookup_lt_Some).
  rewrite (Set_unfold c i s) by done.
  unfold defer, bind, evictIfNeeded, stored. simpl.
  rewrite (proj2 (Z.leb_le _ _) Hfit).
  unfold ret, Unlock, updShard, modify, putShard, withShards, withTotalSize.
  simpl. rewrite alter_insert_known by done.
  rewrite storeEntry_withMu. do 3 f_equal.
  rewrite <- Hmu. destruct (storeEntry _ _ _ s) eqn:E.
  unfold withMu. simpl. f_equal.
  pose proof (storeEntry_mu key value (expiryFor (config c) ttl now) s) as H.
  rewrite E in H. simpl in H. done.
Qed.

Lemma storeEntry_size key value expiry s :
  s_size (storeEntry key value expiry s)
  = add64 (s_size s) (storeDelta key value s).
Proof. unfold storeEntry, storeDelta. by destruct (s_data s !! key). Qed.

Lemma storeEntry_lruList key value expiry s :
  (∀ k, k ∈ s_lruList s ↔ is_Some (s_data s !! k)) →
  s_lruList (storeEntry key value expiry s) = key :: Remove key (s_lruList s).
Proof.
  intros Hmem. unfold storeEntry.
  destruct (s_data s !! key) as [e|] eqn:He; simpl.
  - unfold MoveToFront. rewrite decide_True; [done|]. apply Hmem. by eexists.
  - unfold PushFront. rewrite Remove_not_in; [done|].
    rewrite Hmem, He. by intros [? ?].
Qed.

(** X8.  On an open cache whose total size, the new entry counted, stays
    within the budget, [Set] returns [nil], and the cache differs only in the
    shard of the key and in the total size.  In that shard the key is bound
    to an entry with the given value, the size computed by [calculateSize]
    and the expiry computed from the TTL; every other key keeps its entry;
    the key is at the front of the recency list and the other keys keep
    their order; the shard's size and the total size have both moved by the
    size of the new entry less the size of the entry it replaces, if any; the
    lock is released and the hit and miss counters are untouched. *)
Theorem Set_under_budget c i s key value ttl now :
  closed c ≠ 1 → getShard key c = Returned i c →
  shards c !! i = Some s → s_mu s = false → shard_wf s →
  add64 (totalSize c) (storeDelta key value s) <= MaxMemoryBytes (config c) →
  ∃ s' e,
    Set_ key value ttl now c =
      Returned None
        (withTotalSize (λ t, add64 t (storeDelta key value s)) (putShard i s' c)) ∧
    s_data s' = <[key:=e]> (s_data s) ∧
    e_key e = key ∧ e_value e = value ∧ e_size e = calculateSize key value ∧
    e_expiry e = expiryFor (config c) ttl now ∧
    s_lruList s' = key :: Remove key (s_lruList s) ∧
    s_size s' = add64 (s_size s) (storeDelta key value s) ∧
    s_mu s' = false ∧
    s_hitCount s' = s_hitCount s ∧ s_missCount s' = s_missCount s.
Proof.
  intros Hcl Hi Hs Hmu (Hnd & Hmem & Hkey) Hfit.
  exists (storeEntry key value (expiryFor (config c) ttl now) s).
  exists {| e_key := key; e_value := value; e_size := calculateSize key value;
            e_expiry := expiryFor (config c) ttl now |}.
  split; [by apply Set_within_budget|].
  split; [|split; [done|split; [done|split; [done|split; [done|]]]]].
  { unfold storeEntry. destruct (s_data s !! key) as [e|] eqn:He; simpl; [|done].
    by rewrite (Hkey key e He). }
  split; [by apply storeEntry_lruList|].
  split; [apply storeEntry_size|].
  split; [by rewrite storeEntry_mu|].
  unfold storeEntry. by destruct (s_data s !! key).
Qed.

(** ** The sweep of expired entries *)

Lemma removeEntry_known c i s key e :
  shards c !! i = Some s →
  removeEntry i key e c =
  Returned tt (withTotalSize (λ t, add64 t (neg64 (e_size e)))
                 (putShard i (without key e s) c)).
Proof.
  intros Hs.
  assert (Hlen : (i < length (shards c))%nat) by (by eapply lookup_lt_Some).
  unfold removeEntry, bind, updShard, modify, putShard, withShards,
    withTotalSize. simpl.
  rewrite (alter_known _ i (shards c) s) by done.
  rewrite !alter_insert_known by (by rewrite ?length_insert). done.
Qed.

Lemma filter_all {A} (P : A → Prop) `{!∀ x, Decision (P x)} (l : list A) :
  (∀ x, x ∈ l → P x) → filter P l = l.
Proof.
  induction l as [|x l IH]; intros Hall; [done|].
  rewrite filter_cons_True by (apply Hall; left).
  f_equal. apply IH. intros y Hy. apply Hall. by right.
Qed.

(** The loop of [cleanupExpired] over the keys collected in one shard. *)
Lemma sweep_loop i keys : ∀ c s,
  shards c !! i = Some s → NoDup keys →
  (∀ k, k ∈ keys → is_Some (s_data s !! k)) →
  ∃ t s',
    forM_ keys (λ key, s' <-- shardAt i ;;
                       match s_data s' !! key with
                       | None => panic
                       | Some entry => removeEntry i key entry
                       end) c
    = Returned tt (withTotalSize (λ _, t) (putShard i s' c)) ∧
    (∀ k, s_data s' !! k = if decide (k ∈ keys) then None else s_data s !! k) ∧
    s_lruList s' = filter (λ k, k ∉ keys) (s_lruList s) ∧
    s_mu s' = s_mu s ∧
    s_hitCount s' = s_hitCount s ∧ s_missCount s' = s_missCount s.
Proof.
  induction keys as [|key keys IH]; intros c s Hs Hnd Hin.
  - exists (totalSize c), s. cbn [forM_]. split.
    { unfold ret. f_equal. unfold putShard, withShards, withTotalSize.
      rewrite list_insert_id by done. by destruct c. }
    split; [intros k; rewrite decide_False; [done|apply not_elem_of_nil]|].
    split; [|done].
    symmetry. apply filter_all. intros x _. apply not_elem_of_nil.
  - apply NoDup_cons in Hnd as [Hkey Hnd].
    destruct (Hin key) as [e He]; [left|].
    assert (Hlen : (i < length (shards c))%nat) by (by eapply lookup_lt_Some).
    set (c1 := withTotalSize (λ t, add64 t (neg64 (e_size e)))
                 (putShard i (without key e s) c)).
    destruct (IH c1 (without key e s)) as (t & s' & Hloop & Hdata & Hlru & Hmu & Hh & Hm).
    { by apply list_lookup_insert_eq. }
    { done. }
    { intros k Hk. simpl. rewrite lookup_delete_ne; [apply Hin; by right|].
      intros <-. done. }
    exists t, s'. cbn [forM_]. unfold bind at 1. unfold bind at 1.
    rewrite (shardAt_Some c i s) by done. rewrite He.
    rewrite (removeEntry_known c i s) by done. fold c1. rewrite Hloop.
    split.
    { f_equal. unfold c1, putShard, withShards, withTotalSize. simpl.
      by rewrite list_insert_insert_eq. }
    split.
    { intros k. rewrite Hdata. simpl.
      destruct (decide (k = key)) as [->|Hne].
      - rewrite lookup_delete_eq. rewrite (decide_True (P := key ∈ key :: keys)) by left.
        by case_decide.
      - rewrite lookup_delete_ne by done.
        destruct (decide (k ∈ keys)) as [Hk|Hk].
        + rewrite decide_True; [done|by right].
        + rewrite decide_False; [done|]. rewrite not_elem_of_cons. done. }
    split; [|done].
    rewrite Hlru. simpl. unfold Remove. rewrite list_filter_filter.
    apply list_filter_iff. intros x. rewrite not_elem_of_cons. tauto.
Qed.

Lemma elem_of_expiredKeys now data k :
  k ∈ expiredKeys now data ↔ ∃ e, data !! k = Some e ∧ isExpired e now = true.
Proof.
  unfold expiredKeys. rewrite list_elem_of_fmap. split.
  - intros ([k' e] & -> & H). apply elem_of_map_to_list in H.
    apply map_lookup_filter_Some in H as [H1 H2]. eauto.
  - intros (e & H1 & H2). exists (k, e). split; [done|].
    apply elem_of_map_to_list. by apply map_lookup_filter_Some.
Qed.

Lemma cleanupShard_free now i c s :
  shards c !! i = Some s → s_mu s = false →
  ∃ t s', cleanupShard now i c
          = Returned tt (withTotalSize (λ _, t) (putShard i s' c)) ∧
          swept now s s'.
Proof.
  intros Hs Hmu.
  assert (Hlen : (i < length (shards c))%nat) by (by eapply lookup_lt_Some).
  set (c1 := putShard i (withMu true s) c).
  destruct (sweep_loop i (expiredKeys now (s_data s)) c1 (withMu true s))
    as (t & s' & Hloop & Hdata & Hlru & Hmu' & Hh & Hm).
  { by apply list_lookup_insert_eq. }
  { apply NoDup_fst_map_to_list. }
  { intros k Hk. apply elem_of_expiredKeys in Hk as (e & He & _). by eexists. }
  exists t, (withMu false s').
  unfold cleanupShard. unfold bind at 1. rewrite (Lock_free c i s) by done.
  fold c1. unfold bind at 1.
  rewrite (shardAt_Some c1 i (withMu true s)) by (by apply list_lookup_insert_eq).
  unfold bind at 1. cbn [s_data withMu]. rewrite Hloop.
  split.
  - unfold Unlock, updShard, modify, c1, putShard, withShards, withTotalSize.
    simpl. rewrite list_insert_insert_eq.
    by rewrite alter_insert_known.
  - split; [|split; [|done]]; simpl.
    + apply map_eq. intros k. rewrite Hdata. simpl.
      destruct (s_data s !! k) as [e|] eqn:He.
      * destruct (isExpired e now) eqn:Hexp.
        -- rewrite decide_True by (apply elem_of_expiredKeys; eauto).
           symmetry. apply map_lookup_filter_None. right. intros e' He'.
           simpl. rewrite He in He'. injection He' as <-. by rewrite Hexp.
        -- rewrite decide_False.
           ++ symmetry. by apply map_lookup_filter_Some.
           ++ rewrite elem_of_expiredKeys. intros (e' & He' & Hx).
              rewrite He in He'. injection He' as <-. by rewrite Hexp in Hx.
      * rewrite decide_False.
        -- symmetry. apply map_lookup_filter_None. by left.
        -- rewrite elem_of_expiredKeys. intros (e' & He' & _). by rewrite He in He'.
    + by rewrite Hlru.
Qed.

(** X9.  With no shard lock held, [cleanupExpired] returns.  Afterwards
    every shard holds exactly its entries that are not expired at [now], each
    one unchanged; its recency list is the old one without the keys of the
    expired entries, in the old order; no lock is held; the hit and miss
    counters, the configuration, the closed flag and the pending deletes are
    the ones from before; and the size accounting of the shards and of the
    cache still holds if it held before. *)
Theorem cleanupExpired_spec now c :
  quiescent c →
  ∃ c', cleanupExpired now c = Returned tt c' ∧
    config c' = config c ∧
    totalHits c' = totalHits c ∧ totalMiss c' = totalMiss c ∧
    closed c' = closed c ∧ stopCh c' = stopCh c ∧
    goroutines c' = goroutines c ∧
    length (shards c') = length (shards c) ∧
    (∀ i s, shards c !! i = Some s →
       ∃ s', shards c' !! i = Some s' ∧ swept now s s') ∧
    quiescent c' ∧
    (cache_inv c → cache_inv c').
Proof.
  intros Hq. unfold cleanupExpired.
  destruct (forM_seq_returns (swept_below c now) (cleanupShard now)
              (length (shards c)) 0) with (c := c) as (c' & Hrun & HP).
  - intros i c1 [_ Hi] (Hcfg & Hh & Hm & Hcl & Hst & Hg & Hlen & Hsh).
    destruct (lookup_lt_is_Some_2 (shards c) i) as [s Hs]; [lia|].
    destruct (Hsh i s Hs) as (s1 & Hs1 & Hcase).
    rewrite decide_False in Hcase by lia. subst s1.
    assert (Hmu : s_mu s = false).
    { unfold quiescent in Hq. by apply (Forall_lookup_1 _ _ _ _ Hq Hs). }
    destruct (cleanupShard_free now i c1 s Hs1 Hmu) as (t & s' & Hrun & Hsw).
    eexists. split; [exact Hrun|].
    repeat split; simpl; try done.
    + by rewrite length_insert.
    + intros k sk Hk. destruct (Hsh k sk Hk) as (sk' & Hk' & Hcase).
      destruct (decide (k = i)) as [->|Hne].
      * rewrite Hs in Hk. injection Hk as <-.
        exists s'. rewrite list_lookup_insert_eq by (by eapply lookup_lt_Some).
        split; [done|]. by rewrite decide_True by lia.
      * exists sk'. rewrite list_lookup_insert_ne by done. split; [done|].
        destruct (decide (k < i)%nat), (decide (k < S i)%nat); try done; lia.
  - repeat split; try done. intros i s Hs. exists s. split; [done|].
    by rewrite decide_False by lia.
  - pose proof HP as (Hcfg & Hh & Hm & Hcl & Hst & Hg & Hlen & Hsh).
    assert (Hall : ∀ i s, shards c !! i = Some s →
                     ∃ s', shards c' !! i = Some s' ∧ swept now s s').
    { intros i s Hs. destruct (Hsh i s Hs) as (s' & Hs' & Hcase).
      exists s'. split; [done|].
      rewrite decide_True in Hcase; [done|]. by eapply lookup_lt_Some. }
    exists c'. do 8 (split; [done|]). split; [done|]. split.
    + unfold quiescent. apply Forall_lookup. intros i s' Hs'.
      destruct (lookup_lt_is_Some_2 (shards c) i) as [s Hs].
      { rewrite <- Hlen. by eapply lookup_lt_Some. }
      destruct (Hall i s Hs) as (s1 & Hs1 & Hsw).
      rewrite Hs' in Hs1. injection Hs1 as <-. apply Hsw.
    + intros Hinv. revert Hrun.
      apply (forM_Returned cache_inv); [|done].
      intros i c1 c2. apply cache_inv_cleanupShard.
Qed.

(** ** Eviction of several entries from one shard *)

Lemma shard_wf_without s key e :
  shard_wf s → shard_wf (without key e s).
Proof.
  intros (Hnd & Hmem & Hkey). split; [|split]; simpl.
  - by apply Remove_NoDup.
  - intros k. rewrite Remove_elem_of, Hmem.
    destruct (decide (k = key)) as [->|Hne].
    + rewrite lookup_delete_eq. split; [naive_solver|]. by intros [? ?].
    + rewrite lookup_delete_ne by done. naive_solver.
  - intros k e'. rewrite lookup_delete_Some. intros [_ ?]. by apply Hkey.
Qed.

Lemma removelast_take {A} (l : list A) : removelast l = take (length l - 1) l.
Proof.
  rewrite removelast_firstn_len. f_equal. lia.
Qed.

(** The loop of [evictFromShard] on a well-formed shard. *)
Lemma evictLoop_wf i n : ∀ c s,
  shards c !! i = Some s → shard_wf s →
  ∃ t s',
    evictLoop i n c = Returned tt (withTotalSize (λ _, t) (putShard i s' c)) ∧
    s_lruList s' = take (length (s_lruList s) - n) (s_lruList s) ∧
    (∀ k, s_data s' !! k
          = if decide (k ∈ s_lruList s') then s_data s !! k else None) ∧
    s_mu s' = s_mu s ∧
    s_hitCount s' = s_hitCount s ∧ s_missCount s' = s_missCount s ∧
    (cache_inv c → cache_inv (withTotalSize (λ _, t) (putShard i s' c))).
Proof.
  induction n as [|n IH]; intros c s Hs Hwf.
  - exists (totalSize c), s. simpl. split.
    { unfold ret. f_equal. unfold putShard, withShards, withTotalSize.
      rewrite list_insert_id by done. by destruct c. }
    assert (Hid : withTotalSize (λ _, totalSize c) (putShard i s c) = c).
    { unfold putShard, withShards, withTotalSize.
      rewrite list_insert_id by done. by destruct c. }
    rewrite Nat.sub_0_r, firstn_all. split; [done|].
    split; [|by rewrite Hid].
    intros k. destruct Hwf as (_ & Hmem & _). case_decide as Hk; [done|].
    rewrite Hmem in Hk. by apply eq_None_not_Some.
  - assert (Hlen : (i < length (shards c))%nat) by (by eapply lookup_lt_Some).
    cbn [evictLoop]. unfold bind at 1. rewrite (shardAt_Some c i s) by done.
    destruct (Back (s_lruList s)) as [oldest|] eqn:Hback.
    + destruct (shard_wf_back_ok s Hwf oldest Hback) as [e He]. rewrite He.
      pose proof Hwf as (Hnd & Hmem & Hkey).
      set (c1 := withTotalSize (λ t, add64 t (neg64 (e_size e)))
                   (putShard i (without oldest e s) c)).
      destruct (IH c1 (without oldest e s)) as (t & s' & Hloop & Hlru & Hdata & Hmu & Hh & Hm & Hinv).
      { by apply list_lookup_insert_eq. }
      { by apply shard_wf_without. }
      exists t, s'.
      assert (Hc1 : (updShard i (withData (delete (e_key e))) ;;
                     updShard i (withLruList RemoveBack) ;;
                     modify (withTotalSize (λ t, add64 t (neg64 (e_size e)))) ;;
                     updShard i (withSize (λ t, add64 t (neg64 (e_size e)))) ;;
                     evictLoop i n) c = evictLoop i n c1).
      { unfold bind, updShard, modify. f_equal.
        unfold c1, putShard, withShards, withTotalSize. simpl.
        rewrite (alter_known _ i (shards c) s) by done.
        rewrite !alter_insert_known by (by rewrite ?length_insert).
        do 2 f_equal. simpl. unfold without, withSize, withLruList, withData.
        simpl. rewrite (Hkey oldest e He).
        by rewrite (RemoveBack_Remove _ oldest). }
      rewrite Hc1, Hloop.
      assert (Heq : withTotalSize (λ _, t) (putShard i s' c1)
                    = withTotalSize (λ _, t) (putShard i s' c)).
      { unfold c1, putShard, withShards, withTotalSize. simpl.
        by rewrite list_insert_insert_eq. }
      rewrite Heq in *.
      assert (Hrl : s_lruList (without oldest e s) = removelast (s_lruList s)).
      { simpl. symmetry. by apply RemoveBack_Remove. }
      split; [done|]. split.
      { rewrite Hlru, Hrl, removelast_take, length_take, take_take. f_equal. lia. }
      split; [|split; [done|split; [done|split; [done|]]]].
      * intros k. rewrite Hdata. case_decide as Hk; [|done]. simpl.
        apply lookup_delete_ne. intros <-.
        rewrite Hlru in Hk. apply elem_of_take in Hk as (j & Hj & _).
        apply list_elem_of_lookup_2 in Hj. simpl in Hj.
        apply Remove_elem_of in Hj as [? _]. done.
      * intros Hc. apply Hinv. unfold c1.
        assert (Hv : lruVictim s = Some e) by (by rewrite (lruVictim_Some s oldest)).
        pose proof (cache_inv_afterEvict c i s Hc Hs) as Ha.
        unfold afterEvict in Ha. rewrite Hv in Ha.
        by rewrite (evictShard_remove s oldest e) in Ha.
    + exists (totalSize c), s.
      assert (Hid : withTotalSize (λ _, totalSize c) (putShard i s c) = c).
      { unfold putShard, withShards, withTotalSize.
        rewrite list_insert_id by done. by destruct c. }
      rewrite Hid. split; [done|].
      unfold Back in Hback. apply last_None in Hback.
      split; [by rewrite Hback|]. split; [|done].
      intros k. destruct Hwf as (_ & Hmem & _).
      destruct (decide (k ∈ s_lruList s)) as [Hk|Hk]; [done|].
      rewrite Hmem in Hk. by apply eq_None_not_Some.
Qed.

(** X10.  On a well-formed, unlocked shard [evictFromShard] with any count
    [n] returns, and the cache differs only in that shard and in the total
    size.  The recency list has lost its last [n] keys, or all of them if it
    held fewer; the map holds exactly the entries of the keys that remain,
    unchanged; the lock is released, the hit and miss counters are untouched,
    and the size accounting still holds if it held before. *)
Theorem evictFromShard_spec c i s n :
  shards c !! i = Some s → s_mu s = false → shard_wf s →
  ∃ t s',
    evictFromShard i n c
      = Returned tt (withTotalSize (λ _, t) (putShard i s' c)) ∧
    s_lruList s' = take (length (s_lruList s) - n) (s_lruList s) ∧
    (∀ k, s_data s' !! k
          = if decide (k ∈ s_lruList s') then s_data s !! k else None) ∧
    s_mu s' = false ∧
    s_hitCount s' = s_hitCount s ∧ s_missCount s' = s_missCount s ∧
    (cache_inv c → cache_inv (withTotalSize (λ _, t) (putShard i s' c))).
Proof.
  intros Hs Hmu Hwf.
  assert (Hlen : (i < length (shards c))%nat) by (by eapply lookup_lt_Some).
  set (c1 := putShard i (withMu true s) c).
  destruct (evictLoop_wf i n c1 (withMu true s))
    as (t & s' & Hloop & Hlru & Hdata & Hmu' & Hh & Hm & Hinv).
  { by apply list_lookup_insert_eq. }
  { exact Hwf. }
  exists t, (withMu false s').
  assert (Hrun : evictFromShard i n c
                 = Returned tt (withTotalSize (λ _, t) (putShard i (withMu false s') c))).
  { unfold evictFromShard. unfold bind at 1. rewrite (Lock_free c i s) by done.
    fold c1. unfold defer. rewrite Hloop.
    unfold bind, ret, Unlock, updShard, modify, c1, putShard, withShards,
      withTotalSize. simpl.
    rewrite list_insert_insert_eq. by rewrite alter_insert_known. }
  split; [done|]. split; [done|]. split; [done|].
  split; [done|]. split; [done|]. split; [done|].
  intros Hc.
  assert (Hc1 : cache_inv c1) by (by apply cache_inv_putShard_mu).
  specialize (Hinv Hc1).
  assert (HU : Unlock i (withTotalSize (λ _, t) (putShard i s' c1))
               = Returned tt (withTotalSize (λ _, t) (putShard i (withMu false s') c))).
  { unfold Unlock, updShard, modify, c1, putShard, withShards, withTotalSize.
    simpl. rewrite list_insert_insert_eq. by rewrite alter_insert_known. }
  by apply (cache_inv_Unlock i _ _ Hinv HU).
Qed.

(** ** The hit and miss counters *)

Lemma fmap_alter_same {A B} (g : A → B) (f : A → A) (i : nat) (l : list A) :
  (∀ x, g (f x) = g x) → g <$> alter f i l = g <$> l.
Proof.
  intros H. revert i. induction l as [|x l IH]; intros [|i]; simpl; [done..| |].
  - by rewrite H.
  - f_equal. apply IH.
Qed.

Section Gentle.
Context (ok : (Shard → Shard) → Prop) (R : Cache → Cache → Prop)
  `{!GentleRel ok R}.

Lemma gentle_ret {A} (a : A) : frame R (ret a).
Proof. intros c. apply gr_refl. Qed.

Lemma gentle_bind {A B} (m : M A) (k : A → M B) :
  frame R m → (∀ a, frame R (k a)) → frame R (bind m k).
Proof.
  intros Hm Hk c. unfold bind. specialize (Hm c).
  destruct (m c) as [a c'| |]; try done.
  specialize (Hk a c'). destruct (k a c'); eapply gr_trans; eauto.
Qed.

Lemma gentle_defer {A} (cleanup : M unit) (body : M A) :
  frame R cleanup → frame R body → frame R (defer cleanup body).
Proof.
  intros Hc Hb c. unfold defer. specialize (Hb c).
  destruct (body c) as [a c'|c'|c']; try done.
  - pose proof (gentle_bind cleanup (λ _, ret a) Hc (λ _, gentle_ret a) c') as H.
    destruct (bind cleanup _ c'); eapply gr_trans; eauto.
  - specialize (Hc c'). destruct (cleanup c'); eapply gr_trans; eauto.
Qed.

Lemma gentle_forM_ {A} (l : list A) (f : A → M unit) :
  (∀ a, frame R (f a)) → frame R (forM_ l f).
Proof.
  intros Hf. induction l as [|a l IH]; simpl.
  - apply gentle_ret.
  - apply gentle_bind; auto.
Qed.

Lemma gentle_shardAt i : frame R (shardAt i).
Proof. intros c. unfold shardAt. destruct (shards c !! i); apply gr_refl. Qed.

Lemma gentle_getShard key : frame R (getShard key).
Proof.
  intros c. unfold getShard.
  destruct (_ =? 0); [apply gr_refl|].
  destruct (shards c !! _); apply gr_refl.
Qed.

Lemma gentle_updShard i f : ok f → frame R (updShard i f).
Proof. intros Hf c. by apply gr_shards. Qed.

Lemma gentle_totalSize f : frame R (modify (withTotalSize f)).
Proof. intros c. apply gr_totalSize. Qed.

Lemma gentle_goroutines f : frame R (modify (withGoroutines f)).
Proof. intros c. apply gr_goroutines. Qed.

Lemma gentle_Lock i : frame R (Lock i).
Proof.
  apply gentle_bind; [apply gentle_shardAt|]. intros s.
  destruct (s_mu s); [intros c; apply gr_refl|].
  apply gentle_updShard, ok_mu.
Qed.

Lemma gentle_Unlock i : frame R (Unlock i).
Proof. apply gentle_updShard, ok_mu. Qed.

Lemma gentle_RLock i : frame R (RLock i).
Proof.
  apply gentle_bind; [apply gentle_shardAt|]. intros s.
  destruct (s_mu s); [intros c; apply gr_refl|apply gentle_ret].
Qed.

Lemma gentle_evictLoop i count : frame R (evictLoop i count).
Proof.
  induction count; simpl; [apply gentle_ret|].
  apply gentle_bind; [apply gentle_shardAt|]. intros s.
  destruct (Back (s_lruList s)); [|apply gentle_ret].
  destruct (s_data s !! _); [|intros c; apply gr_refl].
  apply gentle_bind; [apply gentle_updShard, ok_delete|]. intros _.
  apply gentle_bind; [apply gentle_updShard, ok_lru|]. intros _.
  apply gentle_bind; [apply gentle_totalSize|]. intros _.
  apply gentle_bind; [apply gentle_updShard, ok_size|]. intros _.
  exact IHcount.
Qed.

Lemma gentle_evictFromShard i count : frame R (evictFromShard i count).
Proof.
  unfold evictFromShard.
  apply gentle_bind; [apply gentle_Lock|]. intros _.
  apply gentle_defer; [apply gentle_Unlock | apply gentle_evictLoop].
Qed.

Lemma gentle_evictIfNeeded : frame R evictIfNeeded.
Proof.
  intros c. unfold evictIfNeeded.
  destruct (_ <=? _); [apply gr_refl|].
  generalize (seq 0 (Z.to_nat (if ShardCount (config c) ÷ 4 <? 1 then 1
                               else ShardCount (config c) ÷ 4))).
  intros l. revert c.
  apply gentle_forM_. intros i.
  apply gentle_bind; [apply gentle_shardAt|]. intros _.
  apply gentle_evictFromShard.
Qed.

Lemma gentle_Set key value ttl now :
  (∀ k e, ok (withData (insert k e))) → frame R (Set_ key value ttl now).
Proof.
  intros Hins c. unfold Set_.
  destruct (_ =? _); [apply gr_refl|].
  generalize (expiryFor (config c) ttl now). intros expiry. revert c.
  apply gentle_bind; [apply gentle_getShard|]. intros i.
  apply gentle_bind; [apply gentle_Lock|]. intros _.
  apply gentle_defer; [apply gentle_Unlock|].
  apply gentle_bind; [apply gentle_shardAt|]. intros s.
  destruct (s_data s !! key).
  - apply gentle_bind; [apply gentle_totalSize|]. intros _.
    apply gentle_bind; [apply gentle_updShard, ok_size|]. intros _.
    apply gentle_bind; [apply gentle_updShard, Hins|]. intros _.
    apply gentle_bind; [apply gentle_updShard, ok_lru|]. intros _.
    apply gentle_bind; [apply gentle_evictIfNeeded|]. intros _. apply gentle_ret.
  - apply gentle_bind; [apply gentle_updShard, ok_lru|]. intros _.
    apply gentle_bind; [apply gentle_updShard, Hins|]. intros _.
    apply gentle_bind; [apply gentle_totalSize|]. intros _.
    apply gentle_bind; [apply gentle_updShard, ok_size|]. intros _.
    apply gentle_bind; [apply gentle_evictIfNeeded|]. intros _. apply gentle_ret.
Qed.

Lemma gentle_Get key now :
  (∀ f, ok (withHitCount f)) → (∀ f, ok (withMissCount f)) →
  (∀ c f, R c (withTotalHits f c)) → (∀ c f, R c (withTotalMiss f c)) →
  frame R (Get key now).
Proof.
  intros Hh Hm HH HM c. unfold Get.
  destruct (_ =? _); [apply gr_refl|]. revert c.
  apply gentle_bind; [apply gentle_getShard|]. intros i.
  apply gentle_bind; [apply gentle_RLock|]. intros _.
  apply gentle_bind; [apply gentle_shardAt|]. intros s.
  apply gentle_bind; [apply gentle_ret|]. intros _.
  destruct (s_data s !! key) as [entry|]; [destruct (isExpired entry now)|].
  - apply gentle_bind; [apply gentle_goroutines|]. intros _.
    apply gentle_bind; [apply gentle_updShard, Hm|]. intros _.
    apply gentle_bind; [intros c; apply HM|]. intros _. apply gentle_ret.
  - apply gentle_bind; [apply gentle_Lock|]. intros _.
    apply gentle_bind; [apply gentle_updShard, ok_lru|]. intros _.
    apply gentle_bind; [apply gentle_Unlock|]. intros _.
    apply gentle_bind; [apply gentle_updShard, Hh|]. intros _.
    apply gentle_bind; [intros c; apply HH|]. intros _. apply gentle_ret.
  - apply gentle_bind; [apply gentle_updShard, Hm|]. intros _.
    apply gentle_bind; [intros c; apply HM|]. intros _. apply gentle_ret.
Qed.

Lemma gentle_removeEntry i key entry : frame R (removeEntry i key entry).
Proof.
  unfold removeEntry.
  apply gentle_bind; [apply gentle_updShard, ok_delete|]. intros _.
  apply gentle_bind; [apply gentle_updShard, ok_lru|]. intros _.
  apply gentle_bind; [apply gentle_totalSize|]. intros _.
  apply gentle_updShard, ok_size.
Qed.

Lemma gentle_Delete key : frame R (Delete key).
Proof.
  intros c. unfold Delete.
  destruct (_ =? _); [apply gr_refl|]. revert c.
  apply gentle_bind; [apply gentle_getShard|]. intros i.
  apply gentle_bind; [apply gentle_Lock|]. intros _.
  apply gentle_defer; [apply gentle_Unlock|].
  apply gentle_bind; [apply gentle_shardAt|]. intros s.
  destruct (s_data s !! key).
  - apply gentle_bind; [apply gentle_removeEntry|]. intros _. apply gentle_ret.
  - apply gentle_ret.
Qed.

Lemma gentle_cleanupRoutine now : frame R (cleanupRoutine now).
Proof.
  intros c. unfold cleanupRoutine.
  destruct (_ <=? _); [apply gr_refl|].
  destruct (stopCh c); [apply gr_refl|].
  unfold cleanupExpired.
  generalize (seq 0 (length (shards c))). intros l. revert c.
  apply gentle_forM_. intros i. unfold cleanupShard.
  apply gentle_bind; [apply gentle_Lock|]. intros _.
  apply gentle_bind; [apply gentle_shardAt|]. intros s.
  apply gentle_bind; [|intros _; apply gentle_Unlock].
  apply gentle_forM_. intros key.
  apply gentle_bind; [apply gentle_shardAt|]. intros s'.
  destruct (s_data s' !! key); [apply gentle_removeEntry|].
  intros c. apply gr_refl.
Qed.

Lemma gentle_runGoroutine n : frame R (runGoroutine n).
Proof.
  intros c. unfold runGoroutine.
  destruct (goroutines c !! n) as [key|]; [|apply gr_refl]. revert c.
  apply gentle_bind; [apply gentle_goroutines|]. intros _.
  apply gentle_bind; [apply gentle_Delete|]. intros _. apply gentle_ret.
Qed.

Lemma gentle_Clear : frame R Clear.
Proof.
  intros c. unfold Clear.
  generalize (seq 0 (length (shards c))). intros l. revert c.
  apply gentle_bind; [|intros _; apply gentle_totalSize].
  apply gentle_forM_. intros i.
  apply gentle_bind; [apply gentle_Lock|]. intros _.
  apply gentle_bind; [apply gentle_updShard, ok_clear|]. intros _.
  apply gentle_Unlock.
Qed.

Lemma gentle_Close : frame R Close.
Proof.
  intros c. unfold Close.
  destruct (closed c =? 0); [apply gr_closed|apply gr_refl].
Qed.
End Gentle.

#[export] Instance same_counters_gentle :
  GentleRel (λ f, ∀ s, s_hitCount (f s) = s_hitCount s ∧
                       s_missCount (f s) = s_missCount s)
            same_counters.
Proof.
  split; try done.
  - intros a b c (?&?&?&?) (?&?&?&?). repeat split; congruence.
  - intros c i f Hf. unfold same_counters. simpl.
    rewrite !fmap_alter_same; [done|..]; intros s; apply Hf.
Qed.


(** X11.  Only [Get] and [ResetStats] write the hit and miss counters:
    [Set], [Delete], [Clear], [Close], the eviction check, a tick of the
    cleanup goroutine and an asynchronous delete leave the counters of the
    cache and of every shard as they were, whether they return, block or
    panic. *)
Theorem only_Get_counts :
  (∀ key value ttl now, quiet (Set_ key value ttl now)) ∧
  (∀ key, quiet (Delete key)) ∧
  quiet Clear ∧ quiet Close ∧ quiet evictIfNeeded ∧
  (∀ now, quiet (cleanupRoutine now)) ∧
  (∀ n, quiet (runGoroutine n)).
Proof.
  split_and!.
  - intros key value ttl now. by apply (gentle_Set _ same_counters).
  - apply (gentle_Delete _ same_counters).
  - apply (gentle_Clear _ same_counters).
  - apply (gentle_Close _ same_counters).
  - apply (gentle_evictIfNeeded _ same_counters).
  - apply (gentle_cleanupRoutine _ same_counters).
  - apply (gentle_runGoroutine _ same_counters).
Qed.

Lemma shardHits_fmap l : shardHits l = foldr Z.add 0 (s_hitCount <$> l).
Proof. induction l as [|s l IH]; simpl; [done|]. by rewrite IH. Qed.

Lemma shardMisses_fmap l : shardMisses l = foldr Z.add 0 (s_missCount <$> l).
Proof. induction l as [|s l IH]; simpl; [done|]. by rewrite IH. Qed.

Lemma shardHits_insert (l : list Shard) (i : nat) s s' :
  l !! i = Some s →
  shardHits (<[i:=s']> l) = shardHits l - s_hitCount s + s_hitCount s'.
Proof.
  revert i. induction l as [|x l IH]; intros [|i] H; simpl in *; try done.
  - simplify_eq. lia.
  - rewrite (IH i) by done. lia.
Qed.

Lemma shardMisses_insert (l : list Shard) (i : nat) s s' :
  l !! i = Some s →
  shardMisses (<[i:=s']> l) = shardMisses l - s_missCount s + s_missCount s'.
Proof.
  revert i. induction l as [|x l IH]; intros [|i] H; simpl in *; try done.
  - simplify_eq. lia.
  - rewrite (IH i) by done. lia.
Qed.

Lemma counters_same c c' :
  same_counters c c' → counters_consistent c → counters_consistent c'.
Proof.
  intros (Hh & Hm & Hsh & Hsm) [H1 H2]. unfold counters_consistent.
  by rewrite Hh, Hm, shardHits_fmap, shardMisses_fmap, Hsh, Hsm,
    <- shardHits_fmap, <- shardMisses_fmap.
Qed.

Lemma counters_quiet {A} (m : M A) c r c' :
  quiet m → m c = Returned r c' →
  counters_consistent c → counters_consistent c'.
Proof.
  intros Hq Hm. specialize (Hq c). rewrite Hm in Hq. by apply counters_same.
Qed.

Lemma counters_hit c i s s' :
  shards c !! i = Some s →
  s_hitCount s' = add64 (s_hitCount s) 1 → s_missCount s' = s_missCount s →
  counters_consistent c →
  counters_consistent (withTotalHits (λ n, add64 n 1) (putShard i s' c)).
Proof.
  intros Hs Hh Hm [H1 H2]. unfold counters_consistent. simpl.
  rewrite (shardHits_insert _ _ s), (shardMisses_insert _ _ s) by done.
  rewrite Hh, Hm, H1, H2. unfold add64. split.
  - rewrite wrap64_add_l, wrap64_add_r. f_equal. lia.
  - f_equal. lia.
Qed.

Lemma counters_miss c i s s' :
  shards c !! i = Some s →
  s_missCount s' = add64 (s_missCount s) 1 → s_hitCount s' = s_hitCount s →
  counters_consistent c →
  counters_consistent (withTotalMiss (λ n, add64 n 1) (putShard i s' c)).
Proof.
  intros Hs Hm Hh [H1 H2]. unfold counters_consistent. simpl.
  rewrite (shardHits_insert _ _ s), (shardMisses_insert _ _ s) by done.
  rewrite Hh, Hm, H1, H2. unfold add64. split.
  - f_equal. lia.
  - rewrite wrap64_add_l, wrap64_add_r. f_equal. lia.
Qed.

Lemma counters_Get key now c r c' :
  Get key now c = Returned r c' →
  counters_consistent c → counters_consistent c'.
Proof.
  intros H Hc. destruct (decide (closed c = 1)) as [Hcl|Hcl].
  { unfold Get in H. rewrite Hcl in H. simpl in H. by simplify_eq. }
  destruct (Get_Returned_shard key now c r c' H Hcl) as (i & s & Hi & Hs & Hmu).
  destruct (s_data s !! key) as [e|] eqn:He;
    [destruct (isExpired e now) eqn:Hexp|].
  - rewrite (Get_expired c i s key e) in H by done. simplify_eq.
    by apply (counters_miss _ i s).
  - rewrite (Get_hit c i s key e) in H by done. simplify_eq.
    by apply (counters_hit _ i s).
  - rewrite (Get_absent c i s key) in H by done. simplify_eq.
    by apply (counters_miss _ i s).
Qed.

Lemma counters_ResetStats c r c' :
  ResetStats c = Returned r c' → counters_consistent c'.
Proof.
  unfold ResetStats, bind, modify. intros H. simplify_eq.
  unfold counters_consistent. simpl.
  assert (H0 : ∀ l, shardHits ((λ s, withMissCount (λ _, 0) (withHitCount (λ _, 0) s)) <$> l) = 0
               ∧ shardMisses ((λ s, withMissCount (λ _, 0) (withHitCount (λ _, 0) s)) <$> l) = 0).
  { induction l as [|s l [IH1 IH2]]; [done|]. rewrite fmap_cons. simpl.
    unfold shardHits, shardMisses in *. simpl. rewrite IH1, IH2. done. }
  destruct (H0 (shards c)) as [-> ->]. done.
Qed.

Lemma counters_step op c r c' :
  counters_consistent c → step op c = Returned r c' → counters_consistent c'.
Proof.
  intros Hc H. destruct op; simpl in H;
    apply bind_Returned in H as (r' & c1 & H & Hret);
    unfold ret in Hret; simplify_eq.
  - eapply (counters_quiet (Set_ key value ttl now)); [|done..].
    by apply (gentle_Set _ same_counters).
  - by eapply counters_Get.
  - by eapply (counters_quiet _ _ _ _ (gentle_Delete _ same_counters key)).
  - by eapply (counters_quiet _ _ _ _ (gentle_Clear _ same_counters)).
  - by eapply (counters_quiet _ _ _ _ (gentle_Close _ same_counters)).
  - by eapply counters_ResetStats.
  - by eapply (counters_quiet _ _ _ _ (gentle_evictIfNeeded _ same_counters)).
  - by eapply (counters_quiet _ _ _ _ (gentle_cleanupRoutine _ same_counters now)).
  - by eapply (counters_quiet _ _ _ _ (gentle_runGoroutine _ same_counters n)).
Qed.

Lemma shardHits_replicate n : shardHits (replicate n newShard) = 0
                              ∧ shardMisses (replicate n newShard) = 0.
Proof. induction n as [|n [IH1 IH2]]; [done|]. simpl. by rewrite IH1, IH2. Qed.

Lemma reachable_counters c : reachable c → counters_consistent c.
Proof.
  induction 1 as [cfg c Hnew|c op r c' _ IH Hstep].
  - unfold New in Hnew. destruct (_ <? 0); [done|]. simplify_eq.
    unfold counters_consistent. simpl.
    by destruct (shardHits_replicate (Z.to_nat (ShardCount (default DefaultConfig cfg)))) as [-> ->].
  - by eapply counters_step.
Qed.

(** X12.  In every state reached from [New] by operations that returned, the
    hit counter of the cache is the sum of the hit counters of the shards
    and the miss counter is the sum of their miss counters, the sums taken
    in [int64] arithmetic as the counters are (so the equalities are exact
    whenever the sums fit in an [int64]). *)
Theorem reachable_counters_consistent c :
  reachable c →
  counters_consistent c ∧
  (int64_range (shardHits (shards c)) → totalHits c = shardHits (shards c)) ∧
  (int64_range (shardMisses (shards c)) → totalMiss c = shardMisses (shards c)).
Proof.
  intros Hr. destruct (reachable_counters c Hr) as [H1 H2].
  split; [done|]. split; intros Hrange.
  - rewrite H1. by apply wrap64_id.
  - rewrite H2. by apply wrap64_id.
Qed.

(** ** The locks *)

Lemma balanced_ret {A} (a : A) : balanced (ret a).
Proof. intros c r c' H. unfold ret in H. by simplify_eq. Qed.

Lemma balanced_bind {A B} (m : M A) (k : A → M B) :
  balanced m → (∀ a, balanced (k a)) → balanced (bind m k).
Proof.
  intros Hm Hk c r c' H. apply bind_Returned in H as (a & c1 & H1 & H2).
  rewrite (Hk a _ _ _ H2). by eapply Hm.
Qed.

Lemma balanced_forM_ {A} (l : list A) (f : A → M unit) :
  (∀ a, balanced (f a)) → balanced (forM_ l f).
Proof.
  intros Hf. induction l as [|a l IH]; simpl.
  - apply balanced_ret.
  - apply balanced_bind; auto.
Qed.

Lemma balanced_shardAt i : balanced (shardAt i).
Proof. intros c r c' H. by apply shardAt_Returned in H as [-> _]. Qed.

Lemma balanced_getShard key : balanced (getShard key).
Proof. intros c r c' H. by apply getShard_Returned in H as [-> _]. Qed.

Lemma balanced_RLock i : balanced (RLock i).
Proof.
  apply balanced_bind; [apply balanced_shardAt|]. intros s.
  destruct (s_mu s); [by intros c|apply balanced_ret].
Qed.

Lemma balanced_modify f :
  (∀ c, shards (f c) = shards c) → balanced (modify f).
Proof.
  intros Hf c r c' H. unfold modify in H. simplify_eq.
  unfold locks. by rewrite Hf.
Qed.

Lemma balanced_updShard i f :
  (∀ s, s_mu (f s) = s_mu s) → balanced (updShard i f).
Proof.
  intros Hf c r c' H. unfold updShard, modify in H. simplify_eq.
  unfold locks. simpl. apply list_eq. intros j.
  rewrite !list_lookup_fmap. destruct (decide (i = j)) as [->|Hne].
  - rewrite list_lookup_alter_eq. destruct (shards c !! j); simpl; [|done].
    by rewrite Hf.
  - by rewrite list_lookup_alter_ne.
Qed.

Lemma locks_withMu b (i : nat) (l : list Shard) :
  s_mu <$> alter (withMu b) i l = <[i:=b]> (s_mu <$> l).
Proof.
  revert i. induction l as [|s l IH]; intros [|i]; simpl; [done..|].
  f_equal. apply IH.
Qed.

Lemma releases_Unlock i : releases i (Unlock i).
Proof.
  intros c r c' H. unfold Unlock, updShard, modify in H. simplify_eq.
  apply locks_withMu.
Qed.

Lemma releases_bind_l {A B} i (m : M A) (k : A → M B) :
  releases i m → (∀ a, balanced (k a)) → releases i (bind m k).
Proof.
  intros Hm Hk c r c' H. apply bind_Returned in H as (a & c1 & H1 & H2).
  rewrite (Hk a _ _ _ H2). by eapply Hm.
Qed.

Lemma releases_bind_r {A B} i (m : M A) (k : A → M B) :
  balanced m → (∀ a, releases i (k a)) → releases i (bind m k).
Proof.
  intros Hm Hk c r c' H. apply bind_Returned in H as (a & c1 & H1 & H2).
  rewrite (Hk a _ _ _ H2). f_equal. by eapply Hm.
Qed.

Lemma releases_defer {A} i (body : M A) :
  balanced body → releases i (defer (Unlock i) body).
Proof.
  intros Hb c r c' H. apply defer_Returned in H as (c1 & H1 & H2).
  rewrite (releases_Unlock i _ _ _ H2). f_equal. by eapply Hb.
Qed.

(** A lock that is taken and released leaves the locks as they were. *)
Lemma balanced_Lock {A} i (m : M A) :
  releases i m → balanced (Lock i ;; m).
Proof.
  intros Hm c r c' H. apply bind_Returned in H as ([] & c1 & HL & H).
  apply Lock_Returned in HL as (s & Hs & Hmu & ->).
  rewrite (Hm _ _ _ H). unfold locks. simpl.
  rewrite list_fmap_insert, list_insert_insert_eq. apply list_insert_id.
  by rewrite list_lookup_fmap, Hs, <- Hmu.
Qed.

Lemma balanced_evictLoop i count : balanced (evictLoop i count).
Proof.
  induction count; simpl; [apply balanced_ret|].
  apply balanced_bind; [apply balanced_shardAt|]. intros s.
  destruct (Back (s_lruList s)); [|apply balanced_ret].
  destruct (s_data s !! _); [|by intros c].
  apply balanced_bind; [by apply balanced_updShard|]. intros _.
  apply balanced_bind; [by apply balanced_updShard|]. intros _.
  apply balanced_bind; [by apply balanced_modify|]. intros _.
  apply balanced_bind; [by apply balanced_updShard|]. intros _.
  exact IHcount.
Qed.

Lemma balanced_evictFromShard i count : balanced (evictFromShard i count).
Proof.
  unfold evictFromShard. apply balanced_Lock, releases_defer, balanced_evictLoop.
Qed.

Lemma balanced_evictIfNeeded : balanced evictIfNeeded.
Proof.
  intros c. unfold evictIfNeeded.
  destruct (_ <=? _); [by intros r c' ?; simplify_eq|].
  generalize (seq 0 (Z.to_nat (if ShardCount (config c) ÷ 4 <? 1 then 1
                               else ShardCount (config c) ÷ 4))).
  intros l. revert c.
  apply balanced_forM_. intros i.
  apply balanced_bind; [apply balanced_shardAt|]. intros _.
  apply balanced_evictFromShard.
Qed.

Lemma balanced_Set key value ttl now : balanced (Set_ key value ttl now).
Proof.
  intros c. unfold Set_.
  destruct (_ =? _); [by intros r c' ?; simplify_eq|].
  generalize (expiryFor (config c) ttl now). intros expiry. revert c.
  apply balanced_bind; [apply balanced_getShard|]. intros i.
  apply balanced_Lock, releases_defer.
  apply balanced_bind; [apply balanced_shardAt|]. intros s.
  destruct (s_data s !! key).
  - apply balanced_bind; [by apply balanced_modify|]. intros _.
    do 3 (apply balanced_bind; [by apply balanced_updShard|]; intros _).
    apply balanced_bind; [apply balanced_evictIfNeeded|]. intros _.
    apply balanced_ret.
  - do 2 (apply balanced_bind; [by apply balanced_updShard|]; intros _).
    apply balanced_bind; [by apply balanced_modify|]. intros _.
    apply balanced_bind; [by apply balanced_updShard|]. intros _.
    apply balanced_bind; [apply balanced_evictIfNeeded|]. intros _.
    apply balanced_ret.
Qed.

Lemma balanced_Get key now : balanced (Get key now).
Proof.
  intros c. unfold Get.
  destruct (_ =? _); [by intros r c' ?; simplify_eq|]. revert c.
  apply balanced_bind; [apply balanced_getShard|]. intros i.
  apply balanced_bind; [apply balanced_RLock|]. intros _.
  apply balanced_bind; [apply balanced_shardAt|]. intros s.
  apply balanced_bind; [apply balanced_ret|]. intros _.
  destruct (s_data s !! key) as [entry|]; [destruct (isExpired entry now)|].
  - apply balanced_bind; [by apply balanced_modify|]. intros _.
    apply balanced_bind; [by apply balanced_updShard|]. intros _.
    apply balanced_bind; [by apply balanced_modify|]. intros _.
    apply balanced_ret.
  - apply balanced_Lock.
    apply releases_bind_r; [by apply balanced_updShard|]. intros _.
    apply releases_bind_l; [apply releases_Unlock|]. intros _.
    apply balanced_bind; [by apply balanced_updShard|]. intros _.
    apply balanced_bind; [by apply balanced_modify|]. intros _.
    apply balanced_ret.
  - apply balanced_bind; [by apply balanced_updShard|]. intros _.
    apply balanced_bind; [by apply balanced_modify|]. intros _.
    apply balanced_ret.
Qed.

Lemma balanced_removeEntry i key entry : balanced (removeEntry i key entry).
Proof.
  unfold removeEntry.
  do 2 (apply balanced_bind; [by apply balanced_updShard|]; intros _).
  apply balanced_bind; [by apply balanced_modify|]. intros _.
  by apply balanced_updShard.
Qed.

Lemma balanced_Delete key : balanced (Delete key).
Proof.
  intros c. unfold Delete.
  destruct (_ =? _); [by intros r c' ?; simplify_eq|]. revert c.
  apply balanced_bind; [apply balanced_getShard|]. intros i.
  apply balanced_Lock, releases_defer.
  apply balanced_bind; [apply balanced_shardAt|]. intros s.
  destruct (s_data s !! key).
  - apply balanced_bind; [apply balanced_removeEntry|]. intros _.
    apply balanced_ret.
  - apply balanced_ret.
Qed.

Lemma balanced_cleanupRoutine now : balanced (cleanupRoutine now).
Proof.
  intros c. unfold cleanupRoutine.
  destruct (_ <=? _); [done|].
  destruct (stopCh c); [by intros r c' ?; simplify_eq|].
  unfold cleanupExpired.
  generalize (seq 0 (length (shards c))). intros l. revert c.
  apply balanced_forM_. intros i. unfold cleanupShard.
  apply balanced_Lock.
  apply releases_bind_r; [apply balanced_shardAt|]. intros s.
  apply releases_bind_r; [|intros _; apply releases_Unlock].
  apply balanced_forM_. intros key.
  apply balanced_bind; [apply balanced_shardAt|]. intros s'.
  destruct (s_data s' !! key); [apply balanced_removeEntry | by intros c].
Qed.

Lemma balanced_runGoroutine n : balanced (runGoroutine n).
Proof.
  intros c. unfold runGoroutine.
  destruct (goroutines c !! n) as [key|]; [|by intros r c' ?; simplify_eq].
  revert c.
  apply balanced_bind; [by apply balanced_modify|]. intros _.
  apply balanced_bind; [apply balanced_Delete|]. intros _. apply balanced_ret.
Qed.

Lemma balanced_Clear : balanced Clear.
Proof.
  intros c. unfold Clear.
  generalize (seq 0 (length (shards c))). intros l. revert c.
  apply balanced_bind; [|intros _; by apply balanced_modify].
  apply balanced_forM_. intros i.
  apply balanced_Lock.
  apply releases_bind_r; [by apply balanced_updShard|]. intros _.
  apply releases_Unlock.
Qed.

Lemma balanced_Close : balanced Close.
Proof.
  intros c r c'. unfold Close.
  destruct (closed c =? 0); intros ?; by simplify_eq.
Qed.

Lemma balanced_ResetStats : balanced ResetStats.
Proof.
  intros c r c'. unfold ResetStats, bind, modify. intros ?; simplify_eq.
  unfold locks. simpl. rewrite <- list_fmap_compose. done.
Qed.

Lemma balanced_step op : balanced (step op).
Proof.
  destruct op; simpl;
    (apply balanced_bind; [|intros ?; apply balanced_ret]).
  - apply balanced_Set.
  - apply balanced_Get.
  - apply balanced_Delete.
  - apply balanced_Clear.
  - apply balanced_Close.
  - apply balanced_ResetStats.
  - apply balanced_evictIfNeeded.
  - apply balanced_cleanupRoutine.
  - apply balanced_runGoroutine.
Qed.

Lemma quiescent_locks c : quiescent c ↔ Forall (λ b, b = false) (locks c).
Proof. unfold quiescent, locks. by rewrite Forall_fmap. Qed.

Lemma reachable_quiescent c : reachable c → quiescent c.
Proof.
  induction 1 as [cfg c Hnew|c op r c' _ IH Hstep].
  - unfold New in Hnew. destruct (_ <? 0); [done|]. simplify_eq.
    unfold quiescent. simpl. by apply Forall_replicate.
  - apply quiescent_locks. rewrite (balanced_step op c r c' Hstep).
    by apply quiescent_locks.
Qed.

(** X13.  Every operation that returns has released the locks it took: the
    locks of the shards are the same after it as before.  Hence no lock is
    held in any state reached from [New] by operations that returned. *)
Theorem locks_released :
  (∀ op c r c', step op c = Returned r c' → locks c' = locks c) ∧
  (∀ c, reachable c → quiescent c).
Proof. split; [apply balanced_step|apply reachable_quiescent]. Qed.

(** ** The recency list and the map *)

Lemma NoDup_length_size (l : list string) (m : gmap string Entry) :
  NoDup l → (∀ k, k ∈ l ↔ is_Some (m !! k)) → length l = size m.
Proof.
  intros Hnd Hmem.
  rewrite <- size_dom. rewrite <- (size_list_to_set (C := gset string) l Hnd).
  f_equal. apply set_eq. intros k.
  rewrite elem_of_list_to_set, elem_of_dom. apply Hmem.
Qed.

(** X14.  In every state reached from [New] by operations that returned, the
    recency list and the map of every shard agree: the list holds no key
    twice, it holds exactly the keys of the map, so it is as long as the map
    is large, and every entry is filed under its own key. *)
Theorem reachable_lru_agrees c :
  reachable c →
  ∀ s, s ∈ shards c →
    NoDup (s_lruList s) ∧
    (∀ k, k ∈ s_lruList s ↔ is_Some (s_data s !! k)) ∧
    length (s_lruList s) = size (s_data s) ∧
    (∀ k e, s_data s !! k = Some e → e_key e = k).
Proof.
  intros Hr s Hs. destruct (reachable_cache_inv c Hr) as [Hall _].
  rewrite Forall_forall in Hall.
  destruct (Hall s Hs) as [(Hnd & Hmem & Hkey) _].
  split; [done|]. split; [done|]. split; [|done].
  by apply NoDup_length_size.
Qed.

(** ** The reports of stats.go *)

Lemma formatLoop_ends bytes : ∀ fuel n exp,
  bytes < 2 ^ 63 → 1 <= n < 2 ^ Z.of_nat fuel →
  n = bytes / 1024 ^ (Z.of_nat exp + 1) →
  ∃ exp',
    formatLoop fuel n (1024 ^ (Z.of_nat exp + 1)) exp
    = (bytes / 1024 ^ (Z.of_nat exp' + 1), 1024 ^ (Z.of_nat exp' + 1), exp') ∧
    1 <= bytes / 1024 ^ (Z.of_nat exp' + 1) < 1024.
Proof.
  intros fuel. induction fuel as [|fuel IH]; intros n exp Hb Hn Hdiv.
  - simpl in Hn. lia.
  - cbn [formatLoop]. destruct (Z.leb_spec 1024 n) as [Hge|Hlt].
    + assert (Hpos : 0 < 1024 ^ (Z.of_nat exp + 1)) by (apply Z.pow_pos_nonneg; lia).
      assert (Hmul : 1024 ^ (Z.of_nat exp + 1) * n <= bytes).
      { rewrite Hdiv. apply Z.mul_div_le. lia. }
      assert (Hpow : 1024 ^ (Z.of_nat (S exp) + 1) = 1024 ^ (Z.of_nat exp + 1) * 1024).
      { replace (Z.of_nat (S exp) + 1) with (Z.succ (Z.of_nat exp + 1)) by lia.
        rewrite Z.pow_succ_r by lia. lia. }
      rewrite wrap64_id by (unfold int64_range; nia).
      rewrite <- Hpow. apply IH; [done| |].
      * rewrite Z.quot_div_nonneg by lia.
        assert (H2 : 2 ^ Z.of_nat (S fuel) = 2 * 2 ^ Z.of_nat fuel).
        { rewrite Nat2Z.inj_succ, Z.pow_succ_r by lia. done. }
        pose proof (Z.div_le_lower_bound n 1024 1) as H1.
        pose proof (Z.div_lt_upper_bound n 1024 (2 ^ Z.of_nat fuel)) as H3.
        split; [apply H1; lia|apply H3; lia].
      * rewrite Z.quot_div_nonneg by lia.
        rewrite Hdiv, Hpow, Z.div_div by lia. done.
    + exists exp. rewrite <- Hdiv. split; [done|lia].
Qed.

Lemma formatBytes_unit bytes :
  1024 <= bytes < 2 ^ 63 →
  ∃ exp unit,
    (exp ≤ 5)%nat ∧ String.get exp "KMGTPE" = Some unit ∧
    1024 ^ (Z.of_nat exp + 1) <= bytes < 1024 ^ (Z.of_nat exp + 2) ∧
    formatBytes bytes
    = Some (SprintfUnit (Fdiv (F64 bytes) (F64 (1024 ^ (Z.of_nat exp + 1)))) unit).
Proof.
  intros Hb. unfold formatBytes.
  destruct (Z.ltb_spec bytes 1024); [lia|].
  destruct (formatLoop_ends bytes (Z.to_nat (Z.log2 bytes)) (bytes ÷ 1024) 0)
    as (exp & Hloop & Hn).
  - lia.
  - rewrite Z.quot_div_nonneg by lia.
    pose proof (Z.log2_spec bytes) as Hlog.
    pose proof (Z.log2_nonneg bytes) as Hlog0.
    rewrite Z2Nat.id by done.
    rewrite Z.pow_succ_r in Hlog by done.
    pose proof (Z.div_le_lower_bound bytes 1024 1) as H1.
    pose proof (Z.div_lt_upper_bound bytes 1024 (2 ^ Z.log2 bytes)) as H3.
    split; [apply H1; lia|apply H3; lia].
  - rewrite Z.quot_div_nonneg by lia. done.
  - change (1024 ^ (Z.of_nat 0 + 1)) with 1024 in Hloop. rewrite Hloop.
    assert (Hpos : 0 < 1024 ^ (Z.of_nat exp + 1)) by (apply Z.pow_pos_nonneg; lia).
    assert (Hlow : 1024 ^ (Z.of_nat exp + 1) <= bytes).
    { pose proof (Z.mul_div_le bytes (1024 ^ (Z.of_nat exp + 1)) Hpos). nia. }
    assert (Hup : bytes < 1024 ^ (Z.of_nat exp + 2)).
    { replace (Z.of_nat exp + 2) with (Z.succ (Z.of_nat exp + 1)) by lia.
      rewrite Z.pow_succ_r by lia.
      pose proof (Z.mod_pos_bound bytes (1024 ^ (Z.of_nat exp + 1)) Hpos).
      pose proof (Z.div_mod bytes (1024 ^ (Z.of_nat exp + 1))). nia. }
    assert (Hexp : (exp ≤ 5)%nat).
    { destruct (decide (exp ≤ 5)%nat) as [|Hbig]; [done|].
      assert (1024 ^ 7 <= 1024 ^ (Z.of_nat exp + 1)) by (apply Z.pow_le_mono_r; lia).
      lia. }
    assert (Hget : ∃ unit, String.get exp "KMGTPE" = Some unit).
    { do 6 (destruct exp as [|exp]; [by eexists|]). lia. }
    destruct Hget as [unit Hget]. exists exp, unit. by rewrite Hget.
Qed.

Lemma formatBytes_Some bytes :
  int64_range bytes → ∃ text, formatBytes bytes = Some text.
Proof.
  intros [Hlo Hhi]. destruct (Z.ltb_spec bytes 1024) as [Hlt|Hge].
  - exists (SprintfB bytes). unfold formatBytes.
    by destruct (Z.ltb_spec bytes 1024); [|lia].
  - destruct (formatBytes_unit bytes) as (exp & unit & _ & _ & _ & H); [lia|].
    eauto.
Qed.

Lemma formatBytesM_Returned bytes c :
  int64_range bytes →
  ∃ text, formatBytes bytes = Some text ∧ formatBytesM bytes c = Returned text c.
Proof.
  intros H. destruct (formatBytes_Some bytes H) as [text Ht].
  exists text. unfold formatBytesM. by rewrite Ht.
Qed.

Lemma foldM_seq_pure {B} (f : B → nat → M B) (g : B → nat → B) c : ∀ k a b,
  (∀ i b, (a ≤ i < a + k)%nat → f b i c = Returned (g b i) c) →
  foldM (seq a k) f b c = Returned (foldl g b (seq a k)) c.
Proof.
  induction k as [|k IH]; intros a b Hf; [done|].
  simpl. unfold bind. rewrite Hf by lia. apply IH. intros i b' Hi. apply Hf. lia.
Qed.

Lemma foldl_seq_lookup {A B} (h : B → nat → A → B) (l : list A) : ∀ pre b,
  foldl (λ acc i, match (pre ++ l) !! i with
                  | Some x => h acc i x
                  | None => acc
                  end) b (seq (length pre) (length l))
  = foldl (λ acc '(i, x), h acc i x) b (zip (seq (length pre) (length l)) l).
Proof.
  induction l as [|x l IH]; intros pre b; [done|].
  simpl. rewrite lookup_app_r by apply Nat.le_refl. rewrite Nat.sub_diag. simpl.
  specialize (IH (pre ++ [x])). rewrite <- app_assoc in IH. simpl in IH.
  rewrite length_app in IH. simpl in IH. rewrite Nat.add_1_r in IH.
  apply IH.
Qed.

Lemma foldl_add64 {A} (v : A → Z) (l : list (nat * A)) : ∀ b,
  foldl (λ acc '(_, x), add64 acc (v x)) (wrap64 b) l
  = wrap64 (b + foldr (λ x acc, v x + acc) 0 l.*2).
Proof.
  induction l as [|[i x] l IH]; intros b.
  - simpl. f_equal. lia.
  - rewrite fmap_cons. cbn [foldl foldr snd]. unfold add64 at 2.
    rewrite wrap64_add_l, IH. f_equal. lia.
Qed.

Lemma snd_zip_seq {A} (l : list A) a : (zip (seq a (length l)) l).*2 = l.
Proof. apply snd_zip. by rewrite length_seq. Qed.

Lemma RLock_free c i s :
  shards c !! i = Some s → s_mu s = false → RLock i c = Returned tt c.
Proof. intros Hs Hmu. unfold RLock, bind. by rewrite (shardAt_Some c i s), Hmu. Qed.

Lemma RLock_held c i s :
  shards c !! i = Some s → s_mu s = true → RLock i c = Blocked c.
Proof. intros Hs Hmu. unfold RLock, bind. by rewrite (shardAt_Some c i s), Hmu. Qed.

Lemma countLoop_quiescent c :
  quiescent c →
  foldM (seq 0 (length (shards c)))
    (λ totalEntries i,
       RLock i ;; s <-- shardAt i ;; RUnlock i ;;
       ret (add64 totalEntries (Z.of_nat (size (s_data s))))) 0 c
  = Returned (wrap64 (entryCount (shards c))) c.
Proof.
  intros Hq.
  rewrite (foldM_seq_pure _
             (λ acc i, match shards c !! i with
                       | Some s => add64 acc (Z.of_nat (size (s_data s)))
                       | None => acc
                       end)).
  - f_equal.
    rewrite (foldl_seq_lookup (λ acc _ s, add64 acc (Z.of_nat (size (s_data s))))
               (shards c) [] 0).
    change 0 with (wrap64 0) at 1.
    rewrite (foldl_add64 (λ s, Z.of_nat (size (s_data s)))).
    by rewrite snd_zip_seq.
  - intros i b Hi.
    destruct (lookup_lt_is_Some_2 (shards c) i) as [s Hs]; [lia|].
    assert (Hmu : s_mu s = false) by (by apply (Forall_lookup_1 _ _ _ _ Hq Hs)).
    unfold bind. rewrite (RLock_free c i s), (shardAt_Some c i s) by done.
    unfold RUnlock, ret. by rewrite Hs.
Qed.

(** X15.  [formatBytes] never panics on an [int64]: below 1024 (negative
    values too) it prints the number of bytes; from 1024 on its loop ends
    with a unit index [exp] of at most 5, a character of [KMGTPE], and with
    the divisor [1024 ^ (exp + 1)], which is at most [bytes] and more than
    [bytes / 1024]: the number printed before the unit lies between 1 and
    1024. *)
Theorem formatBytes_spec bytes :
  int64_range bytes →
  (bytes < 1024 → formatBytes bytes = Some (SprintfB bytes)) ∧
  (1024 <= bytes →
   ∃ exp unit,
     (exp ≤ 5)%nat ∧ String.get exp "KMGTPE" = Some unit ∧
     1024 ^ (Z.of_nat exp + 1) <= bytes < 1024 ^ (Z.of_nat exp + 2) ∧
     formatBytes bytes
     = Some (SprintfUnit (Fdiv (F64 bytes) (F64 (1024 ^ (Z.of_nat exp + 1))))
               unit)).
Proof.
  intros [Hlo Hhi]. split.
  - intros Hlt. unfold formatBytes. by destruct (Z.ltb_spec bytes 1024); [|lia].
  - intros Hge. apply formatBytes_unit. lia.
Qed.

Lemma GetStats_quiescent c :
  quiescent c → int64_range (totalSize c) →
  ∃ usage, formatBytes (totalSize c) = Some usage ∧
    GetStats c =
    Returned {| st_TotalSize := totalSize c;
                st_TotalEntries := wrap64 (entryCount (shards c));
                st_HitCount := totalHits c;
                st_MissCount := totalMiss c;
                st_HitRatio := hitRatio (totalHits c) (totalMiss c);
                st_MemoryUsage := usage;
                st_ShardCount := ShardCount (config c);
                st_MaxMemory := MaxMemoryBytes (config c);
                st_MemoryPercent :=
                  memoryPercent (totalSize c) (MaxMemoryBytes (config c)) |} c.
Proof.
  intros Hq Hrange.
  destruct (formatBytesM_Returned (totalSize c) c Hrange) as (text & Ht & HtM).
  exists text. split; [done|].
  unfold GetStats. unfold bind at 1. rewrite (countLoop_quiescent c Hq).
  unfold bind, gets. by rewrite HtM.
Qed.

(** X16.  With no shard lock held and a total size that is an [int64],
    [GetStats] returns and leaves the cache as it was.  It reports the number
    of entries summed over the shards (in [int64] arithmetic), the total
    size, the hit and miss counters, the shard count and the budget of the
    configuration, the total size formatted by [formatBytes], the hit ratio
    [hits / (hits + misses)], which is the zero value when there was no
    lookup, and the percentage [size / budget * 100]. *)
Theorem GetStats_spec c :
  quiescent c → int64_range (totalSize c) →
  ∃ st, GetStats c = Returned st c ∧
    st_TotalEntries st = wrap64 (entryCount (shards c)) ∧
    st_TotalSize st = totalSize c ∧
    st_HitCount st = totalHits c ∧ st_MissCount st = totalMiss c ∧
    (add64 (totalHits c) (totalMiss c) <= 0 → st_HitRatio st = F64 0) ∧
    (0 < add64 (totalHits c) (totalMiss c) →
     st_HitRatio st
     = Fdiv (F64 (totalHits c)) (F64 (add64 (totalHits c) (totalMiss c)))) ∧
    formatBytes (totalSize c) = Some (st_MemoryUsage st) ∧
    st_ShardCount st = ShardCount (config c) ∧
    st_MaxMemory st = MaxMemoryBytes (config c) ∧
    st_MemoryPercent st
    = Fmul (Fdiv (F64 (totalSize c)) (F64 (MaxMemoryBytes (config c))))
        (F64 100).
Proof.
  intros Hq Hrange.
  destruct (GetStats_quiescent c Hq Hrange) as (usage & Hu & Hrun).
  eexists. split; [exact Hrun|]. simpl. unfold hitRatio.
  repeat split; try done.
  - intros H. by destruct (Z.ltb_spec 0 (add64 (totalHits c) (totalMiss c))); [lia|].
  - intros H. by destruct (Z.ltb_spec 0 (add64 (totalHits c) (totalMiss c))); [|lia].
Qed.

(** A loop whose rounds leave the cache alone, and one of which waits for a
    lock, waits. *)
Lemma foldM_seq_blocks {B} (f : B → nat → M B) c i : ∀ k a b,
  (a ≤ i < a + k)%nat →
  (∀ b, f b i c = Blocked c) →
  (∀ j b, (a ≤ j < i)%nat → f b j c = Blocked c ∨ ∃ b', f b j c = Returned b' c) →
  foldM (seq a k) f b c = Blocked c.
Proof.
  induction k as [|k IH]; intros a b Hi Hblock Hbefore; [lia|].
  simpl. unfold bind. destruct (decide (a = i)) as [->|Hne].
  - by rewrite Hblock.
  - destruct (Hbefore a b) as [->|[b' ->]]; [lia|done|].
    apply IH; [lia|done|]. intros j b'' Hj. apply Hbefore. lia.
Qed.

Lemma foldM_app {A B} (l1 l2 : list A) (f : B → A → M B) b c :
  foldM (l1 ++ l2) f b c = (b' <-- foldM l1 f b ;; foldM l2 f b') c.
Proof.
  revert b c. induction l1 as [|a l1 IH]; intros b c; simpl.
  - done.
  - unfold bind. destruct (f b a c) as [b' c'| |]; [|done..]. apply IH.
Qed.

Lemma shardStatsLoop c k :
  quiescent c → Forall (λ s, int64_range (s_size s)) (shards c) →
  (k ≤ length (shards c))%nat →
  ∃ stats,
    foldM (seq 0 k)
      (λ stats i,
         RLock i ;; s <-- shardAt i ;; RUnlock i ;;
         usage <-- formatBytesM (s_size s) ;;
         ret (stats ++ [shardStats i s usage])) [] c
    = Returned stats c ∧
    describes (take k (shards c)) stats.
Proof.
  intros Hq Hr. induction k as [|k IH]; intros Hk.
  - exists []. split; [done|]. split; [by rewrite take_0|].
    intros i s. by rewrite take_0.
  - destruct IH as (stats & Hrun & Hlen & Hst); [lia|].
    destruct (lookup_lt_is_Some_2 (shards c) k) as [s Hs]; [lia|].
    assert (Hmu : s_mu s = false) by (by apply (Forall_lookup_1 _ _ _ _ Hq Hs)).
    assert (Hrange : int64_range (s_size s))
      by (by apply (Forall_lookup_1 _ _ _ _ Hr Hs)).
    destruct (formatBytesM_Returned (s_size s) c Hrange) as (usage & Hu & HuM).
    exists (stats ++ [shardStats k s usage]).
    rewrite length_take_le in Hlen by lia.
    split.
    + rewrite seq_S, foldM_app. unfold bind at 1. rewrite Hrun. simpl.
      unfold bind. rewrite (RLock_free c k s), (shardAt_Some c k s) by done.
      unfold RUnlock, ret. by rewrite HuM.
    + split.
      * rewrite length_app, length_take_le by lia. simpl. lia.
      * intros i s' Hi. apply lookup_take_Some in Hi as [Hi Hlt].
        destruct (decide (i = k)) as [->|Hne].
        -- rewrite Hs in Hi. injection Hi as <-. exists usage. split; [done|].
           rewrite lookup_app_r by lia. by rewrite Hlen, Nat.sub_diag.
        -- destruct (Hst i s') as (u & Hu' & Hl).
           { apply lookup_take_Some. split; [done|lia]. }
           exists u. split; [done|]. rewrite lookup_app_l; [done|].
           by eapply lookup_lt_Some.
Qed.

Lemma GetShardStats_quiescent c :
  quiescent c → Forall (λ s, int64_range (s_size s)) (shards c) →
  ∃ stats, GetShardStats c = Returned stats c ∧ describes (shards c) stats.
Proof.
  intros Hq Hr.
  destruct (shardStatsLoop c (length (shards c)) Hq Hr) as (stats & H1 & H2);
    [done|].
  exists stats. rewrite firstn_all in H2. done.
Qed.

Lemma describes_fmap {A} (f : Shard → A) (g : ShardStats → A) l stats :
  (∀ i s usage, g (shardStats i s usage) = f s) →
  describes l stats → g <$> stats = f <$> l.
Proof.
  intros Hfg [Hlen Hst]. apply list_eq. intros i.
  rewrite !list_lookup_fmap.
  destruct (l !! i) as [s|] eqn:Hs.
  - destruct (Hst i s Hs) as (usage & _ & ->). simpl. by rewrite Hfg.
  - apply lookup_ge_None in Hs. rewrite <- Hlen in Hs.
    apply lookup_ge_None in Hs. by rewrite Hs.
Qed.

(** X17.  [GetStats] and [GetShardStats] take the read lock of every shard:
    while the lock of some shard is held (as it is for good once a [Set] has
    blocked in its eviction check) neither of them returns, and the cache is
    left as it was. *)
Theorem stats_wait_for_locks c i s :
  shards c !! i = Some s → s_mu s = true →
  GetStats c = Blocked c ∧
  (Forall (λ s, int64_range (s_size s)) (shards c) →
   GetShardStats c = Blocked c).
Proof.
  intros Hs Hmu.
  assert (Hi : (0 ≤ i < 0 + length (shards c))%nat).
  { apply lookup_lt_Some in Hs. lia. }
  split.
  - unfold GetStats. unfold bind at 1.
    rewrite (foldM_seq_blocks _ c i); [done|done| |].
    + intros b. unfold bind. by rewrite (RLock_held c i s).
    + intros j b Hj.
      destruct (lookup_lt_is_Some_2 (shards c) j) as [sj Hsj]; [lia|].
      destruct (s_mu sj) eqn:Hmj.
      * left. unfold bind. by rewrite (RLock_held c j sj).
      * right. eexists. unfold bind.
        rewrite (RLock_free c j sj), (shardAt_Some c j sj) by done. done.
  - intros Hr. unfold GetShardStats.
    apply (foldM_seq_blocks _ c i); [done| |].
    + intros b. unfold bind. by rewrite (RLock_held c i s).
    + intros j b Hj.
      destruct (lookup_lt_is_Some_2 (shards c) j) as [sj Hsj]; [lia|].
      destruct (s_mu sj) eqn:Hmj.
      * left. unfold bind. by rewrite (RLock_held c j sj).
      * right.
        assert (Hrange : int64_range (s_size sj))
          by (by apply (Forall_lookup_1 _ _ _ _ Hr Hsj)).
        destruct (formatBytesM_Returned (s_size sj) c Hrange) as (u & _ & HuM).
        eexists. unfold bind.
        rewrite (RLock_free c j sj), (shardAt_Some c j sj) by done.
        unfold RUnlock, ret. by rewrite HuM.
Qed.

Lemma shardSizes_fmap_size l : shardSizes l = sumZ (s_size <$> l).
Proof. induction l as [|s l IH]; simpl; [done|]. by rewrite IH. Qed.

Lemma entryCount_fmap l :
  entryCount l = sumZ ((λ s, Z.of_nat (size (s_data s))) <$> l).
Proof. induction l as [|s l IH]; simpl; [done|]. by rewrite IH. Qed.

Lemma reachable_sizes_in_range c :
  reachable c →
  int64_range (totalSize c) ∧
  Forall (λ s, int64_range (s_size s)) (shards c).
Proof.
  intros Hr. destruct (reachable_cache_inv c Hr) as [Hall Htot]. split.
  - rewrite Htot. apply wrap64_range.
  - eapply Forall_impl; [exact Hall|]. intros s [_ Hs].
    unfold shard_sized in Hs. rewrite Hs. apply wrap64_range.
Qed.

(** X18.  In every state reached from [New] by operations that returned,
    [GetStats] and [GetShardStats] both return, leave the cache as it was,
    and agree: [GetShardStats] describes the shards one by one, in order
    (index, number of entries, size, hit and miss counters, hit ratio and
    formatted size of each), and the entries, the total size, the hits and
    the misses that [GetStats] reports are the sums of the per-shard figures,
    in [int64] arithmetic. *)
Theorem shard_stats_add_up c :
  reachable c →
  ∃ st stats,
    GetStats c = Returned st c ∧ GetShardStats c = Returned stats c ∧
    describes (shards c) stats ∧
    st_TotalEntries st = wrap64 (sumZ (ss_EntryCount <$> stats)) ∧
    st_TotalSize st = wrap64 (sumZ (ss_Size <$> stats)) ∧
    st_HitCount st = wrap64 (sumZ (ss_HitCount <$> stats)) ∧
    st_MissCount st = wrap64 (sumZ (ss_MissCount <$> stats)).
Proof.
  intros Hr.
  pose proof (reachable_quiescent c Hr) as Hq.
  destruct (reachable_sizes_in_range c Hr) as [Htot Hsizes].
  destruct (reachable_cache_inv c Hr) as [_ Hsum].
  destruct (reachable_counters c Hr) as [Hh Hm].
  destruct (GetStats_quiescent c Hq Htot) as (usage & _ & Hst).
  destruct (GetShardStats_quiescent c Hq Hsizes) as (stats & Hss & Hd).
  eexists. exists stats. split; [exact Hst|]. split; [done|]. split; [done|].
  simpl.
  rewrite (describes_fmap (λ s, Z.of_nat (size (s_data s))) ss_EntryCount _ _
             (λ _ _ _, eq_refl) Hd).
  rewrite (describes_fmap s_size ss_Size _ _ (λ _ _ _, eq_refl) Hd).
  rewrite (describes_fmap s_hitCount ss_HitCount _ _ (λ _ _ _, eq_refl) Hd).
  rewrite (describes_fmap s_missCount ss_MissCount _ _ (λ _ _ _, eq_refl) Hd).
  rewrite <- entryCount_fmap, <- shardSizes_fmap_size.
  unfold sumZ. rewrite <- shardHits_fmap, <- shardMisses_fmap. done.
Qed.

(** X19.  [GetMemoryInfo] takes no lock: whatever locks are held, on a cache
    whose total size and budget are [int64] values it returns and leaves the
    cache as it was.  It reports the total size as used, the budget, the
    sizes of the shards in order, and an available amount that is never
    negative: the budget less the used amount, or 0 when the cache is over
    its budget.  When the size accounting holds, the shard sizes it reports
    add up to the used amount. *)
Theorem GetMemoryInfo_spec c :
  int64_range (totalSize c) → int64_range (MaxMemoryBytes (config c)) →
  ∃ mi, GetMemoryInfo c = Returned mi c ∧
    mi_Used mi = totalSize c ∧
    mi_Max mi = MaxMemoryBytes (config c) ∧
    mi_ShardSizes mi = s_size <$> shards c ∧
    0 <= mi_Available mi ∧
    (int64_range (MaxMemoryBytes (config c) - totalSize c) →
     mi_Available mi = Z.max 0 (MaxMemoryBytes (config c) - totalSize c)) ∧
    formatBytes (mi_Used mi) = Some (mi_UsedFormatted mi) ∧
    formatBytes (mi_Max mi) = Some (mi_MaxFormatted mi) ∧
    formatBytes (mi_Available mi) = Some (mi_AvailableFormatted mi) ∧
    (sizes_consistent c → wrap64 (sumZ (mi_ShardSizes mi)) = mi_Used mi).
Proof.
  intros Hused Hmax.
  set (avail := sub64 (MaxMemoryBytes (config c)) (totalSize c)).
  set (available := if avail <? 0 then 0 else avail).
  assert (Havail : int64_range available).
  { unfold available. destruct (Z.ltb_spec avail 0).
    - unfold int64_range. lia.
    - apply wrap64_range. }
  destruct (formatBytesM_Returned _ c Hused) as (u1 & Hu1 & Hm1).
  destruct (formatBytesM_Returned _ c Hmax) as (u2 & Hu2 & Hm2).
  destruct (formatBytesM_Returned _ c Havail) as (u3 & Hu3 & Hm3).
  eexists. split.
  { unfold GetMemoryInfo, bind, gets. fold avail. fold available.
    rewrite Hm1, Hm2, Hm3. reflexivity. }
  simpl. repeat split; try done.
  - unfold available. destruct (Z.ltb_spec avail 0); lia.
  - intros Hr. unfold available, avail, sub64. rewrite (wrap64_id _ Hr).
    destruct (Z.ltb_spec (MaxMemoryBytes (config c) - totalSize c) 0); lia.
  - intros [_ Htot]. by rewrite <- shardSizes_fmap_size.
Qed.

(** [Clear] on a cache with no lock held, in closed form. *)
Lemma Clear_quiescent c :
  quiescent c →
  Clear c = Returned tt (withTotalSize (λ _, 0) (withShards (fmap clearShard) c)).
Proof.
  intros Hq. unfold Clear.
  destruct (forM_seq_returns (cleared_below c)
              (λ i, Lock i ;; updShard i clearShard ;; Unlock i)
              (length (shards c)) 0) with (c := c) as (c1 & Hloop & HP).
  - intros i c2 Hi (Hcfg & Htot & Hh & Hm & Hcl & Hst & Hg & Hlen & Hsh).
    destruct (lookup_lt_is_Some_2 (shards c) i) as [s Hs]; [lia|].
    pose proof (Hsh i s Hs) as Hs2. rewrite decide_False in Hs2 by lia.
    exists (putShard i (clearShard s) c2). split.
    + apply Clear_round; [done|]. by apply (Forall_lookup_1 _ _ _ _ Hq Hs).
    + unfold cleared_below. simpl. rewrite length_insert.
      repeat split; try done.
      intros j s' Hs'. destruct (decide (j = i)) as [->|Hne].
      * rewrite list_lookup_insert_eq by lia. rewrite decide_True by lia.
        by simplify_eq.
      * rewrite list_lookup_insert_ne by done. rewrite (Hsh j s' Hs').
        do 2 case_decide; try done; lia.
  - unfold cleared_below. repeat split; try done;
      intros i s Hs; by rewrite decide_False by lia.
  - destruct HP as (Hcfg & Htot & Hh & Hm & Hcl & Hst & Hg & Hlen & Hsh).
    unfold bind at 1. rewrite Hloop. unfold modify. f_equal.
    assert (Hshards : shards c1 = clearShard <$> shards c).
    { apply list_eq. intros i. rewrite list_lookup_fmap.
      destruct (shards c !! i) as [s|] eqn:Hs; simpl.
      - rewrite (Hsh i s Hs). rewrite decide_True; [done|].
        apply lookup_lt_Some in Hs. simpl. lia.
      - apply lookup_ge_None. rewrite Hlen. by apply lookup_ge_None. }
    destruct c1; simpl in *. unfold withTotalSize, withShards. simpl.
    by subst.
Qed.

Lemma entryCount_clear l : entryCount (clearShard <$> l) = 0.
Proof.
  induction l as [|s l IH]; [done|].
  rewrite fmap_cons. unfold entryCount in *. simpl. by rewrite IH.
Qed.

(** X20.  After [Clear] the statistics are those of an empty cache: with no
    shard lock held, [Clear] returns, and [GetStats] on the cache it leaves
    returns and reports no entry and a total size of 0, formatted as 0
    bytes; the hit and miss counters it reports are those from before the
    [Clear]. *)
Theorem Clear_then_GetStats c :
  quiescent c →
  ∃ c' st,
    Clear c = Returned tt c' ∧ GetStats c' = Returned st c' ∧
    st_TotalEntries st = 0 ∧ st_TotalSize st = 0 ∧
    st_MemoryUsage st = SprintfB 0 ∧
    st_HitCount st = totalHits c ∧ st_MissCount st = totalMiss c.
Proof.
  intros Hq.
  set (c' := withTotalSize (λ _, 0) (withShards (fmap clearShard) c)).
  assert (Hq' : quiescent c').
  { unfold quiescent, c'. simpl. apply Forall_fmap.
    eapply Forall_impl; [exact Hq|]. by intros s Hs. }
  assert (Hr : int64_range (totalSize c')) by (by vm_compute).
  destruct (GetStats_quiescent c' Hq' Hr) as (usage & Hu & Hst).
  exists c'. eexists. split; [by apply Clear_quiescent|].
  split; [exact Hst|]. simpl. rewrite entryCount_clear.
  repeat split; try done.
  simpl in Hu. vm_compute in Hu. by injection Hu as <-.
Qed.

Lemma entryCount_reset l :
  entryCount ((λ s, withMissCount (λ _, 0) (withHitCount (λ _, 0) s)) <$> l)
  = entryCount l.
Proof.
  induction l as [|s l IH]; [done|].
  rewrite fmap_cons. unfold entryCount in *. simpl. by rewrite IH.
Qed.

(** X21.  [ResetStats] takes no lock and always returns.  It sets the hit and
    miss counters of the cache and of every shard to 0 and leaves everything
    else: on a cache with no lock held, [GetStats] after it reports 0 hits,
    0 misses and the zero hit ratio, and the same number of entries, total
    size, formatted size, shard count, budget and percentage as
    [GetStats] before it. *)
Theorem ResetStats_then_GetStats c :
  quiescent c → int64_range (totalSize c) →
  ∃ c' st0 st,
    GetStats c = Returned st0 c ∧
    ResetStats c = Returned tt c' ∧
    GetStats c' = Returned st c' ∧
    shards c' = (λ s, withMissCount (λ _, 0) (withHitCount (λ _, 0) s)) <$> shards c ∧
    st_HitCount st = 0 ∧ st_MissCount st = 0 ∧ st_HitRatio st = F64 0 ∧
    st_TotalEntries st = st_TotalEntries st0 ∧
    st_TotalSize st = st_TotalSize st0 ∧
    st_MemoryUsage st = st_MemoryUsage st0 ∧
    st_ShardCount st = st_ShardCount st0 ∧
    st_MaxMemory st = st_MaxMemory st0 ∧
    st_MemoryPercent st = st_MemoryPercent st0.
Proof.
  intros Hq Hr.
  destruct (GetStats_quiescent c Hq Hr) as (usage & Hu & Hst0).
  set (c' := withShards (fmap (λ s, withMissCount (λ _, 0) (withHitCount (λ _, 0) s)))
               (withTotalMiss (λ _, 0) (withTotalHits (λ _, 0) c))).
  assert (Hq' : quiescent c').
  { unfold quiescent, c'. simpl. apply Forall_fmap.
    eapply Forall_impl; [exact Hq|]. by intros s Hs. }
  destruct (GetStats_quiescent c' Hq' Hr) as (usage' & Hu' & Hst).
  simpl in Hu'. rewrite Hu in Hu'. injection Hu' as <-.
  exists c'. eexists. eexists. split; [exact Hst0|]. split; [done|].
  split; [exact Hst|]. simpl. rewrite entryCount_reset. by repeat split.
Qed.


(** ** The classes of errors *)

Lemma Set_error c key value ttl now e c' :
  Set_ key value ttl now c = Returned (Some e) c' → e = ErrCacheClosed.
Proof.
  intros H. destruct (decide (closed c = 1)) as [Hcl|Hcl].
  - unfold Set_ in H. rewrite Hcl in H. simpl in H. by simplify_eq.
  - by destruct (Set_Returned_stored c key value ttl now _ c' H Hcl) as [? _].
Qed.

(** X22.  [IsTemporaryError] and [IsPermanentError] never both hold.  Every
    error that [Validate], [Set] or [Close] returns is permanent.  An
    [ErrShardError] is permanent when the error it wraps is a configuration
    error, which [errors.As] finds in the chain; it is not permanent when it
    wraps [ErrCacheClosed], which is compared with [==] only. *)
Theorem error_classes :
  (∀ err, IsTemporaryError err && IsPermanentError err = false) ∧
  (∀ cfg e, Validate cfg = Some e →
     IsPermanentError (Some (Err e)) = true) ∧
  (∀ c key value ttl now e c',
     Set_ key value ttl now c = Returned (Some e) c' →
     IsPermanentError (Some (Err e)) = true) ∧
  (∀ c e c', Close c = Returned (Some e) c' →
     IsPermanentError (Some (Err e)) = true) ∧
  (∀ id f m,
     IsPermanentError (Some (ErrShardError id (Some (Err (ErrInvalidConfig f m)))))
     = true) ∧
  (∀ id, IsPermanentError (Some (ErrShardError id (Some (Err ErrCacheClosed))))
         = false).
Proof.
  split; [|split; [|split; [|split; [|split]]]].
  - intros [[[]| |]|]; simpl; try done.
  - intros cfg e H. unfold Validate in H.
    repeat (destruct (_ <=? _) || destruct (_ <? _)); by simplify_eq.
  - intros c key value ttl now e c' H.
    by rewrite (Set_error c key value ttl now e c' H).
  - intros c e c'. unfold Close. destruct (closed c =? 0); intros ?; by simplify_eq.
  - done.
  - done.
Qed.


(** ** The asynchronous delete *)

Lemma delete_last_app {A} (l : list A) (x : A) :
  delete (length l) (l ++ [x]) = l.
Proof. induction l as [|a l IH]; simpl; [done|]. by f_equal. Qed.

(** X23.  The delete that [Get] schedules for an expired entry is
    unconditional.  On an open cache whose shard for the key is unlocked, a
    [Get] of an expired key is a miss and leaves one pending delete of the
    key; if a [Set] of the same key then returns (here: within the budget),
    the fresh value is stored; when the pending delete runs afterwards it
    removes that fresh entry, so that every later [Get] of the key is a
    miss. *)
Theorem async_delete_is_unconditional c i s key e now value ttl now' :
  closed c ≠ 1 → getShard key c = Returned i c →
  shards c !! i = Some s → s_mu s = false →
  s_data s !! key = Some e → isExpired e now = true →
  add64 (totalSize c) (storeDelta key value s) <= MaxMemoryBytes (config c) →
  ∃ c1 c2 c3,
    Get key now c = Returned (None, false) c1 ∧
    goroutines c1 = goroutines c ++ [key] ∧
    Set_ key value ttl now' c1 = Returned None c2 ∧
    (∃ s2 e2, shards c2 !! i = Some s2 ∧ s_data s2 !! key = Some e2 ∧
              e_value e2 = value) ∧
    runGoroutine (length (goroutines c)) c2 = Returned tt c3 ∧
    goroutines c3 = goroutines c ∧
    ∀ now'', ∃ c4, Get key now'' c3 = Returned (None, false) c4.
Proof.
  intros Hcl Hi Hs Hmu He Hexp Hfit.
  assert (Hlen : (i < length (shards c))%nat) by (by eapply lookup_lt_Some).
  set (s1 := withMissCount (λ n, add64 n 1) s).
  set (c1 := withTotalMiss (λ n, add64 n 1)
               (putShard i s1 (withGoroutines (λ g, g ++ [key]) c))).
  assert (Hi1 : getShard key c1 = Returned i c1).
  { apply (getShard_same key c c1 i Hi); [done|].
    apply lookup_lt_is_Some. simpl. by rewrite length_insert. }
  assert (Hs1 : shards c1 !! i = Some s1) by (by apply list_lookup_insert_eq).
  set (s2 := storeEntry key value (expiryFor (config c1) ttl now') s1).
  set (c2 := withTotalSize (λ t, add64 t (storeDelta key value s1))
               (putShard i s2 c1)).
  assert (Hset : Set_ key value ttl now' c1 = Returned None c2).
  { apply Set_within_budget; try done. }
  destruct (storeEntry_lookup key value (expiryFor (config c1) ttl now') s1)
    as (e2 & He2 & Hv2 & _).
  fold s2 in He2.
  assert (Hs2 : shards c2 !! i = Some s2).
  { simpl. rewrite list_lookup_insert_eq; [done|by rewrite length_insert]. }
  set (c2' := withGoroutines (delete (length (goroutines c))) c2).
  assert (Hi2 : getShard key c2' = Returned i c2').
  { apply (getShard_same key c c2' i Hi); [done|]. by eexists. }
  assert (Hmu2 : s_mu s2 = false).
  { unfold s2. by rewrite storeEntry_mu. }
  set (c3 := withTotalSize (λ t, add64 t (neg64 (e_size e2)))
               (putShard i (without key e2 s2) c2')).
  assert (Hdel : Delete key c2' = Returned true c3).
  { by apply (Delete_present c2' i s2 key e2). }
  assert (Hgo : goroutines c2 !! length (goroutines c) = Some key).
  { simpl. rewrite lookup_app_r by done. by rewrite Nat.sub_diag. }
  exists c1, c2, c3.
  split; [by apply (Get_expired c i s key e)|].
  split; [done|]. split; [done|].
  split; [by exists s2, e2|].
  split.
  { unfold runGoroutine. rewrite Hgo. unfold bind, modify. fold c2'.
    by rewrite Hdel. }
  split; [apply delete_last_app|].
  intros now''. eexists.
  apply (Get_absent c3 i (without key e2 s2)); try done.
  - apply (getShard_same key c c3 i Hi); [done|].
    apply lookup_lt_is_Some. simpl. by rewrite !length_insert.
  - simpl. rewrite list_lookup_insert_eq; [done|by rewrite !length_insert].
  - simpl. apply lookup_delete_eq.
Qed.

(** ** Entries are added by Set alone *)

Lemma entries_within_same c c' :
  config c' = config c → shards c' = shards c → entries_within c c'.
Proof.
  intros Hc Hs. split; [done|]. rewrite Hs. split; [done|].
  intros i s Hi. by exists s.
Qed.

#[export] Instance entries_within_gentle :
  GentleRel (λ f, ∀ s, s_data (f s) ⊆ s_data s) entries_within.
Proof.
  split; try done.
  - intros c. by apply entries_within_same.
  - intros a b c (Hc1 & Hl1 & H1) (Hc2 & Hl2 & H2).
    split; [congruence|]. split; [congruence|].
    intros i s'' Hs''. destruct (H2 i s'' Hs'') as (s' & Hs' & Hsub').
    destruct (H1 i s' Hs') as (s & Hs & Hsub).
    exists s. split; [done|]. by etrans.
  - intros c i f Hf. split; [done|]. split; [by simpl; rewrite length_alter|].
    intros j s' Hs'. simpl in Hs'. destruct (decide (i = j)) as [->|Hne].
    + rewrite list_lookup_alter_eq in Hs'.
      destruct (shards c !! j) as [s|] eqn:Hs; [|done]. simpl in Hs'.
      injection Hs' as <-. exists s. split; [done|apply Hf].
    + rewrite list_lookup_alter_ne in Hs' by done. by exists s'.
  - intros c f. by apply entries_within_same.
  - intros c f. by apply entries_within_same.
  - intros c v stop. by apply entries_within_same.
  - intros k s. simpl. apply delete_subseteq.
  - intros s. simpl. apply map_empty_subseteq.
Qed.

Lemma entries_within_ResetStats : frame entries_within ResetStats.
Proof.
  intros c. unfold ResetStats, bind, modify. split; [done|].
  split; [by simpl; rewrite length_fmap|].
  intros i s' Hs'. simpl in Hs'. rewrite list_lookup_fmap in Hs'.
  destruct (shards c !! i) as [s|]; [|done]. simpl in Hs'.
  injection Hs' as <-. by exists s.
Qed.

Lemma entries_within_Get key now : frame entries_within (Get key now).
Proof.
  apply (gentle_Get _ entries_within); try done.
  - intros c f. by apply entries_within_same.
  - intros c f. by apply entries_within_same.
Qed.

(** X24.  Only [Set] adds or changes an entry: whether they return, block
    or panic, [Get], [Delete], [Clear], [Close], [ResetStats], the eviction
    check, [evictFromShard], a tick of the cleanup goroutine and an
    asynchronous delete leave a cache in which every entry of every shard
    was already in that shard before, with the same value, size and expiry;
    the configuration and the number of shards are unchanged. *)
Theorem only_Set_adds_entries :
  (∀ key now, frame entries_within (Get key now)) ∧
  (∀ key, frame entries_within (Delete key)) ∧
  frame entries_within Clear ∧
  frame entries_within Close ∧
  frame entries_within ResetStats ∧
  frame entries_within evictIfNeeded ∧
  (∀ i n, frame entries_within (evictFromShard i n)) ∧
  (∀ now, frame entries_within (cleanupRoutine now)) ∧
  (∀ n, frame entries_within (runGoroutine n)).
Proof.
  split_and!.
  - apply entries_within_Get.
  - apply (gentle_Delete _ entries_within).
  - apply (gentle_Clear _ entries_within).
  - apply (gentle_Close _ entries_within).
  - apply entries_within_ResetStats.
  - apply (gentle_evictIfNeeded _ entries_within).
  - apply (gentle_evictFromShard _ entries_within).
  - apply (gentle_cleanupRoutine _ entries_within).
  - apply (gentle_runGoroutine _ entries_within).
Qed.

Lemma entries_ok_within c c' :
  entries_ok c → entries_within c c' → entries_ok c'.
Proof.
  intros Hok (Hcfg & Hlen & Hsub) i s' k e Hs' He.
  destruct (Hsub i s' Hs') as (s & Hs & Hincl).
  destruct (Hok i s k e Hs) as (Hk & Hsz & Hg).
  { by eapply lookup_weaken. }
  split; [done|]. split; [done|].
  apply (getShard_same k c c' i Hg Hcfg). by eexists.
Qed.

Lemma entries_ok_frame {A} (m : M A) c r c' :
  frame entries_within m → m c = Returned r c' →
  entries_ok c → entries_ok c'.
Proof.
  intros Hm Hrun Hok. specialize (Hm c). rewrite Hrun in Hm.
  by apply (entries_ok_within c).
Qed.

Lemma entries_ok_stored c i s key value expiry :
  entries_ok c → getShard key c = Returned i c → shards c !! i = Some s →
  entries_ok (stored i s key value expiry c).
Proof.
  intros Hok Hi Hs j sj k e Hj He.
  assert (Hlen : (i < length (shards c))%nat) by (by eapply lookup_lt_Some).
  assert (Hg : ∀ k', getShard k' c = Returned j c →
                     getShard k' (stored i s key value expiry c)
                     = Returned j (stored i s key value expiry c)).
  { intros k' Hk'. apply (getShard_same k' c _ j Hk'); [done|]. by eexists. }
  simpl in Hj. destruct (decide (j = i)) as [->|Hne].
  - rewrite list_lookup_insert_eq in Hj by done. injection Hj as <-.
    destruct (decide (k = key)) as [->|Hk].
    + unfold storeEntry in He. simpl in He.
      destruct (s_data s !! key) as [existing|] eqn:Hex; simpl in He;
        rewrite lookup_insert_eq in He; injection He as <-; simpl.
      * destruct (Hok i s key existing Hs Hex) as (Hkey & _ & _).
        split; [done|]. split; [done|]. by apply Hg.
      * split; [done|]. split; [done|]. by apply Hg.
    + rewrite storeEntry_withMu in He. simpl in He.
      assert (He' : s_data s !! k = Some e).
      { unfold storeEntry in He. destruct (s_data s !! key); simpl in He;
          by rewrite lookup_insert_ne in He. }
      destruct (Hok i s k e Hs He') as (Hkey & Hsz & Hgk).
      split; [done|]. split; [done|]. by apply Hg.
  - rewrite list_lookup_insert_ne in Hj by done.
    destruct (Hok j sj k e Hj He) as (Hkey & Hsz & Hgk).
    split; [done|]. split; [done|]. by apply Hg.
Qed.

Lemma entries_ok_Set key value ttl now c r c' :
  entries_ok c → Set_ key value ttl now c = Returned r c' → entries_ok c'.
Proof.
  intros Hok H. destruct (decide (closed c = 1)) as [Hcl|Hcl].
  { unfold Set_ in H. rewrite Hcl in H. simpl in H. by simplify_eq. }
  pose proof H as H0. unfold Set_ in H0.
  rewrite (proj2 (Z.eqb_neq _ _) Hcl) in H0.
  apply bind_Returned in H0 as (i & c1 & Hi & H0).
  pose proof Hi as Hi'. apply getShard_Returned in Hi' as [-> _].
  apply bind_Returned in H0 as ([] & c2 & HL & _).
  apply Lock_Returned in HL as (s & Hs & Hmu & _).
  rewrite (Set_unfold c i s) in H by done.
  assert (Hframe : frame entries_within
                     (defer (Unlock i) (evictIfNeeded ;; ret (@None error)))).
  { apply (gentle_defer _ entries_within);
      [apply (gentle_Unlock _ entries_within)|].
    apply (gentle_bind _ entries_within);
      [apply (gentle_evictIfNeeded _ entries_within)|].
    intros _. apply (gentle_ret _ entries_within). }
  apply (entries_ok_frame _ _ _ _ Hframe H). by apply entries_ok_stored.
Qed.

Lemma entries_ok_step op c r c' :
  entries_ok c → step op c = Returned r c' → entries_ok c'.
Proof.
  intros Hok H. destruct op; simpl in H;
    apply bind_Returned in H as (r' & c1 & H & Hret);
    unfold ret in Hret; simplify_eq.
  - by eapply entries_ok_Set.
  - by eapply (entries_ok_frame _ _ _ _ (entries_within_Get key now)).
  - by eapply (entries_ok_frame _ _ _ _ (gentle_Delete _ entries_within key)).
  - by eapply (entries_ok_frame _ _ _ _ (gentle_Clear _ entries_within)).
  - by eapply (entries_ok_frame _ _ _ _ (gentle_Close _ entries_within)).
  - by eapply (entries_ok_frame _ _ _ _ entries_within_ResetStats).
  - by eapply (entries_ok_frame _ _ _ _ (gentle_evictIfNeeded _ entries_within)).
  - by eapply (entries_ok_frame _ _ _ _ (gentle_cleanupRoutine _ entries_within now)).
  - by eapply (entries_ok_frame _ _ _ _ (gentle_runGoroutine _ entries_within n)).
Qed.

Lemma reachable_entries_ok c : reachable c → entries_ok c.
Proof.
  induction 1 as [cfg c Hnew|c op r c' _ IH Hstep].
  - unfold New in Hnew. destruct (_ <? 0); [done|]. simplify_eq.
    intros i s k e Hs He. simpl in Hs.
    apply lookup_replicate in Hs as [-> _]. simpl in He.
    by rewrite lookup_empty in He.
  - by eapply entries_ok_step.
Qed.

(** X25.  In every state reached from [New] by operations that returned,
    every entry is filed under its own key, carries the size that
    [calculateSize] gives for its key and value, and sits in the shard that
    [getShard] selects for its key; so no key is stored in two shards. *)
Theorem reachable_entries c :
  reachable c →
  (∀ i s k e, shards c !! i = Some s → s_data s !! k = Some e →
     e_key e = k ∧ e_size e = calculateSize k (e_value e) ∧
     getShard k c = Returned i c) ∧
  (∀ i j s s' k, shards c !! i = Some s → shards c !! j = Some s' →
     is_Some (s_data s !! k) → is_Some (s_data s' !! k) → i = j).
Proof.
  intros Hr. pose proof (reachable_entries_ok c Hr) as Hok.
  split; [exact Hok|].
  intros i j s s' k Hs Hs' [e He] [e' He'].
  destruct (Hok i s k e Hs He) as (_ & _ & Hi).
  destruct (Hok j s' k e' Hs' He') as (_ & _ & Hj).
  rewrite Hi in Hj. by injection Hj.
Qed.

(** ** The performance metrics *)

Lemma extremes_snoc l mx mn x :
  extremes l mx mn →
  extremes (l ++ [x])
    (if (length l =? 0)%nat || (mx <? x) then x else mx)
    (if (length l =? 0)%nat || (x <? mn) then x else mn).
Proof.
  destruct l as [|y l]; simpl.
  - intros _. split; [by apply list_elem_of_singleton|].
    split; [by apply list_elem_of_singleton|].
    intros z Hz. apply list_elem_of_singleton in Hz. lia.
  - intros (Hmx & Hmn & Hall).
    assert (Hdec : ∀ z, z ∈ y :: l ++ [x] ↔ z ∈ y :: l ∨ z = x).
    { intros z. rewrite !elem_of_cons, elem_of_app, list_elem_of_singleton.
      tauto. }
    destruct (Z.ltb_spec mx x), (Z.ltb_spec x mn); split_and!;
      try (apply Hdec; auto; fail);
      intros z Hz; apply Hdec in Hz as [Hz| ->];
      try (specialize (Hall z Hz)); lia.
Qed.

Lemma loadLoop_take c k :
  quiescent c → (k ≤ length (shards c))%nat →
  ∃ mx mn,
    foldM (seq 0 k) loadRound (0, 0, 0, []) c
    = Returned (wrap64 (entryCount (take k (shards c))), mx, mn,
                loadsOf (take k (shards c))) c ∧
    extremes (loadsOf (take k (shards c))) mx mn.
Proof.
  intros Hq. induction k as [|k IH]; intros Hk.
  - exists 0, 0. rewrite take_0. done.
  - destruct IH as (mx & mn & Hrun & Hext); [lia|].
    destruct (lookup_lt_is_Some_2 (shards c) k) as [s Hs]; [lia|].
    assert (Hmu : s_mu s = false) by (by apply (Forall_lookup_1 _ _ _ _ Hq Hs)).
    eexists _, _. rewrite seq_S, foldM_app. unfold bind at 1. rewrite Hrun.
    simpl. unfold bind.
    rewrite (RLock_free c k s), (shardAt_Some c k s) by done.
    unfold RUnlock, ret.
    rewrite (take_S_r _ _ s) by done.
    assert (Hlen : length (loadsOf (take k (shards c))) = k).
    { unfold loadsOf. rewrite length_fmap, length_take_le; lia. }
    split.
    + assert (He : add64 (wrap64 (entryCount (take k (shards c))))
                     (Z.of_nat (size (s_data s)))
                   = wrap64 (entryCount (take k (shards c) ++ [s]))).
      { unfold add64. rewrite wrap64_add_l. f_equal.
        rewrite !entryCount_fmap, fmap_app. unfold sumZ.
        rewrite foldr_app. simpl.
        generalize ((λ s0 : Shard, Z.of_nat (size (s_data s0))) <$> take k (shards c)).
        intros l. induction l as [|a l IHl]; simpl; lia. }
      assert (Hl : loadsOf (take k (shards c)) ++ [Z.of_nat (size (s_data s))]
                   = loadsOf (take k (shards c) ++ [s])).
      { unfold loadsOf. by rewrite fmap_app. }
      rewrite He, Hl. reflexivity.
    + unfold loadsOf at 1. rewrite fmap_app. simpl.
      pose proof (extremes_snoc _ mx mn (Z.of_nat (size (s_data s))) Hext) as H.
      rewrite Hlen in H. exact H.
Qed.

Lemma loadLoop_quiescent c :
  quiescent c →
  ∃ mx mn,
    loadLoop c = Returned (wrap64 (entryCount (shards c)), mx, mn,
                           loadsOf (shards c)) c ∧
    extremes (loadsOf (shards c)) mx mn.
Proof.
  intros Hq.
  destruct (loadLoop_take c (length (shards c)) Hq) as (mx & mn & H1 & H2);
    [done|].
  rewrite firstn_all in H1, H2. by exists mx, mn.
Qed.

(** X26.  With no shard lock held, [GetPerformanceMetrics] returns and
    leaves the cache as it was.  The operations it reports are hits plus
    misses; the largest and the smallest shard load it reports bound the
    number of entries of every shard and are each the load of some shard (both
    are 0 for a cache without shards); the average is the number of
    entries over the number of shards; the hit and miss rates are the zero
    value when there was no lookup, and [hits / total] and [misses / total]
    otherwise. *)
Theorem GetPerformanceMetrics_spec c :
  quiescent c →
  ∃ pm, GetPerformanceMetrics c = Returned pm c ∧
    pm_TotalOperations pm = add64 (totalHits c) (totalMiss c) ∧
    (∀ s, s ∈ shards c →
       pm_MinShardLoad pm <= Z.of_nat (size (s_data s)) <= pm_MaxShardLoad pm) ∧
    (shards c ≠ [] →
     ∃ s1 s2, s1 ∈ shards c ∧ s2 ∈ shards c ∧
       pm_MaxShardLoad pm = Z.of_nat (size (s_data s1)) ∧
       pm_MinShardLoad pm = Z.of_nat (size (s_data s2))) ∧
    (shards c = [] → pm_MaxShardLoad pm = 0 ∧ pm_MinShardLoad pm = 0) ∧
    pm_AvgShardLoad pm
    = Fdiv (F64 (wrap64 (entryCount (shards c))))
        (F64 (Z.of_nat (length (shards c)))) ∧
    (add64 (totalHits c) (totalMiss c) <= 0 →
     pm_HitRate pm = F64 0 ∧ pm_MissRate pm = F64 0) ∧
    (0 < add64 (totalHits c) (totalMiss c) →
     pm_HitRate pm
     = Fdiv (F64 (totalHits c)) (F64 (add64 (totalHits c) (totalMiss c))) ∧
     pm_MissRate pm
     = Fdiv (F64 (totalMiss c)) (F64 (add64 (totalHits c) (totalMiss c)))).
Proof.
  intros Hq.
  destruct (loadLoop_quiescent c Hq) as (mx & mn & Hrun & Hext).
  eexists. split.
  { unfold GetPerformanceMetrics, bind, gets. rewrite Hrun. reflexivity. }
  simpl. split; [done|].
  unfold extremes, loadsOf in Hext.
  split; [|split; [|split; [|split; [done|split]]]].
  - intros s Hs. revert Hs Hext. generalize (shards c). intros [|s0 l] Hs Hext.
    + by apply elem_of_nil in Hs.
    + destruct Hext as (_ & _ & Hall). apply Hall.
      by apply (list_elem_of_fmap_2 (λ s, Z.of_nat (size (s_data s)))).
  - intros Hne. revert Hne Hext. generalize (shards c).
    intros [|s0 l] Hne Hext; [done|].
    destruct Hext as (Hmx & Hmn & _).
    apply (list_elem_of_fmap_1 (λ s, Z.of_nat (size (s_data s)))) in Hmx
      as (s1 & -> & Hs1).
    apply (list_elem_of_fmap_1 (λ s, Z.of_nat (size (s_data s)))) in Hmn
      as (s2 & -> & Hs2).
    by exists s1, s2.
  - intros Hnil. rewrite Hnil in Hext. done.
  - intros H. by destruct (Z.ltb_spec 0 (add64 (totalHits c) (totalMiss c))); [lia|].
  - intros H. by destruct (Z.ltb_spec 0 (add64 (totalHits c) (totalMiss c))); [|lia].
Qed.

(** ** A cleanup interval that is not positive *)

Lemma runs_config c c' : runs c c' → config c' = config c.
Proof.
  induction 1 as [c|c op r c1 c2 Hstep _ IH]; [done|].
  rewrite IH. pose proof (step_same_shape op c) as Hs.
  rewrite Hstep in Hs. by destruct Hs.
Qed.

(** X27.  [New] does not validate the cleanup interval either: for an
    interval that is not positive it returns an open cache, and the cleanup
    goroutine it started panics in [time.NewTicker]; no operation on the
    cache changes that. *)
Theorem cleanup_goroutine_panics cfg :
  CleanupInterval cfg <= 0 → 0 <= ShardCount cfg →
  ∃ c, New (Some cfg) = Some c ∧ closed c = 0 ∧
    ∀ c', runs c c' → ∀ now, cleanupRoutine now c' = Panicked c'.
Proof.
  intros Hint Hn. eexists. split.
  { unfold New. simpl. destruct (Z.ltb_spec (ShardCount cfg) 0); [lia|done]. }
  split; [done|]. intros c' Hruns now.
  unfold cleanupRoutine. rewrite (runs_config _ _ Hruns). simpl.
  by destruct (Z.leb_spec (CleanupInterval cfg) 0); [|lia].
Qed.

(** ** Concrete runs of the further properties *)

Lemma afterBasicSet_reachable : reachable afterBasicSet.
Proof.
  apply (reachable_step (freshCache DefaultConfig)
           (OpSet "key1" (VString "value1") [] sampleNow) (RErr None)).
  - apply (reachable_New (Some DefaultConfig)). reflexivity.
  - vm_compute. reflexivity.
Qed.

Lemma twoKeyCache_reachable : reachable twoKeyCache.
Proof.
  apply (reachable_step oneKeyCache (OpSet "b" (VString "w") [] 0) (RErr None)).
  - apply (reachable_step (freshCache oneShardConfig)
             (OpSet "a" (VString "v") [] 0) (RErr None)).
    + apply (reachable_New (Some oneShardConfig)). reflexivity.
    + vm_compute. reflexivity.
  - vm_compute. reflexivity.
Qed.

Lemma twoKeyShard_wf : shard_wf twoKeyShard.
Proof.
  apply (reachable_shard_inv twoKeyCache 0 twoKeyShard twoKeyCache_reachable).
  reflexivity.
Qed.

Lemma CustomConfig_valid_witness :
  MaxMemoryBytes (CustomConfig 100 16 0) = 100 * 1024 * 1024 ∧
  (Validate (CustomConfig 100 16 0) = None ↔ 1 <= 16 <= 65536) ∧
  (∀ e, Validate (CustomConfig 100 16 0) = Some e →
        ∃ m, e = ErrInvalidConfig "ShardCount" m) ∧
  Validate (CustomConfig (2 ^ 43) 16 0)
  = Some (ErrInvalidConfig "MaxMemoryBytes" "must be greater than 0").
Proof. apply (CustomConfig_valid 100 16 0). lia. Defined.

Lemma getShard_in_range_witness :
  ∃ i, getShard "key1" afterBasicSet = Returned i afterBasicSet ∧
       (i < length (shards afterBasicSet))%nat ∧
       Z.of_nat i = hash "key1" mod ShardCount (config afterBasicSet).
Proof.
  apply (getShard_in_range afterBasicSet "key1").
  - apply afterBasicSet_reachable.
  - vm_compute. split; [discriminate|reflexivity].
Defined.

Lemma zero_shards_panic_witness :
  ∃ c, New (Some zeroShardConfig) = Some c ∧ closed c = 0 ∧
    ∀ key value ttl now,
      Set_ key value ttl now c = Panicked c ∧
      Get key now c = Panicked c ∧
      Delete key c = Panicked c.
Proof.
  apply (zero_shards_panic zeroShardConfig).
  - reflexivity.
  - simpl. lia.
Defined.

Lemma Delete_spec_witness :
  ∃ i s, getShard "key1" afterBasicSet = Returned i afterBasicSet ∧
    shards afterBasicSet !! i = Some s ∧
    match s_data s !! "key1" with
    | None => true = false ∧ afterDelete = afterBasicSet
    | Some e =>
        true = true ∧
        afterDelete = withTotalSize (λ t, add64 t (neg64 (e_size e)))
                        (putShard i (without "key1" e s) afterBasicSet)
    end.
Proof.
  apply (Delete_spec afterBasicSet "key1" true afterDelete).
  - vm_compute. discriminate.
  - vm_compute. reflexivity.
Defined.

Lemma Delete_gone_witness :
  Delete "key1" afterDelete = Returned false afterDelete ∧
  ∀ now, ∃ c'', Get "key1" now afterDelete = Returned (None, false) c''.
Proof.
  apply (Delete_gone afterBasicSet "key1" true afterDelete).
  vm_compute. reflexivity.
Defined.

Lemma Get_accounting_witness :
  ∃ i s s',
    getShard "key1" afterBasicSet = Returned i afterBasicSet ∧
    shards afterBasicSet !! i = Some s ∧
    shards afterGet = <[i:=s']> (shards afterBasicSet) ∧
    s_data s' = s_data s ∧ s_size s' = s_size s ∧ s_mu s' = s_mu s ∧
    totalSize afterGet = totalSize afterBasicSet ∧
    totalHits afterGet = add64 (totalHits afterBasicSet) 1 ∧
    totalMiss afterGet = totalMiss afterBasicSet ∧
    s_hitCount s' = add64 (s_hitCount s) 1 ∧ s_missCount s' = s_missCount s.
Proof.
  apply (Get_accounting afterBasicSet "key1" (sampleNow + Minute)
           (Some (VString "value1")) true afterGet).
  - vm_compute. discriminate.
  - vm_compute. reflexivity.
Defined.

Lemma Get_hit_survives_eviction_witness :
  ∃ c1 c2 s2 victim,
    Get "a" 1 twoKeyCache = Returned (Some (e_value entryA), true) c1 ∧
    evictFromShard 0 1 c1 = Returned tt c2 ∧
    shards c2 !! 0%nat = Some s2 ∧
    victim ≠ "a" ∧ is_Some (s_data twoKeyShard !! victim) ∧
    s_data s2 = delete victim (s_data twoKeyShard) ∧
    s_data s2 !! "a" = Some entryA.
Proof.
  apply (Get_hit_survives_eviction twoKeyCache 0 twoKeyShard "a" entryA 1 "b").
  - vm_compute. discriminate.
  - vm_compute. reflexivity.
  - reflexivity.
  - reflexivity.
  - apply twoKeyShard_wf.
  - vm_compute. reflexivity.
  - reflexivity.
  - discriminate.
  - eexists. vm_compute. reflexivity.
Defined.

Lemma Set_under_budget_witness :
  ∃ s' e,
    Set_ "key1" (VString "value1") [] sampleNow (freshCache DefaultConfig) =
      Returned None
        (withTotalSize (λ t, add64 t (storeDelta "key1" (VString "value1") newShard))
           (putShard key1Shard s' (freshCache DefaultConfig))) ∧
    s_data s' = <["key1":=e]> (s_data newShard) ∧
    e_key e = "key1" ∧ e_value e = VString "value1" ∧
    e_size e = calculateSize "key1" (VString "value1") ∧
    e_expiry e = expiryFor (config (freshCache DefaultConfig)) [] sampleNow ∧
    s_lruList s' = "key1" :: Remove "key1" (s_lruList newShard) ∧
    s_size s' = add64 (s_size newShard) (storeDelta "key1" (VString "value1") newShard) ∧
    s_mu s' = false ∧
    s_hitCount s' = s_hitCount newShard ∧ s_missCount s' = s_missCount newShard.
Proof.
  apply (Set_under_budget (freshCache DefaultConfig) key1Shard newShard).
  - vm_compute. discriminate.
  - vm_compute. reflexivity.
  - vm_compute. reflexivity.
  - reflexivity.
  - apply shard_inv_newShard.
  - vm_compute. discriminate.
Defined.

Lemma cleanupExpired_spec_witness :
  ∃ c', cleanupExpired (sampleNow + 150 * Millisecond) afterTTLSet = Returned tt c' ∧
    config c' = config afterTTLSet ∧
    totalHits c' = totalHits afterTTLSet ∧ totalMiss c' = totalMiss afterTTLSet ∧
    closed c' = closed afterTTLSet ∧ stopCh c' = stopCh afterTTLSet ∧
    goroutines c' = goroutines afterTTLSet ∧
    length (shards c') = length (shards afterTTLSet) ∧
    (∀ i s, shards afterTTLSet !! i = Some s →
       ∃ s', shards c' !! i = Some s' ∧
             swept (sampleNow + 150 * Millisecond) s s') ∧
    quiescent c' ∧
    (cache_inv afterTTLSet → cache_inv c').
Proof.
  apply (cleanupExpired_spec (sampleNow + 150 * Millisecond) afterTTLSet).
  unfold quiescent. vm_compute. repeat constructor.
Defined.

Lemma evictFromShard_spec_witness :
  ∃ t s',
    evictFromShard 0 1 twoKeyCache
      = Returned tt (withTotalSize (λ _, t) (putShard 0 s' twoKeyCache)) ∧
    s_lruList s' = take (length (s_lruList twoKeyShard) - 1) (s_lruList twoKeyShard) ∧
    (∀ k, s_data s' !! k
          = if decide (k ∈ s_lruList s') then s_data twoKeyShard !! k else None) ∧
    s_mu s' = false ∧
    s_hitCount s' = s_hitCount twoKeyShard ∧
    s_missCount s' = s_missCount twoKeyShard ∧
    (cache_inv twoKeyCache →
     cache_inv (withTotalSize (λ _, t) (putShard 0 s' twoKeyCache))).
Proof.
  apply (evictFromShard_spec twoKeyCache 0 twoKeyShard 1).
  - reflexivity.
  - reflexivity.
  - apply twoKeyShard_wf.
Defined.

Lemma only_Get_counts_witness :
  same_counters afterBasicSet (stateOf (Delete "key1" afterBasicSet)).
Proof.
  destruct only_Get_counts as (_ & HDelete & _).
  pose proof (HDelete "key1" afterBasicSet) as H.
  by destruct (Delete "key1" afterBasicSet).
Defined.

Lemma afterGet_reachable : reachable afterGet.
Proof.
  apply (reachable_step afterBasicSet (OpGet "key1" (sampleNow + Minute))
           (RGet (Some (VString "value1"), true))).
  - apply afterBasicSet_reachable.
  - vm_compute. reflexivity.
Qed.

Lemma reachable_counters_consistent_witness :
  counters_consistent afterGet ∧
  (int64_range (shardHits (shards afterGet)) →
   totalHits afterGet = shardHits (shards afterGet)) ∧
  (int64_range (shardMisses (shards afterGet)) →
   totalMiss afterGet = shardMisses (shards afterGet)).
Proof. apply (reachable_counters_consistent afterGet), afterGet_reachable. Defined.

Lemma locks_released_witness : quiescent afterGet.
Proof. apply (proj2 locks_released afterGet), afterGet_reachable. Defined.

Lemma reachable_lru_agrees_witness :
  NoDup (s_lruList twoKeyShard) ∧
  (∀ k, k ∈ s_lruList twoKeyShard ↔ is_Some (s_data twoKeyShard !! k)) ∧
  length (s_lruList twoKeyShard) = size (s_data twoKeyShard) ∧
  (∀ k e, s_data twoKeyShard !! k = Some e → e_key e = k).
Proof.
  apply (reachable_lru_agrees twoKeyCache twoKeyCache_reachable twoKeyShard).
  apply (list_elem_of_lookup_2 _ 0%nat). reflexivity.
Defined.

Lemma formatBytes_spec_witness :
  (1536 < 1024 → formatBytes 1536 = Some (SprintfB 1536)) ∧
  (1024 <= 1536 →
   ∃ exp unit,
     (exp ≤ 5)%nat ∧ String.get exp "KMGTPE" = Some unit ∧
     1024 ^ (Z.of_nat exp + 1) <= 1536 < 1024 ^ (Z.of_nat exp + 2) ∧
     formatBytes 1536
     = Some (SprintfUnit (Fdiv (F64 1536) (F64 (1024 ^ (Z.of_nat exp + 1))))
               unit)).
Proof.
  apply (formatBytes_spec 1536).
  vm_compute. split; [discriminate|reflexivity].
Defined.

Lemma GetStats_spec_witness :
  ∃ st, GetStats sampleCache = Returned st sampleCache ∧
    st_TotalEntries st = wrap64 (entryCount (shards sampleCache)) ∧
    st_TotalSize st = totalSize sampleCache ∧
    st_HitCount st = totalHits sampleCache ∧
    st_MissCount st = totalMiss sampleCache ∧
    (add64 (totalHits sampleCache) (totalMiss sampleCache) <= 0 →
     st_HitRatio st = F64 0) ∧
    (0 < add64 (totalHits sampleCache) (totalMiss sampleCache) →
     st_HitRatio st
     = Fdiv (F64 (totalHits sampleCache))
         (F64 (add64 (totalHits sampleCache) (totalMiss sampleCache)))) ∧
    formatBytes (totalSize sampleCache) = Some (st_MemoryUsage st) ∧
    st_ShardCount st = ShardCount (config sampleCache) ∧
    st_MaxMemory st = MaxMemoryBytes (config sampleCache) ∧
    st_MemoryPercent st
    = Fmul (Fdiv (F64 (totalSize sampleCache))
              (F64 (MaxMemoryBytes (config sampleCache))))
        (F64 100).
Proof.
  apply (GetStats_spec sampleCache).
  - unfold quiescent. simpl. repeat constructor.
  - vm_compute. split; [discriminate|reflexivity].
Defined.

Lemma stats_wait_for_locks_witness :
  GetStats deadlockedCache = Blocked deadlockedCache ∧
  (Forall (λ s, int64_range (s_size s)) (shards deadlockedCache) →
   GetShardStats deadlockedCache = Blocked deadlockedCache).
Proof.
  apply (stats_wait_for_locks deadlockedCache 0 deadlockedShard).
  - reflexivity.
  - reflexivity.
Defined.

Lemma shard_stats_add_up_witness :
  ∃ st stats,
    GetStats afterGet = Returned st afterGet ∧
    GetShardStats afterGet = Returned stats afterGet ∧
    describes (shards afterGet) stats ∧
    st_TotalEntries st = wrap64 (sumZ (ss_EntryCount <$> stats)) ∧
    st_TotalSize st = wrap64 (sumZ (ss_Size <$> stats)) ∧
    st_HitCount st = wrap64 (sumZ (ss_HitCount <$> stats)) ∧
    st_MissCount st = wrap64 (sumZ (ss_MissCount <$> stats)).
Proof. apply (shard_stats_add_up afterGet), afterGet_reachable. Defined.

Lemma GetMemoryInfo_spec_witness :
  ∃ mi, GetMemoryInfo deadlockedCache = Returned mi deadlockedCache ∧
    mi_Used mi = totalSize deadlockedCache ∧
    mi_Max mi = MaxMemoryBytes (config deadlockedCache) ∧
    mi_ShardSizes mi = s_size <$> shards deadlockedCache ∧
    0 <= mi_Available mi ∧
    (int64_range (MaxMemoryBytes (config deadlockedCache) - totalSize deadlockedCache) →
     mi_Available mi
     = Z.max 0 (MaxMemoryBytes (config deadlockedCache) - totalSize deadlockedCache)) ∧
    formatBytes (mi_Used mi) = Some (mi_UsedFormatted mi) ∧
    formatBytes (mi_Max mi) = Some (mi_MaxFormatted mi) ∧
    formatBytes (mi_Available mi) = Some (mi_AvailableFormatted mi) ∧
    (sizes_consistent deadlockedCache →
     wrap64 (sumZ (mi_ShardSizes mi)) = mi_Used mi).
Proof.
  apply (GetMemoryInfo_spec deadlockedCache).
  - vm_compute. split; [discriminate|reflexivity].
  - vm_compute. split; [discriminate|reflexivity].
Defined.

Lemma Clear_then_GetStats_witness :
  ∃ c' st,
    Clear sampleCache = Returned tt c' ∧ GetStats c' = Returned st c' ∧
    st_TotalEntries st = 0 ∧ st_TotalSize st = 0 ∧
    st_MemoryUsage st = SprintfB 0 ∧
    st_HitCount st = totalHits sampleCache ∧
    st_MissCount st = totalMiss sampleCache.
Proof.
  apply (Clear_then_GetStats sampleCache).
  unfold quiescent. simpl. repeat constructor.
Defined.

Lemma ResetStats_then_GetStats_witness :
  ∃ c' st0 st,
    GetStats sampleCache = Returned st0 sampleCache ∧
    ResetStats sampleCache = Returned tt c' ∧
    GetStats c' = Returned st c' ∧
    shards c' = (λ s, withMissCount (λ _, 0) (withHitCount (λ _, 0) s))
                  <$> shards sampleCache ∧
    st_HitCount st = 0 ∧ st_MissCount st = 0 ∧ st_HitRatio st = F64 0 ∧
    st_TotalEntries st = st_TotalEntries st0 ∧
    st_TotalSize st = st_TotalSize st0 ∧
    st_MemoryUsage st = st_MemoryUsage st0 ∧
    st_ShardCount st = st_ShardCount st0 ∧
    st_MaxMemory st = st_MaxMemory st0 ∧
    st_MemoryPercent st = st_MemoryPercent st0.
Proof.
  apply (ResetStats_then_GetStats sampleCache).
  - unfold quiescent. simpl. repeat constructor.
  - vm_compute. split; [discriminate|reflexivity].
Defined.

Lemma error_classes_witness :
  IsPermanentError
    (Some (Err (ErrInvalidConfig "MaxMemoryBytes" "must be greater than 0")))
  = true.
Proof.
  destruct error_classes as (_ & HValidate & _).
  apply (HValidate zeroMemoryConfig). reflexivity.
Defined.

Lemma async_delete_is_unconditional_witness :
  ∃ c1 c2 c3,
    Get "ttl_key" (sampleNow + 150 * Millisecond) afterTTLSet
      = Returned (None, false) c1 ∧
    goroutines c1 = goroutines afterTTLSet ++ ["ttl_key"] ∧
    Set_ "ttl_key" (VString "fresh") [] (sampleNow + 150 * Millisecond) c1
      = Returned None c2 ∧
    (∃ s2 e2, shards c2 !! ttlShardIndex = Some s2 ∧
              s_data s2 !! "ttl_key" = Some e2 ∧
              e_value e2 = VString "fresh") ∧
    runGoroutine (length (goroutines afterTTLSet)) c2 = Returned tt c3 ∧
    goroutines c3 = goroutines afterTTLSet ∧
    ∀ now'', ∃ c4, Get "ttl_key" now'' c3 = Returned (None, false) c4.
Proof.
  apply (async_delete_is_unconditional afterTTLSet ttlShardIndex ttlShard
           "ttl_key" ttlEntry).
  - vm_compute. discriminate.
  - vm_compute. reflexivity.
  - vm_compute. reflexivity.
  - reflexivity.
  - vm_compute. reflexivity.
  - vm_compute. reflexivity.
  - vm_compute. discriminate.
Defined.

Lemma only_Set_adds_entries_witness : entries_within afterBasicSet afterDelete.
Proof.
  destruct only_Set_adds_entries as (_ & HDelete & _).
  pose proof (HDelete "key1" afterBasicSet) as H.
  unfold afterDelete. by destruct (Delete "key1" afterBasicSet).
Defined.

Lemma reachable_entries_witness :
  (∀ i s k e, shards twoKeyCache !! i = Some s → s_data s !! k = Some e →
     e_key e = k ∧ e_size e = calculateSize k (e_value e) ∧
     getShard k twoKeyCache = Returned i twoKeyCache) ∧
  (∀ i j s s' k, shards twoKeyCache !! i = Some s →
     shards twoKeyCache !! j = Some s' →
     is_Some (s_data s !! k) → is_Some (s_data s' !! k) → i = j).
Proof. apply (reachable_entries twoKeyCache), twoKeyCache_reachable. Defined.

Lemma GetPerformanceMetrics_spec_witness :
  ∃ pm, GetPerformanceMetrics sampleCache = Returned pm sampleCache ∧
    pm_TotalOperations pm
    = add64 (totalHits sampleCache) (totalMiss sampleCache) ∧
    (∀ s, s ∈ shards sampleCache →
       pm_MinShardLoad pm <= Z.of_nat (size (s_data s)) <= pm_MaxShardLoad pm) ∧
    (shards sampleCache ≠ [] →
     ∃ s1 s2, s1 ∈ shards sampleCache ∧ s2 ∈ shards sampleCache ∧
       pm_MaxShardLoad pm = Z.of_nat (size (s_data s1)) ∧
       pm_MinShardLoad pm = Z.of_nat (size (s_data s2))) ∧
    (shards sampleCache = [] →
     pm_MaxShardLoad pm = 0 ∧ pm_MinShardLoad pm = 0) ∧
    pm_AvgShardLoad pm
    = Fdiv (F64 (wrap64 (entryCount (shards sampleCache))))
        (F64 (Z.of_nat (length (shards sampleCache)))) ∧
    (add64 (totalHits sampleCache) (totalMiss sampleCache) <= 0 →
     pm_HitRate pm = F64 0 ∧ pm_MissRate pm = F64 0) ∧
    (0 < add64 (totalHits sampleCache) (totalMiss sampleCache) →
     pm_HitRate pm
     = Fdiv (F64 (totalHits sampleCache))
         (F64 (add64 (totalHits sampleCache) (totalMiss sampleCache))) ∧
     pm_MissRate pm
     = Fdiv (F64 (totalMiss sampleCache))
         (F64 (add64 (totalHits sampleCache) (totalMiss sampleCache)))).
Proof.
  apply (GetPerformanceMetrics_spec sampleCache).
  unfold quiescent. simpl. repeat constructor.
Defined.

Lemma cleanup_goroutine_panics_witness :
  ∃ c, New (Some zeroIntervalConfig) = Some c ∧ closed c = 0 ∧
    ∀ c', runs c c' → ∀ now, cleanupRoutine now c' = Panicked c'.
Proof.
  apply (cleanup_goroutine_panics zeroIntervalConfig).
  - simpl. lia.
  - simpl. lia.
Defined.
